(** * txdb: the persistent coin-set and block-tree stores

    A shallow embedding of [src/txdb.cpp]: the one-byte key tags, the
    coin-set flush ([CCoinsViewDB::BatchWrite] and its helpers), the anchor
    lookups, the reindex flag, the address-index range scans, the aggregate
    statistics scan, the block-index loader, the point operations and
    batched writes of the block-tree store and the balance snapshot,
    followed by the properties the specification states about them and
    by further properties read off the code.

    Everything [txdb.cpp] takes from other translation units (serializers
    of the payload types, the Merkle-tree classes, the header hash, ...) is
    a type-class parameter of the functions that use it; the concrete
    instances of module [Sample] only serve to run the functions on
    explicit inputs. *)

From Stdlib Require Import ZArith Ascii String List Bool Lia.
From stdpp Require Import gmap strings list sorting.

Local Open Scope Z_scope.

(** * Part I: the program *)

(** ** Basic data *)

(** A raw byte string, as stored by the key-value engine. *)
Abbreviation bytes := (list ascii).

(** Modelled from the spec: [uint256] / [uint160] (uint256.h) are the
    hashes used as key payloads, fixed-width blobs of 32, resp. 20, bytes;
    the record holds the byte array. *)
Record uint256 : Type := mk_uint256 { blob256 : bytes }.
Record uint160 : Type := mk_uint160 { blob160 : bytes }.

#[global] Instance uint256_eq_dec : EqDecision uint256.
Proof. solve_decision. Defined.
#[global] Instance uint160_eq_dec : EqDecision uint160.
Proof. solve_decision. Defined.
#[global] Instance uint256_countable : Countable uint256 :=
  inj_countable' blob256 mk_uint256
    (λ x, match x with mk_uint256 _ => eq_refl end).

Definition zero_byte : ascii := "000".

(** Modelled from the spec: [uint256()], the zero hash. *)
Definition uint256_zero : uint256 := mk_uint256 (replicate 32 zero_byte).

(** Modelled from the spec: [IsNull()], the test for the zero hash: every
    byte of the array is zero. *)
Definition IsNull (h : uint256) : bool :=
  forallb (λ c, bool_decide (c = zero_byte)) (blob256 h).

Definition CAmount := Z.

(** [CAmount] is [int64_t] (amount.h).  A sum of two such values is kept
    in 64 bits: as the compiled code does, it wraps around in two's
    complement when it leaves the range. *)
Definition int64_range (z : Z) : Prop := - 2 ^ 63 ≤ z < 2 ^ 63.
Definition int64_wrap (z : Z) : Z := (z + 2 ^ 63) mod 2 ^ 64 - 2 ^ 63.
Definition int64_add (a b : Z) : Z := int64_wrap (a + b).

(** [error(...)] (util.h) logs its message and returns false. *)
Definition error (msg : string) : bool := false.

(** ** Key tags (txdb.cpp, lines 23-42) *)

Definition DB_SPROUT_ANCHOR : ascii := "A".
Definition DB_SAPLING_ANCHOR : ascii := "Z".
Definition DB_NULLIFIER : ascii := "s".
Definition DB_SAPLING_NULLIFIER : ascii := "S".
Definition DB_COINS : ascii := "c".
Definition DB_BLOCK_FILES : ascii := "f".
Definition DB_TXINDEX : ascii := "t".
Definition DB_ADDRESSINDEX : ascii := "d".
Definition DB_ADDRESSUNSPENTINDEX : ascii := "u".
Definition DB_TIMESTAMPINDEX : ascii := "S".
Definition DB_BLOCKHASHINDEX : ascii := "z".
Definition DB_SPENTINDEX : ascii := "p".
Definition DB_BLOCK_INDEX : ascii := "b".

Definition DB_BEST_BLOCK : ascii := "B".
Definition DB_BEST_SPROUT_ANCHOR : ascii := "a".
Definition DB_BEST_SAPLING_ANCHOR : ascii := "z".
Definition DB_FLAG : ascii := "F".
Definition DB_REINDEX_FLAG : ascii := "R".
Definition DB_LAST_BLOCK : ascii := "l".

(** The logical key types, one per tag constant of the source. *)
Inductive KeyType : Type :=
| K_SPROUT_ANCHOR | K_SAPLING_ANCHOR | K_NULLIFIER | K_SAPLING_NULLIFIER
| K_COINS | K_BLOCK_FILES | K_TXINDEX | K_ADDRESSINDEX
| K_ADDRESSUNSPENTINDEX | K_TIMESTAMPINDEX | K_BLOCKHASHINDEX
| K_SPENTINDEX | K_BLOCK_INDEX
| K_BEST_BLOCK | K_BEST_SPROUT_ANCHOR | K_BEST_SAPLING_ANCHOR
| K_FLAG | K_REINDEX_FLAG | K_LAST_BLOCK.

#[global] Instance KeyType_eq_dec : EqDecision KeyType.
Proof. solve_decision. Defined.

Definition tag (k : KeyType) : ascii :=
  match k with
  | K_SPROUT_ANCHOR => DB_SPROUT_ANCHOR
  | K_SAPLING_ANCHOR => DB_SAPLING_ANCHOR
  | K_NULLIFIER => DB_NULLIFIER
  | K_SAPLING_NULLIFIER => DB_SAPLING_NULLIFIER
  | K_COINS => DB_COINS
  | K_BLOCK_FILES => DB_BLOCK_FILES
  | K_TXINDEX => DB_TXINDEX
  | K_ADDRESSINDEX => DB_ADDRESSINDEX
  | K_ADDRESSUNSPENTINDEX => DB_ADDRESSUNSPENTINDEX
  | K_TIMESTAMPINDEX => DB_TIMESTAMPINDEX
  | K_BLOCKHASHINDEX => DB_BLOCKHASHINDEX
  | K_SPENTINDEX => DB_SPENTINDEX
  | K_BLOCK_INDEX => DB_BLOCK_INDEX
  | K_BEST_BLOCK => DB_BEST_BLOCK
  | K_BEST_SPROUT_ANCHOR => DB_BEST_SPROUT_ANCHOR
  | K_BEST_SAPLING_ANCHOR => DB_BEST_SAPLING_ANCHOR
  | K_FLAG => DB_FLAG
  | K_REINDEX_FLAG => DB_REINDEX_FLAG
  | K_LAST_BLOCK => DB_LAST_BLOCK
  end.

(** The source keeps two separate key-value stores: [CCoinsViewDB] owns the
    wrapper opened on "chainstate" (line 48), [CBlockTreeDB] is the wrapper
    opened on "blocks/index" (line 202). *)
Inductive Store : Type := Chainstate | BlockTree.

#[global] Instance Store_eq_dec : EqDecision Store.
Proof. solve_decision. Defined.

(** Which store's methods use each tag. *)
Definition store_of (k : KeyType) : Store :=
  match k with
  | K_SPROUT_ANCHOR | K_SAPLING_ANCHOR | K_NULLIFIER | K_SAPLING_NULLIFIER
  | K_COINS | K_BEST_BLOCK | K_BEST_SPROUT_ANCHOR | K_BEST_SAPLING_ANCHOR =>
      Chainstate
  | _ => BlockTree
  end.

(** A key is written as [make_pair(tag, payload)] (or as the bare tag for
    the scalar slots, the payload then being empty): the tag byte followed
    by the serialized payload.  [encode] is this layout of the bytes;
    which payloads the source gives to each key type is recorded by
    [LogicalKey] below. *)
Definition encode (k : KeyType) (payload : bytes) : bytes := tag k :: payload.

(** The two pairs of key types that carry the same tag byte. *)
Definition shared_tag (k1 k2 : KeyType) : Prop :=
  (k1 = K_SAPLING_NULLIFIER ∧ k2 = K_TIMESTAMPINDEX) ∨
  (k1 = K_TIMESTAMPINDEX ∧ k2 = K_SAPLING_NULLIFIER) ∨
  (k1 = K_BLOCKHASHINDEX ∧ k2 = K_BEST_SAPLING_ANCHOR) ∨
  (k1 = K_BEST_SAPLING_ANCHOR ∧ k2 = K_BLOCKHASHINDEX).

(** ** Serialization

    The interface of serialize.h, which is outside txdb.cpp: every stored
    type knows how to write itself to a stream and how to read itself from
    the front of one.  [Unserialize] returns the value and the rest of the
    stream; [None] stands for the exception the stream throws on malformed
    input. *)
Class Serializable (T : Type) : Type := {
  Serialize : T → bytes;
  Unserialize : bytes → option (T * bytes)
}.
Arguments Serialize {T _} _.
Arguments Unserialize T {_} _.

(** Modelled from the spec: a [char] is the one-byte type tag a key begins
    with. *)
#[global] Instance char_Serializable : Serializable ascii := {|
  Serialize := λ c : ascii, [c];
  Unserialize s := match s with [] => None | c :: rest => Some (c, rest) end
|}.

(** Modelled from the spec: a [bool] is one byte (the "spent" marker of a
    nullifier), non-zero for true. *)
#[global] Instance bool_Serializable : Serializable bool := {|
  Serialize := λ b : bool, [if b then "001"%char else zero_byte];
  Unserialize s :=
    match s with
    | [] => None
    | c :: rest => Some (negb (bool_decide (c = zero_byte)), rest)
    end
|}.

(** Modelled from the spec: a hash is written as its 32 bytes and read back
    as the next 32 bytes. *)
#[global] Instance uint256_Serializable : Serializable uint256 := {|
  Serialize := λ h : uint256, blob256 h;
  Unserialize s :=
    if decide (32 ≤ length s)%nat
    then Some (mk_uint256 (take 32 s), drop 32 s) else None
|}.

(** Modelled from the spec: a [std::pair] is its first component followed
    by its second (the tag, then the payload). *)
#[global] Instance pair_Serializable {A B : Type}
  `{!Serializable A, !Serializable B} : Serializable (A * B) := {|
  Serialize := λ p : A * B, Serialize p.1 ++ Serialize p.2;
  Unserialize s :=
    match Unserialize A s with
    | Some (a, s1) =>
        match Unserialize B s1 with
        | Some (b, s2) => Some ((a, b), s2)
        | None => None
        end
    | None => None
    end
|}.

(** ** The key-value engine (CDBWrapper, CDBBatch, CDBIterator)

    The wrapper of the engine (dbwrapper.h) is outside txdb.cpp.  It is
    modelled from the spec: an ordered byte-keyed store with point reads,
    existence tests, atomic batches of puts and deletes, and an iterator
    with seek / next / valid / key / value.  Point operations act on a
    finite map; an iterator walks the entries in the byte-wise order of
    their keys. *)
Abbreviation CDBWrapper := (gmap bytes bytes).

Inductive BatchOp : Type :=
| OpWrite (key value : bytes)
| OpErase (key : bytes).

Abbreviation CDBBatch := (list BatchOp).

Definition batch_Write {K V : Type} `{!Serializable K, !Serializable V}
    (batch : CDBBatch) (key : K) (value : V) : CDBBatch :=
  batch ++ [OpWrite (Serialize key) (Serialize value)].

Definition batch_Erase {K : Type} `{!Serializable K}
    (batch : CDBBatch) (key : K) : CDBBatch :=
  batch ++ [OpErase (Serialize key)].

Definition apply_op (db : CDBWrapper) (op : BatchOp) : CDBWrapper :=
  match op with
  | OpWrite k v => <[k := v]> db
  | OpErase k => delete k db
  end.

(** Modelled from the spec: [WriteBatch], the atomic commit: the engine
    applies the whole batch or nothing.  Whether the engine accepts the
    commit is an input, [engine_ok]. *)
Definition WriteBatch (engine_ok : bool) (db : CDBWrapper) (batch : CDBBatch)
    : bool * CDBWrapper :=
  if engine_ok then (true, foldl apply_op db batch) else (false, db).

(** Modelled from the spec: [Read], the point read: the value stored under
    the key, if present and well-formed. *)
Definition db_Read {K : Type} (V : Type) `{!Serializable K, !Serializable V}
    (db : CDBWrapper) (key : K) : option V :=
  match db !! Serialize key with
  | Some raw => fst <$> Unserialize V raw
  | None => None
  end.

(** Modelled from the spec: [Exists], the presence test. *)
Definition db_Exists {K : Type} `{!Serializable K}
    (db : CDBWrapper) (key : K) : bool :=
  bool_decide (is_Some (db !! Serialize key)).

(** Modelled from the spec: [Write] / [Erase], a batch of one operation,
    committed at once. *)
Definition db_Write {K V : Type} `{!Serializable K, !Serializable V}
    (engine_ok : bool) (db : CDBWrapper) (key : K) (value : V)
    : bool * CDBWrapper :=
  WriteBatch engine_ok db (batch_Write [] key value).

Definition db_Erase {K : Type} `{!Serializable K}
    (engine_ok : bool) (db : CDBWrapper) (key : K) : bool * CDBWrapper :=
  WriteBatch engine_ok db (batch_Erase [] key).

(** Byte-wise (unsigned, lexicographic) comparison of keys. *)
Fixpoint bytes_compare (a b : bytes) : comparison :=
  match a, b with
  | [], [] => Eq
  | [], _ :: _ => Lt
  | _ :: _, [] => Gt
  | x :: a', y :: b' =>
      match N.compare (N_of_ascii x) (N_of_ascii y) with
      | Eq => bytes_compare a' b'
      | c => c
      end
  end.

Definition entry_le (e1 e2 : bytes * bytes) : Prop :=
  bytes_compare e1.1 e2.1 ≠ Gt.

#[global] Instance entry_le_dec : RelDecision entry_le.
Proof. intros x y. unfold entry_le. apply _. Defined.

(** Modelled from the spec: an iterator is the list of entries still ahead
    of it, in key order; it is valid while that list is not empty, and
    [Next] drops the first entry. *)
Abbreviation CDBIterator := (list (bytes * bytes)).

Definition NewIterator (db : CDBWrapper) : CDBIterator :=
  merge_sort entry_le (map_to_list db).

(** Modelled from the spec: [Seek] positions the iterator at the first key
    not below the target. *)
Fixpoint Seek (target : bytes) (it : CDBIterator) : CDBIterator :=
  match it with
  | [] => []
  | e :: rest =>
      match bytes_compare e.1 target with
      | Lt => Seek target rest
      | _ => it
      end
  end.

(** Modelled from the spec: [GetKey] / [GetValue] into a typed variable
    decode the current key / value, and fail when the bytes do not decode.
    Into a byte vector they hand out the raw bytes ([e.1], [e.2]). *)
Definition GetKey (K : Type) `{!Serializable K} (e : bytes * bytes)
    : option K :=
  fst <$> Unserialize K e.1.

Definition GetValue (V : Type) `{!Serializable V} (e : bytes * bytes)
    : option V :=
  fst <$> Unserialize V e.2.

(** [flags & MASK], read as a condition. *)
Definition flag_set (flags mask : Z) : bool := negb (Z.land flags mask =? 0).

(** ** The coin-set store (CCoinsViewDB) *)

(** What the flush and the anchor lookups use of a commitment-tree class:
    the static [empty_root()], the default-constructed tree and its
    serializer. *)
Class MerkleTree (Tree : Type) : Type := {
  empty_root : uint256;
  new_tree : Tree;
  tree_Serializable :: Serializable Tree
}.
Arguments empty_root Tree {_}.
Arguments new_tree Tree {_}.

Inductive ShieldedType : Type := SPROUT | SAPLING.

(** Modelled from the spec: a coin record (coins.h) is the set of outputs
    of a transaction, each with a value; txdb.cpp reads [vout] and
    [nValue] only. *)
Record CTxOut : Type := mk_CTxOut { nValue : CAmount; scriptPubKey : bytes }.
Record CCoins : Type := mk_CCoins {
  fCoinBase : bool; vout : list CTxOut; nHeight : Z; nVersion : Z }.

(** The methods of [CTxOut] and [CCoins] that txdb.cpp calls. *)
Class CoinsMethods : Type := {
  CTxOut_IsNull : CTxOut → bool;
  CCoins_IsPruned : CCoins → bool;
  CTxOut_Serializable :: Serializable CTxOut;
  CCoins_Serializable :: Serializable CCoins
}.

(** Modelled from the spec: a cache entry (coins.h) carries the current
    value, a [DIRTY] flag among its [flags] and an [entered] flag. *)
Module CNullifiersCacheEntry.
Record t : Type := mk { entered : bool; flags : Z }.
Definition DIRTY : Z := Z.shiftl 1 0.
End CNullifiersCacheEntry.

(** Modelled from the spec: [CAnchorsSproutCacheEntry] and
    [CAnchorsSaplingCacheEntry] are cache entries that differ only in the
    tree type. *)
Module CAnchorsCacheEntry.
Record t (Tree : Type) : Type := mk { entered : bool; tree : Tree; flags : Z }.
Arguments mk {Tree} _ _ _.
Arguments entered {Tree} _.
Arguments tree {Tree} _.
Arguments flags {Tree} _.
Definition DIRTY : Z := Z.shiftl 1 0.
End CAnchorsCacheEntry.

(** Modelled from the spec: a coin cache entry carries the coins and the
    flags; whether the record is to be removed is read off the coins
    ([IsPruned]). *)
Module CCoinsCacheEntry.
Record t : Type := mk { coins : CCoins; flags : Z }.
Definition DIRTY : Z := Z.shiftl 1 0.
Definition FRESH : Z := Z.shiftl 1 1.
End CCoinsCacheEntry.

Abbreviation CNullifiersMap := (gmap uint256 CNullifiersCacheEntry.t).
Abbreviation CCoinsMap := (gmap uint256 CCoinsCacheEntry.t).

(** [BatchWriteNullifiers] (lines 127-140).  The loop visits the entries in
    the map's iteration order; [its] is what is still ahead of the
    iterator.  Each visited entry is erased from the map. *)
Fixpoint BatchWriteNullifiers_loop (dbChar : ascii)
    (its : list (uint256 * CNullifiersCacheEntry.t))
    (batch : CDBBatch) (mapToUse : CNullifiersMap)
    : CDBBatch * CNullifiersMap :=
  match its with
  | [] => (batch, mapToUse)
  | (first, second) :: rest =>
      let batch1 :=
        if flag_set (CNullifiersCacheEntry.flags second)
                    CNullifiersCacheEntry.DIRTY
        then
          if negb (CNullifiersCacheEntry.entered second)
          then batch_Erase batch (dbChar, first)
          else batch_Write batch (dbChar, first) true
        else batch in
      BatchWriteNullifiers_loop dbChar rest batch1 (delete first mapToUse)
  end.

Definition BatchWriteNullifiers (batch : CDBBatch) (mapToUse : CNullifiersMap)
    (dbChar : ascii) : CDBBatch * CNullifiersMap :=
  BatchWriteNullifiers_loop dbChar (map_to_list mapToUse) batch mapToUse.

(** [BatchWriteAnchors] (lines 142-159), generic in the tree type. *)
Fixpoint BatchWriteAnchors_loop {Tree : Type} `{!MerkleTree Tree}
    (dbChar : ascii) (its : list (uint256 * CAnchorsCacheEntry.t Tree))
    (batch : CDBBatch) (mapToUse : gmap uint256 (CAnchorsCacheEntry.t Tree))
    : CDBBatch * gmap uint256 (CAnchorsCacheEntry.t Tree) :=
  match its with
  | [] => (batch, mapToUse)
  | (first, second) :: rest =>
      let batch1 :=
        if flag_set (CAnchorsCacheEntry.flags second) CAnchorsCacheEntry.DIRTY
        then
          if negb (CAnchorsCacheEntry.entered second)
          then batch_Erase batch (dbChar, first)
          else
            if negb (bool_decide (first = empty_root Tree))
            then batch_Write batch (dbChar, first)
                             (CAnchorsCacheEntry.tree second)
            else batch
        else batch in
      BatchWriteAnchors_loop dbChar rest batch1 (delete first mapToUse)
  end.

Definition BatchWriteAnchors {Tree : Type} `{!MerkleTree Tree}
    (batch : CDBBatch) (mapToUse : gmap uint256 (CAnchorsCacheEntry.t Tree))
    (dbChar : ascii) : CDBBatch * gmap uint256 (CAnchorsCacheEntry.t Tree) :=
  BatchWriteAnchors_loop dbChar (map_to_list mapToUse) batch mapToUse.

(** The state of the coin loop of [BatchWrite] (lines 170-183). *)
Record CoinsLoop : Type := mk_CoinsLoop {
  cl_batch : CDBBatch; cl_map : CCoinsMap; cl_count : Z; cl_changed : Z }.

Definition size_t_incr (n : Z) : Z := (n + 1) mod 2 ^ 64.

Fixpoint BatchWrite_coins_loop `{!CoinsMethods}
    (its : list (uint256 * CCoinsCacheEntry.t)) (st : CoinsLoop) : CoinsLoop :=
  match its with
  | [] => st
  | (first, second) :: rest =>
      let dirty :=
        flag_set (CCoinsCacheEntry.flags second) CCoinsCacheEntry.DIRTY in
      let batch1 :=
        if dirty then
          if CCoins_IsPruned (CCoinsCacheEntry.coins second)
          then batch_Erase (cl_batch st) (DB_COINS, first)
          else batch_Write (cl_batch st) (DB_COINS, first)
                           (CCoinsCacheEntry.coins second)
        else cl_batch st in
      BatchWrite_coins_loop rest
        {| cl_batch := batch1;
           cl_map := delete first (cl_map st);
           cl_count := size_t_incr (cl_count st);
           cl_changed := if dirty then size_t_incr (cl_changed st)
                         else cl_changed st |}
  end.

(** Everything a call of [BatchWrite] leaves behind: the return value, the
    store, the batch that was handed to the engine and the five maps the
    caller passed by reference. *)
Record Flushed (SproutTree SaplingTree : Type) : Type := mk_Flushed {
  fl_ret : bool;
  fl_db : CDBWrapper;
  fl_batch : CDBBatch;
  fl_mapCoins : CCoinsMap;
  fl_mapSproutAnchors : gmap uint256 (CAnchorsCacheEntry.t SproutTree);
  fl_mapSaplingAnchors : gmap uint256 (CAnchorsCacheEntry.t SaplingTree);
  fl_mapSproutNullifiers : CNullifiersMap;
  fl_mapSaplingNullifiers : CNullifiersMap
}.
Arguments mk_Flushed {SproutTree SaplingTree} _ _ _ _ _ _ _ _.
Arguments fl_ret {SproutTree SaplingTree} _.
Arguments fl_db {SproutTree SaplingTree} _.
Arguments fl_batch {SproutTree SaplingTree} _.
Arguments fl_mapCoins {SproutTree SaplingTree} _.
Arguments fl_mapSproutAnchors {SproutTree SaplingTree} _.
Arguments fl_mapSaplingAnchors {SproutTree SaplingTree} _.
Arguments fl_mapSproutNullifiers {SproutTree SaplingTree} _.
Arguments fl_mapSaplingNullifiers {SproutTree SaplingTree} _.

(** The result of a lookup together with the keys it read from the engine. *)
Definition Logged (A : Type) : Type := A * list bytes.

Section CoinsViewDB.
Context {SproutMerkleTree SaplingMerkleTree : Type}.
Context {sprout_tree : MerkleTree SproutMerkleTree}.
Context {sapling_tree : MerkleTree SaplingMerkleTree}.
Context {coins_methods : CoinsMethods}.

(** [GetSproutAnchorAt] (lines 53-63); [tree] is the caller's variable,
    left as it is when the read fails. *)
Definition GetSproutAnchorAt (db : CDBWrapper) (rt : uint256)
    (tree : SproutMerkleTree) : Logged (bool * SproutMerkleTree) :=
  if bool_decide (rt = empty_root SproutMerkleTree) then
    let new_tree := new_tree SproutMerkleTree in
    ((true, new_tree), [])
  else
    let key := (DB_SPROUT_ANCHOR, rt) in
    match db_Read SproutMerkleTree db key with
    | Some t => ((true, t), [Serialize key])
    | None => ((false, tree), [Serialize key])
    end.

(** [GetSaplingAnchorAt] (lines 65-75). *)
Definition GetSaplingAnchorAt (db : CDBWrapper) (rt : uint256)
    (tree : SaplingMerkleTree) : Logged (bool * SaplingMerkleTree) :=
  if bool_decide (rt = empty_root SaplingMerkleTree) then
    let new_tree := new_tree SaplingMerkleTree in
    ((true, new_tree), [])
  else
    let key := (DB_SAPLING_ANCHOR, rt) in
    match db_Read SaplingMerkleTree db key with
    | Some t => ((true, t), [Serialize key])
    | None => ((false, tree), [Serialize key])
    end.

(** [GetNullifier] (lines 77-91). *)
Definition GetNullifier (db : CDBWrapper) (nf : uint256) (type : ShieldedType)
    : bool :=
  let dbChar :=
    match type with
    | SPROUT => DB_NULLIFIER
    | SAPLING => DB_SAPLING_NULLIFIER
    end in
  bool_decide (is_Some (db_Read bool db (dbChar, nf))).

(** [GetCoins], [HaveCoins] (lines 93-99). *)
Definition GetCoins (db : CDBWrapper) (txid : uint256) : option CCoins :=
  db_Read CCoins db (DB_COINS, txid).

Definition HaveCoins (db : CDBWrapper) (txid : uint256) : bool :=
  db_Exists db (DB_COINS, txid).

(** [GetBestBlock] (lines 101-106). *)
Definition GetBestBlock (db : CDBWrapper) : uint256 :=
  match db_Read uint256 db DB_BEST_BLOCK with
  | None => uint256_zero
  | Some hashBestChain => hashBestChain
  end.

(** [GetBestAnchor] (lines 108-125). *)
Definition GetBestAnchor (db : CDBWrapper) (type : ShieldedType) : uint256 :=
  match type with
  | SPROUT =>
      match db_Read uint256 db DB_BEST_SPROUT_ANCHOR with
      | None => empty_root SproutMerkleTree
      | Some hashBestAnchor => hashBestAnchor
      end
  | SAPLING =>
      match db_Read uint256 db DB_BEST_SAPLING_ANCHOR with
      | None => empty_root SaplingMerkleTree
      | Some hashBestAnchor => hashBestAnchor
      end
  end.

(** The batch [BatchWrite] has assembled when it reaches line 198, and the
    maps as the loops leave them. *)
Definition BatchWrite_coins (mapCoins : CCoinsMap) : CoinsLoop :=
  BatchWrite_coins_loop (map_to_list mapCoins)
    {| cl_batch := []; cl_map := mapCoins; cl_count := 0; cl_changed := 0 |}.

Definition BatchWrite_best (batch : CDBBatch)
    (hashBlock hashSproutAnchor hashSaplingAnchor : uint256) : CDBBatch :=
  let batch :=
    if negb (IsNull hashBlock)
    then batch_Write batch DB_BEST_BLOCK hashBlock else batch in
  let batch :=
    if negb (IsNull hashSproutAnchor)
    then batch_Write batch DB_BEST_SPROUT_ANCHOR hashSproutAnchor else batch in
  if negb (IsNull hashSaplingAnchor)
  then batch_Write batch DB_BEST_SAPLING_ANCHOR hashSaplingAnchor else batch.

(** [CCoinsViewDB::BatchWrite] (lines 161-200). *)
Definition BatchWrite (engine_ok : bool) (db : CDBWrapper)
    (mapCoins : CCoinsMap)
    (hashBlock hashSproutAnchor hashSaplingAnchor : uint256)
    (mapSproutAnchors : gmap uint256 (CAnchorsCacheEntry.t SproutMerkleTree))
    (mapSaplingAnchors : gmap uint256 (CAnchorsCacheEntry.t SaplingMerkleTree))
    (mapSproutNullifiers mapSaplingNullifiers : CNullifiersMap)
    : Flushed SproutMerkleTree SaplingMerkleTree :=
  let c := BatchWrite_coins mapCoins in
  let a1 := BatchWriteAnchors (cl_batch c) mapSproutAnchors DB_SPROUT_ANCHOR in
  let a2 := BatchWriteAnchors a1.1 mapSaplingAnchors DB_SAPLING_ANCHOR in
  let n1 := BatchWriteNullifiers a2.1 mapSproutNullifiers DB_NULLIFIER in
  let n2 :=
    BatchWriteNullifiers n1.1 mapSaplingNullifiers DB_SAPLING_NULLIFIER in
  let batch :=
    BatchWrite_best n2.1 hashBlock hashSproutAnchor hashSaplingAnchor in
  let w := WriteBatch engine_ok db batch in
  {| fl_ret := w.1; fl_db := w.2; fl_batch := batch;
     fl_mapCoins := cl_map c;
     fl_mapSproutAnchors := a1.2; fl_mapSaplingAnchors := a2.2;
     fl_mapSproutNullifiers := n1.2; fl_mapSaplingNullifiers := n2.2 |}.

End CoinsViewDB.

(** ** The block-tree store (CBlockTreeDB) *)

(** [WriteReindexing], [ReadReindexing] (lines 209-219).  [ReadReindexing]
    returns its result and the value left in [fReindexing]. *)
Definition WriteReindexing (engine_ok : bool) (db : CDBWrapper)
    (fReindexing : bool) : bool * CDBWrapper :=
  if fReindexing
  then db_Write engine_ok db DB_REINDEX_FLAG "1"%char
  else db_Erase engine_ok db DB_REINDEX_FLAG.

Definition ReadReindexing (db : CDBWrapper) : bool * bool :=
  let fReindexing := db_Exists db DB_REINDEX_FLAG in
  (true, fReindexing).

(** *** Index keys and values

    The structs are declared outside txdb.cpp; the records carry the fields
    the specification lists for each index entry. *)

(** Modelled from the spec: address index entry, keyed by (type, address
    hash, block height, tx id, output index). *)
Module CAddressIndexKey.
Record t : Type := mk {
  type : Z; hashBytes : uint160; blockHeight : Z; txhash : uint256; index : Z }.
End CAddressIndexKey.

(** Modelled from the spec: address-unspent index entry, keyed by (type,
    address hash, tx id, output index). *)
Module CAddressUnspentKey.
Record t : Type := mk {
  type : Z; hashBytes : uint160; txhash : uint256; index : Z }.
End CAddressUnspentKey.

(** Modelled from the spec: the value of an address-unspent entry is
    (amount, height). *)
Module CAddressUnspentValue.
Record t : Type := mk { satoshis : CAmount; blockHeight : Z }.
End CAddressUnspentValue.

(** Modelled from the spec: timestamp index entry, keyed by (timestamp,
    block hash). *)
Module CTimestampIndexKey.
Record t : Type := mk { timestamp : Z; blockHash : uint256 }.
End CTimestampIndexKey.

(** The partial keys the scans seek to. *)
Module CAddressIndexIteratorKey.
Record t : Type := mk { type : Z; hashBytes : uint160 }.
End CAddressIndexIteratorKey.

Module CAddressIndexIteratorHeightKey.
Record t : Type := mk { type : Z; hashBytes : uint160; blockHeight : Z }.
End CAddressIndexIteratorHeightKey.

Module CTimestampIndexIteratorKey.
Record t : Type := mk { timestamp : Z }.
End CTimestampIndexIteratorKey.

(** The serializers of the index structs and of [CAmount]. *)
Class IndexCodec : Type := {
  CAddressIndexKey_Serializable :: Serializable CAddressIndexKey.t;
  CAddressUnspentKey_Serializable :: Serializable CAddressUnspentKey.t;
  CAddressUnspentValue_Serializable :: Serializable CAddressUnspentValue.t;
  CTimestampIndexKey_Serializable :: Serializable CTimestampIndexKey.t;
  CAddressIndexIteratorKey_Serializable ::
    Serializable CAddressIndexIteratorKey.t;
  CAddressIndexIteratorHeightKey_Serializable ::
    Serializable CAddressIndexIteratorHeightKey.t;
  CTimestampIndexIteratorKey_Serializable ::
    Serializable CTimestampIndexIteratorKey.t;
  CAmount_Serializable : Serializable CAmount
}.

(** How one turn of a scan loop ends. *)
Inductive Turn (A : Type) : Type :=
| Push (x : A)      (* the entry is appended, the cursor advances *)
| Skip              (* nothing is appended, the cursor advances *)
| Break             (* the loop is left *)
| Return (b : bool). (* the function returns b at once *)
Arguments Push {A} _.
Arguments Skip {A}.
Arguments Break {A}.
Arguments Return {A} _.

(** The common loop: [while (pcursor->Valid()) { ... }; return true]. *)
Fixpoint scan_loop {A : Type} (body : bytes * bytes → Turn A)
    (pcursor : CDBIterator) (out : list A) : bool * list A :=
  match pcursor with
  | [] => (true, out)
  | e :: rest =>
      match body e with
      | Push x => scan_loop body rest (out ++ [x])
      | Skip => scan_loop body rest out
      | Break => (true, out)
      | Return b => (b, out)
      end
  end.

Section BlockTreeScans.
Context {index_codec : IndexCodec}.

(** The loop body of [ReadAddressUnspentIndex] (lines 340-366). *)
Definition ReadAddressUnspentIndex_body (addressHash : uint160)
    (e : bytes * bytes)
    : Turn (CAddressUnspentKey.t * CAddressUnspentValue.t) :=
  let slKey := e.1 in
  match Unserialize ascii slKey with
  | None => Break
  | Some (chType, ssKey) =>
      match Unserialize CAddressUnspentKey.t ssKey with
      | None => Break
      | Some (indexKey, _) =>
          if bool_decide (chType = DB_ADDRESSUNSPENTINDEX) &&
             bool_decide (CAddressUnspentKey.hashBytes indexKey = addressHash)
          then
            let slValue := e.2 in
            match Unserialize CAddressUnspentValue.t slValue with
            | Some (nValue, _) => Push (indexKey, nValue)
            | None =>
                Return (error "failed to get address unspent value")
            end
          else Break
      end
  end.

(** [ReadAddressUnspentIndex] (lines 330-370): the return value and the
    caller's vector after the call. *)
Definition ReadAddressUnspentIndex_seek (type : Z) (addressHash : uint160)
    : bytes :=
  Serialize (DB_ADDRESSUNSPENTINDEX,
             CAddressIndexIteratorKey.mk type addressHash).

Definition ReadAddressUnspentIndex (db : CDBWrapper) (addressHash : uint160)
    (type : Z)
    (unspentOutputs : list (CAddressUnspentKey.t * CAddressUnspentValue.t))
    : bool * list (CAddressUnspentKey.t * CAddressUnspentValue.t) :=
  let ssKeySet := ReadAddressUnspentIndex_seek type addressHash in
  let pcursor := Seek ssKeySet (NewIterator db) in
  scan_loop (ReadAddressUnspentIndex_body addressHash) pcursor unspentOutputs.

(** The loop body of [ReadAddressIndex] (lines 401-431). *)
Definition ReadAddressIndex_body (addressHash : uint160) (end_ : Z)
    (e : bytes * bytes) : Turn (CAddressIndexKey.t * CAmount) :=
  let slKey := e.1 in
  match Unserialize ascii slKey with
  | None => Break
  | Some (chType, ssKey) =>
      match Unserialize CAddressIndexKey.t ssKey with
      | None => Break
      | Some (indexKey, _) =>
          if bool_decide (chType = DB_ADDRESSINDEX) &&
             bool_decide (CAddressIndexKey.hashBytes indexKey = addressHash)
          then
            if (0 <? end_) && (end_ <? CAddressIndexKey.blockHeight indexKey)
            then Break
            else
              let slValue := e.2 in
              match @Unserialize CAmount CAmount_Serializable slValue with
              | Some (nValue, _) => Push (indexKey, nValue)
              | None =>
                  Return (error "failed to get address index value")
              end
          else Break
      end
  end.

(** [ReadAddressIndex] (lines 386-435). *)
Definition ReadAddressIndex_seek (type : Z) (addressHash : uint160)
    (start end_ : Z) : bytes :=
  if (0 <? start) && (0 <? end_)
  then Serialize (DB_ADDRESSINDEX,
                  CAddressIndexIteratorHeightKey.mk type addressHash start)
  else Serialize (DB_ADDRESSINDEX,
                  CAddressIndexIteratorKey.mk type addressHash).

Definition ReadAddressIndex (db : CDBWrapper) (addressHash : uint160)
    (type : Z) (addressIndex : list (CAddressIndexKey.t * CAmount))
    (start end_ : Z) : bool * list (CAddressIndexKey.t * CAmount) :=
  let ssKeySet := ReadAddressIndex_seek type addressHash start end_ in
  let pcursor := Seek ssKeySet (NewIterator db) in
  scan_loop (ReadAddressIndex_body addressHash end_) pcursor addressIndex.

(** The loop body of [ReadTimestampIndex] (lines 592-616);
    [blockOnchainActive] consults the chain state kept outside the store. *)
Definition ReadTimestampIndex_body (blockOnchainActive : uint256 → bool)
    (high : Z) (fActiveOnly : bool) (e : bytes * bytes) : Turn (uint256 * Z) :=
  let slKey := e.1 in
  match Unserialize ascii slKey with
  | None => Break
  | Some (chType, ssKey) =>
      match Unserialize CTimestampIndexKey.t ssKey with
      | None => Break
      | Some (indexKey, _) =>
          if bool_decide (chType = DB_TIMESTAMPINDEX) &&
             (CTimestampIndexKey.timestamp indexKey <? high)
          then
            if fActiveOnly then
              if blockOnchainActive (CTimestampIndexKey.blockHash indexKey)
              then Push (CTimestampIndexKey.blockHash indexKey,
                         CTimestampIndexKey.timestamp indexKey)
              else Skip
            else Push (CTimestampIndexKey.blockHash indexKey,
                       CTimestampIndexKey.timestamp indexKey)
          else Break
      end
  end.

(** [ReadTimestampIndex] (lines 583-620). *)
Definition ReadTimestampIndex_seek (low : Z) : bytes :=
  Serialize (DB_TIMESTAMPINDEX, CTimestampIndexIteratorKey.mk low).

Definition ReadTimestampIndex (blockOnchainActive : uint256 → bool)
    (db : CDBWrapper) (high low : Z) (fActiveOnly : bool)
    (hashes : list (uint256 * Z)) : bool * list (uint256 * Z) :=
  let ssKeySet := ReadTimestampIndex_seek low in
  let pcursor := Seek ssKeySet (NewIterator db) in
  scan_loop (ReadTimestampIndex_body blockOnchainActive high fActiveOnly)
            pcursor hashes.

End BlockTreeScans.

(** ** The aggregate statistics scan (CCoinsViewDB::GetStats) *)

Module CCoinsStats.
Record t : Type := mk {
  nHeight : Z;
  hashBlock : uint256;
  nTransactions : Z;
  nTransactionOutputs : Z;
  nSerializedSize : Z;
  hashSerialized : uint256;
  nTotalAmount : CAmount
}.
End CCoinsStats.

(** What [GetStats] takes from outside txdb.cpp: the bytes [VARINT(n)]
    writes, the hash [CHashWriter::GetHash] computes of the bytes written
    to it, and the height of the node [mapBlockIndex] holds for a block
    hash, [None] when [mapBlockIndex.find] finds no node for it. *)
Class StatsEnv : Type := {
  WriteVarInt : Z → bytes;
  HashWriter_GetHash : bytes → uint256;
  mapBlockIndex_nHeight : uint256 → option Z
}.

Definition uint32_incr (n : Z) : Z := (n + 1) mod 2 ^ 32.
Definition uint64_add (a b : Z) : Z := (a + b) mod 2 ^ 64.

(** The local state of [GetStats]: the hash writer [ss] (the bytes written
    to it so far), the caller's [stats] and [nTotalAmount]. *)
Record StatsLoop : Type := mk_StatsLoop {
  sl_ss : bytes; sl_stats : CCoinsStats.t; sl_nTotalAmount : CAmount }.

Definition count_output (stats : CCoinsStats.t) : CCoinsStats.t :=
  {| CCoinsStats.nHeight := CCoinsStats.nHeight stats;
     CCoinsStats.hashBlock := CCoinsStats.hashBlock stats;
     CCoinsStats.nTransactions := CCoinsStats.nTransactions stats;
     CCoinsStats.nTransactionOutputs :=
       uint64_add (CCoinsStats.nTransactionOutputs stats) 1;
     CCoinsStats.nSerializedSize := CCoinsStats.nSerializedSize stats;
     CCoinsStats.hashSerialized := CCoinsStats.hashSerialized stats;
     CCoinsStats.nTotalAmount := CCoinsStats.nTotalAmount stats |}.

Definition count_transaction (stats : CCoinsStats.t) : CCoinsStats.t :=
  {| CCoinsStats.nHeight := CCoinsStats.nHeight stats;
     CCoinsStats.hashBlock := CCoinsStats.hashBlock stats;
     CCoinsStats.nTransactions :=
       uint64_add (CCoinsStats.nTransactions stats) 1;
     CCoinsStats.nTransactionOutputs := CCoinsStats.nTransactionOutputs stats;
     CCoinsStats.nSerializedSize := CCoinsStats.nSerializedSize stats;
     CCoinsStats.hashSerialized := CCoinsStats.hashSerialized stats;
     CCoinsStats.nTotalAmount := CCoinsStats.nTotalAmount stats |}.

Definition add_size (stats : CCoinsStats.t) (n : Z) : CCoinsStats.t :=
  {| CCoinsStats.nHeight := CCoinsStats.nHeight stats;
     CCoinsStats.hashBlock := CCoinsStats.hashBlock stats;
     CCoinsStats.nTransactions := CCoinsStats.nTransactions stats;
     CCoinsStats.nTransactionOutputs := CCoinsStats.nTransactionOutputs stats;
     CCoinsStats.nSerializedSize :=
       uint64_add (CCoinsStats.nSerializedSize stats) n;
     CCoinsStats.hashSerialized := CCoinsStats.hashSerialized stats;
     CCoinsStats.nTotalAmount := CCoinsStats.nTotalAmount stats |}.

Section GetStats.
Context {coins_methods : CoinsMethods} {stats_env : StatsEnv}.

(** The inner loop (lines 243-251); [i] is the [unsigned int] counter,
    [nTotalAmount] the [CAmount] the values are added to. *)
Fixpoint GetStats_outputs (vout : list CTxOut) (i : Z) (st : StatsLoop)
    : StatsLoop :=
  match vout with
  | [] => st
  | out :: rest =>
      let st1 :=
        if negb (CTxOut_IsNull out) then
          {| sl_ss := sl_ss st ++ WriteVarInt (uint32_incr i) ++ Serialize out;
             sl_stats := count_output (sl_stats st);
             sl_nTotalAmount :=
               int64_add (sl_nTotalAmount st) (nValue out) |}
        else st in
      GetStats_outputs rest (uint32_incr i) st1
  end.

(** One record (lines 242-253). *)
Definition GetStats_record (coins : CCoins) (valueSize : Z) (st : StatsLoop)
    : StatsLoop :=
  let st1 :=
    {| sl_ss := sl_ss st; sl_stats := count_transaction (sl_stats st);
       sl_nTotalAmount := sl_nTotalAmount st |} in
  let st2 := GetStats_outputs (vout coins) 0 st1 in
  {| sl_ss := sl_ss st2 ++ WriteVarInt 0;
     sl_stats := add_size (sl_stats st2) (32 + valueSize);
     sl_nTotalAmount := sl_nTotalAmount st2 |}.

(** The scan loop (lines 236-261).  [Some b]: the function returned [b]
    from inside the loop; [None]: the loop was left normally. *)
Fixpoint GetStats_loop (pcursor : CDBIterator) (st : StatsLoop)
    : option bool * StatsLoop :=
  match pcursor with
  | [] => (None, st)
  | e :: rest =>
      match GetKey (ascii * uint256) e with
      | Some key =>
          if bool_decide (key.1 = DB_COINS) then
            match GetValue CCoins e with
            | Some coins =>
                GetStats_loop rest
                  (GetStats_record coins (Z.of_nat (length e.2)) st)
            | None =>
                (Some (error "CCoinsViewDB::GetStats() : unable to read value"),
                 st)
            end
          else (None, st)
      | None => (None, st)
      end
  end.

(** [GetStats] (lines 225-269): the return value and the caller's [stats].
    Line 264 dereferences what [mapBlockIndex.find] returns without
    testing it: when the map holds no node for the best-block hash the
    call has no result, [None]. *)
Definition GetStats (db : CDBWrapper) (stats : CCoinsStats.t)
    : option (bool * CCoinsStats.t) :=
  let pcursor := Seek (Serialize DB_COINS) (NewIterator db) in
  let hashBlock := GetBestBlock db in
  let stats0 :=
    {| CCoinsStats.nHeight := CCoinsStats.nHeight stats;
       CCoinsStats.hashBlock := hashBlock;
       CCoinsStats.nTransactions := CCoinsStats.nTransactions stats;
       CCoinsStats.nTransactionOutputs := CCoinsStats.nTransactionOutputs stats;
       CCoinsStats.nSerializedSize := CCoinsStats.nSerializedSize stats;
       CCoinsStats.hashSerialized := CCoinsStats.hashSerialized stats;
       CCoinsStats.nTotalAmount := CCoinsStats.nTotalAmount stats |} in
  let st0 :=
    {| sl_ss := Serialize hashBlock; sl_stats := stats0;
       sl_nTotalAmount := 0 |} in
  match GetStats_loop pcursor st0 with
  | (Some b, st) => Some (b, sl_stats st)
  | (None, st) =>
      let s := sl_stats st in
      match mapBlockIndex_nHeight (CCoinsStats.hashBlock s) with
      | None => None
      | Some nHeight =>
          Some (true,
                {| CCoinsStats.nHeight := nHeight;
                   CCoinsStats.hashBlock := CCoinsStats.hashBlock s;
                   CCoinsStats.nTransactions := CCoinsStats.nTransactions s;
                   CCoinsStats.nTransactionOutputs :=
                     CCoinsStats.nTransactionOutputs s;
                   CCoinsStats.nSerializedSize :=
                     CCoinsStats.nSerializedSize s;
                   CCoinsStats.hashSerialized := HashWriter_GetHash (sl_ss st);
                   CCoinsStats.nTotalAmount := sl_nTotalAmount st |})
      end
  end.

End GetStats.

(** ** The block-index loader (CBlockTreeDB::LoadBlockIndexGuts) *)

(** The fields of a persisted block-index record that the loader copies
    (lines 677-693). *)
Module CDiskBlockIndex.
Record t : Type := mk {
  hashPrev : uint256;
  nHeight : Z; nFile : Z; nDataPos : Z; nUndoPos : Z;
  hashSproutAnchor : uint256;
  nVersion : Z;
  hashMerkleRoot : uint256;
  hashFinalSaplingRoot : uint256;
  nTime : Z; nBits : Z;
  nNonce : uint256;
  nSolution : bytes;
  nStatus : Z;
  nCachedBranchId : option Z;
  nTx : Z;
  nSproutValue : option CAmount
}.
End CDiskBlockIndex.

(** An in-memory node.  A pointer to a node is the hash under which the
    node sits in [mapBlockIndex] ([phashBlock] points at that key); the
    null pointer is [None]. *)
Module CBlockIndex.
Record t : Type := mk {
  pprev : option uint256;
  nHeight : Z; nFile : Z; nDataPos : Z; nUndoPos : Z;
  hashSproutAnchor : uint256;
  nVersion : Z;
  hashMerkleRoot : uint256;
  hashFinalSaplingRoot : uint256;
  nTime : Z; nBits : Z;
  nNonce : uint256;
  nSolution : bytes;
  nStatus : Z;
  nCachedBranchId : option Z;
  nTx : Z;
  nSproutValue : option CAmount
}.
(** [new CBlockIndex()]. *)
Definition new : t :=
  mk None 0 0 0 0 uint256_zero 0 uint256_zero uint256_zero 0 0 uint256_zero
     [] 0 None 0 None.
End CBlockIndex.

Module CBlockHeader.
Record t : Type := mk {
  nVersion : Z;
  hashPrevBlock : uint256;
  hashMerkleRoot : uint256;
  hashFinalSaplingRoot : uint256;
  nTime : Z; nBits : Z;
  nNonce : uint256;
  nSolution : bytes
}.
End CBlockHeader.

Abbreviation BlockMap := (gmap uint256 CBlockIndex.t).

(** What the loader takes from outside txdb.cpp: the record's serializer,
    [CDiskBlockIndex::GetBlockHash] and [CBlockHeader::GetHash]. *)
Class BlockIndexEnv : Type := {
  CDiskBlockIndex_Serializable :: Serializable CDiskBlockIndex.t;
  CDiskBlockIndex_GetBlockHash : CDiskBlockIndex.t → uint256;
  CBlockHeader_GetHash : CBlockHeader.t → uint256
}.

(** Modelled from the spec: [InsertBlockIndex] is defined outside txdb.cpp;
    it looks up or creates the in-memory node for a hash, and a null hash
    has no node (a previous-hash field resolves to another node or is
    null). *)
Definition InsertBlockIndex (hash : uint256) (mapBlockIndex : BlockMap)
    : option uint256 * BlockMap :=
  if IsNull hash then (None, mapBlockIndex)
  else
    match mapBlockIndex !! hash with
    | Some _ => (Some hash, mapBlockIndex)
    | None => (Some hash, <[hash := CBlockIndex.new]> mapBlockIndex)
    end.

(** Modelled from the spec: [CBlockIndex::GetBlockHeader] is defined outside
    txdb.cpp; the header is rebuilt from the fields of the node, the
    previous-block hash being the hash key of the predecessor node. *)
Definition GetBlockHeader (pindex : CBlockIndex.t) : CBlockHeader.t :=
  {| CBlockHeader.nVersion := CBlockIndex.nVersion pindex;
     CBlockHeader.hashPrevBlock :=
       match CBlockIndex.pprev pindex with
       | Some prev => prev
       | None => uint256_zero
       end;
     CBlockHeader.hashMerkleRoot := CBlockIndex.hashMerkleRoot pindex;
     CBlockHeader.hashFinalSaplingRoot :=
       CBlockIndex.hashFinalSaplingRoot pindex;
     CBlockHeader.nTime := CBlockIndex.nTime pindex;
     CBlockHeader.nBits := CBlockIndex.nBits pindex;
     CBlockHeader.nNonce := CBlockIndex.nNonce pindex;
     CBlockHeader.nSolution := CBlockIndex.nSolution pindex |}.

(** The assignments of lines 677-693; the node is updated in place. *)
Definition copy_from_disk (pprev : option uint256)
    (diskindex : CDiskBlockIndex.t) (pindexNew : CBlockIndex.t)
    : CBlockIndex.t :=
  {| CBlockIndex.pprev := pprev;
     CBlockIndex.nHeight := CDiskBlockIndex.nHeight diskindex;
     CBlockIndex.nFile := CDiskBlockIndex.nFile diskindex;
     CBlockIndex.nDataPos := CDiskBlockIndex.nDataPos diskindex;
     CBlockIndex.nUndoPos := CDiskBlockIndex.nUndoPos diskindex;
     CBlockIndex.hashSproutAnchor := CDiskBlockIndex.hashSproutAnchor diskindex;
     CBlockIndex.nVersion := CDiskBlockIndex.nVersion diskindex;
     CBlockIndex.hashMerkleRoot := CDiskBlockIndex.hashMerkleRoot diskindex;
     CBlockIndex.hashFinalSaplingRoot :=
       CDiskBlockIndex.hashFinalSaplingRoot diskindex;
     CBlockIndex.nTime := CDiskBlockIndex.nTime diskindex;
     CBlockIndex.nBits := CDiskBlockIndex.nBits diskindex;
     CBlockIndex.nNonce := CDiskBlockIndex.nNonce diskindex;
     CBlockIndex.nSolution := CDiskBlockIndex.nSolution diskindex;
     CBlockIndex.nStatus := CDiskBlockIndex.nStatus diskindex;
     CBlockIndex.nCachedBranchId := CDiskBlockIndex.nCachedBranchId diskindex;
     CBlockIndex.nTx := CDiskBlockIndex.nTx diskindex;
     CBlockIndex.nSproutValue := CDiskBlockIndex.nSproutValue diskindex |}.

(** How the processing of one entry ends. *)
Inductive LoadTurn : Type :=
| LoadNext (m : BlockMap)          (* [pcursor->Next()] *)
| LoadBreak                        (* [break] *)
| LoadError (m : BlockMap)         (* [return error(...)] *)
| LoadNullDeref.                   (* [pindexNew] is null and is dereferenced *)

Section LoadBlockIndex.
Context {block_env : BlockIndexEnv}.

(** Lines 676-697 for one decoded record: the map after the copy and
    whether the recomputed header hash differs from the node's hash key. *)
Definition load_entry (diskindex : CDiskBlockIndex.t) (m : BlockMap)
    : option (BlockMap * bool) :=
  let r1 := InsertBlockIndex (CDiskBlockIndex_GetBlockHash diskindex) m in
  match r1.1 with
  | None => None
  | Some pindexNew =>
      let r2 := InsertBlockIndex (CDiskBlockIndex.hashPrev diskindex) r1.2 in
      let node :=
        copy_from_disk r2.1 diskindex
                       (default CBlockIndex.new (r2.2 !! pindexNew)) in
      let header := GetBlockHeader node in
      Some (<[pindexNew := node]> r2.2,
            bool_decide (CBlockHeader_GetHash header ≠ pindexNew))
  end.

(** The loop body (lines 670-713). *)
Definition LoadBlockIndexGuts_body (e : bytes * bytes) (m : BlockMap)
    : LoadTurn :=
  match GetKey (ascii * uint256) e with
  | Some key =>
      if bool_decide (key.1 = DB_BLOCK_INDEX) then
        match GetValue CDiskBlockIndex.t e with
        | Some diskindex =>
            match load_entry diskindex m with
            | None => LoadNullDeref
            | Some (m', true) => LoadError m'
            | Some (m', false) => LoadNext m'
            end
        | None => LoadError m
        end
      else LoadBreak
  | None => LoadBreak
  end.

(** The loop (lines 669-716) from a cursor position: [None] when a null
    node pointer is dereferenced, else the return value and
    [mapBlockIndex]. *)
Fixpoint LoadBlockIndexGuts_loop (pcursor : CDBIterator) (m : BlockMap)
    : option (bool * BlockMap) :=
  match pcursor with
  | [] => Some (true, m)
  | e :: rest =>
      match LoadBlockIndexGuts_body e m with
      | LoadNext m' => LoadBlockIndexGuts_loop rest m'
      | LoadBreak => Some (true, m)
      | LoadError m' => Some (false, m')
      | LoadNullDeref => None
      end
  end.

(** [LoadBlockIndexGuts] (lines 662-717). *)
Definition LoadBlockIndexGuts (db : CDBWrapper) (mapBlockIndex : BlockMap)
    : option (bool * BlockMap) :=
  let pcursor :=
    Seek (Serialize (DB_BLOCK_INDEX, uint256_zero)) (NewIterator db) in
  LoadBlockIndexGuts_loop pcursor mapBlockIndex.

End LoadBlockIndex.

(** ** Notions used to state the properties *)

Definition op_key (op : BatchOp) : bytes :=
  match op with
  | OpWrite k _ => k
  | OpErase k => k
  end.

(** The operations one visited entry adds to the batch. *)
Definition nullifier_ops (dbChar : ascii)
    (it : uint256 * CNullifiersCacheEntry.t) : list BatchOp :=
  (BatchWriteNullifiers_loop dbChar [it] [] ∅).1.

Definition anchor_ops {Tree : Type} `{!MerkleTree Tree} (dbChar : ascii)
    (it : uint256 * CAnchorsCacheEntry.t Tree) : list BatchOp :=
  (BatchWriteAnchors_loop dbChar [it] [] ∅).1.

Definition coins_ops `{!CoinsMethods} (it : uint256 * CCoinsCacheEntry.t)
    : list BatchOp :=
  cl_batch (BatchWrite_coins_loop [it] (mk_CoinsLoop [] ∅ 0 0)).

(** Erasing, one after the other, the keys of the visited entries. *)
Definition erase_visited {V : Type} (its : list (uint256 * V))
    (m : gmap uint256 V) : gmap uint256 V :=
  foldl (λ acc it, delete it.1 acc) m its.

(** A turn of a scan loop that moves the cursor on. *)
Definition advances {A : Type} (t : Turn A) : bool :=
  match t with
  | Push _ | Skip => true
  | Break | Return _ => false
  end.

Definition is_write_to (k : bytes) (op : BatchOp) : bool :=
  match op with
  | OpWrite k' _ => bool_decide (k' = k)
  | OpErase _ => false
  end.

(** What a flush does to a scalar slot (key type [k], no payload) when it
    is given the hash [h] for it: with a null hash no operation of the
    batch names the slot and the stored value stays; otherwise the batch
    writes [h], which is what the slot holds once the engine has committed. *)
Definition best_slot_spec (engine_ok : bool) (db db' : CDBWrapper)
    (batch : CDBBatch) (k : KeyType) (h : uint256) : Prop :=
  if IsNull h then
    Forall (λ op, op_key op ≠ encode k []) batch ∧
    db' !! encode k [] = db !! encode k []
  else
    OpWrite (encode k []) (blob256 h) ∈ batch ∧
    db' !! encode k [] =
      if engine_ok then Some (blob256 h) else db !! encode k [].

Section DeltaEntries.
Context {SproutMerkleTree SaplingMerkleTree : Type}.
Context {sprout_tree : MerkleTree SproutMerkleTree}.
Context {sapling_tree : MerkleTree SaplingMerkleTree}.
Context {coins_methods : CoinsMethods}.

(** An entry of one of the five maps handed to [BatchWrite]. *)
Inductive DeltaEntry : Type :=
| CoinEntry (k : uint256) (e : CCoinsCacheEntry.t)
| SproutAnchorEntry (k : uint256) (e : CAnchorsCacheEntry.t SproutMerkleTree)
| SaplingAnchorEntry (k : uint256) (e : CAnchorsCacheEntry.t SaplingMerkleTree)
| SproutNullifierEntry (k : uint256) (e : CNullifiersCacheEntry.t)
| SaplingNullifierEntry (k : uint256) (e : CNullifiersCacheEntry.t).

Definition passed_in (mapCoins : CCoinsMap)
    (mapSproutAnchors : gmap uint256 (CAnchorsCacheEntry.t SproutMerkleTree))
    (mapSaplingAnchors : gmap uint256 (CAnchorsCacheEntry.t SaplingMerkleTree))
    (mapSproutNullifiers mapSaplingNullifiers : CNullifiersMap)
    (d : DeltaEntry) : Prop :=
  match d with
  | CoinEntry k e => mapCoins !! k = Some e
  | SproutAnchorEntry k e => mapSproutAnchors !! k = Some e
  | SaplingAnchorEntry k e => mapSaplingAnchors !! k = Some e
  | SproutNullifierEntry k e => mapSproutNullifiers !! k = Some e
  | SaplingNullifierEntry k e => mapSaplingNullifiers !! k = Some e
  end.

Definition delta_dirty (d : DeltaEntry) : bool :=
  match d with
  | CoinEntry _ e => flag_set (CCoinsCacheEntry.flags e) CCoinsCacheEntry.DIRTY
  | SproutAnchorEntry _ e | SaplingAnchorEntry _ e =>
      flag_set (CAnchorsCacheEntry.flags e) CAnchorsCacheEntry.DIRTY
  | SproutNullifierEntry _ e | SaplingNullifierEntry _ e =>
      flag_set (CNullifiersCacheEntry.flags e) CNullifiersCacheEntry.DIRTY
  end.

(** The store key of an entry. *)
Definition delta_key (d : DeltaEntry) : bytes :=
  match d with
  | CoinEntry k _ => encode K_COINS (blob256 k)
  | SproutAnchorEntry k _ => encode K_SPROUT_ANCHOR (blob256 k)
  | SaplingAnchorEntry k _ => encode K_SAPLING_ANCHOR (blob256 k)
  | SproutNullifierEntry k _ => encode K_NULLIFIER (blob256 k)
  | SaplingNullifierEntry k _ => encode K_SAPLING_NULLIFIER (blob256 k)
  end.

(** The [entered] flag of an anchor or nullifier entry; a coin entry has
    none. *)
Definition delta_entered (d : DeltaEntry) : option bool :=
  match d with
  | CoinEntry _ _ => None
  | SproutAnchorEntry _ e | SaplingAnchorEntry _ e =>
      Some (CAnchorsCacheEntry.entered e)
  | SproutNullifierEntry _ e | SaplingNullifierEntry _ e =>
      Some (CNullifiersCacheEntry.entered e)
  end.

(** The serialized value an upsert of the entry stores. *)
Definition delta_value (d : DeltaEntry) : bytes :=
  match d with
  | CoinEntry _ e => Serialize (CCoinsCacheEntry.coins e)
  | SproutAnchorEntry _ e => Serialize (CAnchorsCacheEntry.tree e)
  | SaplingAnchorEntry _ e => Serialize (CAnchorsCacheEntry.tree e)
  | SproutNullifierEntry _ _ | SaplingNullifierEntry _ _ => Serialize true
  end.

(** An anchor entry keyed by the empty root of its tree type. *)
Definition keyed_by_empty_root (d : DeltaEntry) : bool :=
  match d with
  | SproutAnchorEntry k _ => bool_decide (k = empty_root SproutMerkleTree)
  | SaplingAnchorEntry k _ => bool_decide (k = empty_root SaplingMerkleTree)
  | _ => false
  end.

(** What the flush batches for a dirty entry: a deletion ([OpErase]), an
    upsert ([OpWrite]) or nothing ([None]). *)
Definition delta_op (d : DeltaEntry) : option BatchOp :=
  let deleted :=
    match d with
    | CoinEntry _ e => CCoins_IsPruned (CCoinsCacheEntry.coins e)
    | SproutAnchorEntry _ e | SaplingAnchorEntry _ e =>
        negb (CAnchorsCacheEntry.entered e)
    | SproutNullifierEntry _ e | SaplingNullifierEntry _ e =>
        negb (CNullifiersCacheEntry.entered e)
    end in
  if deleted then Some (OpErase (delta_key d))
  else if keyed_by_empty_root d then None
  else Some (OpWrite (delta_key d) (delta_value d)).

(** The operations the five loops of [BatchWrite] batch, in order. *)
Definition loops_ops (mapCoins : CCoinsMap)
    (mapSproutAnchors : gmap uint256 (CAnchorsCacheEntry.t SproutMerkleTree))
    (mapSaplingAnchors : gmap uint256 (CAnchorsCacheEntry.t SaplingMerkleTree))
    (mapSproutNullifiers mapSaplingNullifiers : CNullifiersMap)
    : list BatchOp :=
  flat_map coins_ops (map_to_list mapCoins) ++
  flat_map (anchor_ops DB_SPROUT_ANCHOR) (map_to_list mapSproutAnchors) ++
  flat_map (anchor_ops DB_SAPLING_ANCHOR) (map_to_list mapSaplingAnchors) ++
  flat_map (nullifier_ops DB_NULLIFIER) (map_to_list mapSproutNullifiers) ++
  flat_map (nullifier_ops DB_SAPLING_NULLIFIER)
           (map_to_list mapSaplingNullifiers).

End DeltaEntries.
Arguments DeltaEntry : clear implicits.

(** The write the flush batches for one scalar slot. *)
Definition best_write (k : KeyType) (h : uint256) : list BatchOp :=
  if IsNull h then [] else [OpWrite (encode k []) (blob256 h)].

(** ** Notions used to state the properties of the statistics scan *)

Section CoinSetContent.
Context {coins_methods : CoinsMethods} {stats_env : StatsEnv}.

(** The coin records the scan of [GetStats] visits from a cursor position:
    those before the first entry that is not a well-formed coin entry. *)
Fixpoint scanned_coins (pcursor : CDBIterator) : list CCoins :=
  match pcursor with
  | [] => []
  | e :: rest =>
      match GetKey (ascii * uint256) e, GetValue CCoins e with
      | Some key, Some coins =>
          if bool_decide (key.1 = DB_COINS) then coins :: scanned_coins rest
          else []
      | _, _ => []
      end
  end.

(** The non-null outputs among [vout], each with its 1-based position in
    the record, [i] outputs of which precede [vout]. *)
Fixpoint nonnull_from (i : Z) (vout : list CTxOut) : list (Z * CTxOut) :=
  match vout with
  | [] => []
  | out :: rest =>
      (if CTxOut_IsNull out then [] else [(i + 1, out)]) ++
      nonnull_from (i + 1) rest
  end.

Definition nonnull_outputs (coins : CCoins) : list (Z * CTxOut) :=
  nonnull_from 0 (vout coins).

(** The non-null outputs of the coin set, record by record in key order. *)
Definition coin_set_outputs (db : CDBWrapper) : list (list (Z * CTxOut)) :=
  map nonnull_outputs
      (scanned_coins (Seek (Serialize DB_COINS) (NewIterator db))).

(** What is hashed for one record: each output preceded by its position
    (an [unsigned int]) as a varint, then varint 0. *)
Definition record_stream (outs : list (Z * CTxOut)) : bytes :=
  flat_map (λ io, WriteVarInt (io.1 mod 2 ^ 32) ++ Serialize io.2) outs ++
  WriteVarInt 0.

(** What is hashed for a coin set: the best-block hash, then the records. *)
Definition coin_set_stream (hashBlock : uint256)
    (records : list (list (Z * CTxOut))) : bytes :=
  Serialize hashBlock ++ flat_map record_stream records.

Definition total_value (outs : list (Z * CTxOut)) : Z :=
  foldr (λ io acc, nValue io.2 + acc) 0 outs.

End CoinSetContent.

(** ** Notions used to state the properties of the block-index loader *)

(** The loader works through [pcursor] entry by entry, each one being
    loaded and passing the consistency check, and so takes the map [m] to
    [m']. *)
Inductive loads `{!BlockIndexEnv}
    : CDBIterator → BlockMap → BlockMap → Prop :=
| loads_nil (m : BlockMap) : loads [] m m
| loads_cons (e : bytes * bytes) (rest : CDBIterator) (m m' m'' : BlockMap) :
    LoadBlockIndexGuts_body e m = LoadNext m' →
    loads rest m' m'' →
    loads (e :: rest) m m''.

(** ** Sample instances

    Simple stand-ins for what lives outside txdb.cpp, used to run the
    functions above on explicit inputs. *)
Module Sample.

Definition byte (z : Z) : ascii := ascii_of_N (Z.to_N (z mod 256)).

(** Fixed-width integers, little- and big-endian. *)
Fixpoint le_bytes (n : nat) (z : Z) : bytes :=
  match n with
  | O => []
  | S n' => byte z :: le_bytes n' (z / 256)
  end.

Fixpoint le_value (s : bytes) : Z :=
  match s with
  | [] => 0
  | c :: rest => Z.of_N (N_of_ascii c) + 256 * le_value rest
  end.

Definition be_bytes (n : nat) (z : Z) : bytes := rev (le_bytes n z).
Definition be_value (s : bytes) : Z := le_value (rev s).

Definition signed (width : Z) (z : Z) : Z :=
  if 2 ^ (width - 1) <=? z then z - 2 ^ width else z.

(** The next [n] bytes of a stream. *)
Definition read (n : nat) (s : bytes) : option (bytes * bytes) :=
  if decide (n ≤ length s)%nat then Some (take n s, drop n s) else None.

(** Trees are kept in serialized form. *)
Definition tree_codec : Serializable bytes :=
  {| Serialize := λ t : bytes, t; Unserialize := λ s, Some (s, []) |}.

Definition sprout : MerkleTree bytes :=
  {| empty_root := mk_uint256 (replicate 32 "001"%char);
     new_tree := [];
     tree_Serializable := tree_codec |}.

Definition sapling : MerkleTree bytes :=
  {| empty_root := mk_uint256 (replicate 32 "002"%char);
     new_tree := [];
     tree_Serializable := tree_codec |}.

(** An output: 8 bytes of value, a length byte, the script. *)
Definition txout_codec : Serializable CTxOut :=
  {| Serialize := λ o : CTxOut,
       le_bytes 8 (nValue o) ++
       byte (Z.of_nat (length (scriptPubKey o))) :: scriptPubKey o;
     Unserialize := λ s,
       match read 8 s with
       | Some (v, n :: s1) =>
           match read (nat_of_ascii n) s1 with
           | Some (script, s2) =>
               Some (mk_CTxOut (signed 64 (le_value v)) script, s2)
           | None => None
           end
       | _ => None
       end |}.

Fixpoint read_outs (n : nat) (s : bytes) : option (list CTxOut * bytes) :=
  match n with
  | O => Some ([], s)
  | S n' =>
      match @Unserialize CTxOut txout_codec s with
      | Some (o, s1) =>
          match read_outs n' s1 with
          | Some (os, s2) => Some (o :: os, s2)
          | None => None
          end
      | None => None
      end
  end.

(** A coin record: a count byte and the outputs. *)
Definition coins_codec : Serializable CCoins :=
  {| Serialize := λ c : CCoins,
       byte (Z.of_nat (length (vout c))) ::
       concat (map (@Serialize CTxOut txout_codec) (vout c));
     Unserialize := λ s,
       match s with
       | [] => None
       | n :: s1 =>
           match read_outs (nat_of_ascii n) s1 with
           | Some (os, s2) => Some (mk_CCoins false os 0 1, s2)
           | None => None
           end
       end |}.

(** An output is null when its value is -1; a record is pruned when all
    its outputs are null. *)
Definition coins : CoinsMethods :=
  {| CTxOut_IsNull := λ o, nValue o =? -1;
     CCoins_IsPruned := λ c, forallb (λ o, nValue o =? -1) (vout c);
     CTxOut_Serializable := txout_codec;
     CCoins_Serializable := coins_codec |}.

(** Index entries: a type byte, 20 bytes of address hash, heights and
    timestamps big-endian (so that they sort numerically), 32 bytes of
    transaction or block hash, the output index. *)
Definition address_key_codec : Serializable CAddressIndexKey.t :=
  {| Serialize := λ k : CAddressIndexKey.t,
       byte (CAddressIndexKey.type k) ::
       blob160 (CAddressIndexKey.hashBytes k) ++
       be_bytes 4 (CAddressIndexKey.blockHeight k) ++
       blob256 (CAddressIndexKey.txhash k) ++
       le_bytes 4 (CAddressIndexKey.index k);
     Unserialize := λ s,
       match s with
       | [] => None
       | t :: s1 =>
           match read 20 s1 with
           | Some (h, s2) =>
               match read 4 s2 with
               | Some (ht, s3) =>
                   match read 32 s3 with
                   | Some (tx, s4) =>
                       match read 4 s4 with
                       | Some (ix, s5) =>
                           Some (CAddressIndexKey.mk
                                   (Z.of_N (N_of_ascii t)) (mk_uint160 h)
                                   (signed 32 (be_value ht)) (mk_uint256 tx)
                                   (le_value ix), s5)
                       | None => None
                       end
                   | None => None
                   end
               | None => None
               end
           | None => None
           end
       end |}.

Definition unspent_key_codec : Serializable CAddressUnspentKey.t :=
  {| Serialize := λ k : CAddressUnspentKey.t,
       byte (CAddressUnspentKey.type k) ::
       blob160 (CAddressUnspentKey.hashBytes k) ++
       blob256 (CAddressUnspentKey.txhash k) ++
       le_bytes 4 (CAddressUnspentKey.index k);
     Unserialize := λ s,
       match s with
       | [] => None
       | t :: s1 =>
           match read 20 s1 with
           | Some (h, s2) =>
               match read 32 s2 with
               | Some (tx, s3) =>
                   match read 4 s3 with
                   | Some (ix, s4) =>
                       Some (CAddressUnspentKey.mk
                               (Z.of_N (N_of_ascii t)) (mk_uint160 h)
                               (mk_uint256 tx) (le_value ix), s4)
                   | None => None
                   end
               | None => None
               end
           | None => None
           end
       end |}.

Definition unspent_value_codec : Serializable CAddressUnspentValue.t :=
  {| Serialize := λ v : CAddressUnspentValue.t,
       le_bytes 8 (CAddressUnspentValue.satoshis v) ++
       le_bytes 4 (CAddressUnspentValue.blockHeight v);
     Unserialize := λ s,
       match read 8 s with
       | Some (a, s1) =>
           match read 4 s1 with
           | Some (h, s2) =>
               Some (CAddressUnspentValue.mk (signed 64 (le_value a))
                                             (signed 32 (le_value h)), s2)
           | None => None
           end
       | None => None
       end |}.

Definition timestamp_key_codec : Serializable CTimestampIndexKey.t :=
  {| Serialize := λ k : CTimestampIndexKey.t,
       be_bytes 4 (CTimestampIndexKey.timestamp k) ++
       blob256 (CTimestampIndexKey.blockHash k);
     Unserialize := λ s,
       match read 4 s with
       | Some (t, s1) =>
           match read 32 s1 with
           | Some (h, s2) =>
               Some (CTimestampIndexKey.mk (be_value t) (mk_uint256 h), s2)
           | None => None
           end
       | None => None
       end |}.

Definition iterator_key_codec : Serializable CAddressIndexIteratorKey.t :=
  {| Serialize := λ k : CAddressIndexIteratorKey.t,
       byte (CAddressIndexIteratorKey.type k) ::
       blob160 (CAddressIndexIteratorKey.hashBytes k);
     Unserialize := λ s,
       match s with
       | [] => None
       | t :: s1 =>
           match read 20 s1 with
           | Some (h, s2) =>
               Some (CAddressIndexIteratorKey.mk (Z.of_N (N_of_ascii t))
                                                 (mk_uint160 h), s2)
           | None => None
           end
       end |}.

Definition iterator_height_key_codec
    : Serializable CAddressIndexIteratorHeightKey.t :=
  {| Serialize := λ k : CAddressIndexIteratorHeightKey.t,
       byte (CAddressIndexIteratorHeightKey.type k) ::
       blob160 (CAddressIndexIteratorHeightKey.hashBytes k) ++
       be_bytes 4 (CAddressIndexIteratorHeightKey.blockHeight k);
     Unserialize := λ s,
       match s with
       | [] => None
       | t :: s1 =>
           match read 20 s1 with
           | Some (h, s2) =>
               match read 4 s2 with
               | Some (ht, s3) =>
                   Some (CAddressIndexIteratorHeightKey.mk
                           (Z.of_N (N_of_ascii t)) (mk_uint160 h)
                           (signed 32 (be_value ht)), s3)
               | None => None
               end
           | None => None
           end
       end |}.

Definition timestamp_iterator_key_codec
    : Serializable CTimestampIndexIteratorKey.t :=
  {| Serialize := λ k : CTimestampIndexIteratorKey.t,
       be_bytes 4 (CTimestampIndexIteratorKey.timestamp k);
     Unserialize := λ s,
       match read 4 s with
       | Some (t, s1) => Some (CTimestampIndexIteratorKey.mk (be_value t), s1)
       | None => None
       end |}.

Definition amount_codec : Serializable CAmount :=
  {| Serialize := λ a : CAmount, le_bytes 8 a;
     Unserialize := λ s,
       match read 8 s with
       | Some (a, s1) => Some (signed 64 (le_value a), s1)
       | None => None
       end |}.

Definition index_codec : IndexCodec :=
  {| CAddressIndexKey_Serializable := address_key_codec;
     CAddressUnspentKey_Serializable := unspent_key_codec;
     CAddressUnspentValue_Serializable := unspent_value_codec;
     CTimestampIndexKey_Serializable := timestamp_key_codec;
     CAddressIndexIteratorKey_Serializable := iterator_key_codec;
     CAddressIndexIteratorHeightKey_Serializable := iterator_height_key_codec;
     CTimestampIndexIteratorKey_Serializable := timestamp_iterator_key_codec;
     CAmount_Serializable := amount_codec |}.

(** [VARINT]: base-128 digits, most significant first, every byte but the
    last with the high bit set. *)
Fixpoint varint_digits (fuel : nat) (n : Z) (len : Z) (acc : bytes) : bytes :=
  let tmp := byte (Z.lor (Z.land n 127) (if len =? 0 then 0 else 128)) in
  match fuel with
  | O => tmp :: acc
  | S fuel' =>
      if n <=? 127 then tmp :: acc
      else varint_digits fuel' (Z.shiftr n 7 - 1) (len + 1) (tmp :: acc)
  end.

(** A stand-in for the hash of a byte string. *)
Definition toy_hash (s : bytes) : uint256 :=
  mk_uint256
    (le_bytes 32
       (foldl (λ acc c, (acc * 257 + Z.of_N (N_of_ascii c) + 1) mod 2 ^ 256)
              7 s)).

(** [mapBlockIndex] holds one node, of height 7, for the block hash whose
    bytes are all 'h'. *)
Definition stats_env : StatsEnv :=
  {| WriteVarInt := λ n, varint_digits 10 n 0 [];
     HashWriter_GetHash := toy_hash;
     mapBlockIndex_nHeight := λ hash,
       if decide (hash = mk_uint256 (replicate 32 "h"%char)) then Some 7
       else None |}.

(** A persisted block-index record: previous hash, Merkle root, Sapling
    root and height; the other fields are read as zero. *)
Definition disk_index_codec : Serializable CDiskBlockIndex.t :=
  {| Serialize := λ d : CDiskBlockIndex.t,
       blob256 (CDiskBlockIndex.hashPrev d) ++
       blob256 (CDiskBlockIndex.hashMerkleRoot d) ++
       blob256 (CDiskBlockIndex.hashFinalSaplingRoot d) ++
       le_bytes 4 (CDiskBlockIndex.nHeight d);
     Unserialize := λ s,
       match read 32 s with
       | Some (p, s1) =>
           match read 32 s1 with
           | Some (m, s2) =>
               match read 32 s2 with
               | Some (f, s3) =>
                   match read 4 s3 with
                   | Some (h, s4) =>
                       Some (CDiskBlockIndex.mk (mk_uint256 p)
                               (signed 32 (le_value h)) 0 0 0 uint256_zero 0
                               (mk_uint256 m) (mk_uint256 f) 0 0 uint256_zero
                               [] 0 None 0 None, s4)
                   | None => None
                   end
               | None => None
               end
           | None => None
           end
       | None => None
       end |}.

(** Stand-ins for the two hash computations of the loader, unrelated to
    each other so that both outcomes of the consistency check occur: the
    record's hash is its Merkle root, the header's hash its Sapling root. *)
Definition block_env : BlockIndexEnv :=
  {| CDiskBlockIndex_Serializable := disk_index_codec;
     CDiskBlockIndex_GetBlockHash := CDiskBlockIndex.hashMerkleRoot;
     CBlockHeader_GetHash := CBlockHeader.hashFinalSaplingRoot |}.

(** *** Sample data *)

(** Two addresses and some address-index entries. *)
Definition addrA : uint160 := mk_uint160 (replicate 20 "A"%char).
Definition addrB : uint160 := mk_uint160 (replicate 20 "B"%char).
Definition txid (c : ascii) : uint256 := mk_uint256 (replicate 32 c).

Definition address_key (a : uint160) (height : Z) : CAddressIndexKey.t :=
  CAddressIndexKey.mk 1 a height (txid "t") 0.

Definition address_entry (a : uint160) (height : Z) (value : bytes)
    : bytes * bytes :=
  (@Serialize _ (@pair_Serializable _ _ _ address_key_codec)
     (DB_ADDRESSINDEX, address_key a height),
   value).

Definition amount (a : CAmount) : bytes := @Serialize _ amount_codec a.

Definition key_A5 : CAddressIndexKey.t := address_key addrA 5.
Definition key_A6 : CAddressIndexKey.t := address_key addrA 6.
Definition key_A9 : CAddressIndexKey.t := address_key addrA 9.
Definition entry_A5 : bytes * bytes := address_entry addrA 5 (amount 100).
Definition entry_A9 : bytes * bytes := address_entry addrA 9 (amount 200).
Definition entry_B1 : bytes * bytes := address_entry addrB 1 (amount 7).

(** An index with entries for [addrA] at heights 5 and 9 and for [addrB]. *)
Definition address_index : CDBWrapper :=
  list_to_map [entry_A5; entry_A9; entry_B1].

(** The same index with one more entry for [addrA], at height 6, whose
    value is cut short. *)
Definition bad_value_entry : bytes * bytes :=
  address_entry addrA 6 ["001"%char; "002"%char].

Definition bad_value_index : CDBWrapper :=
  <[bad_value_entry.1 := bad_value_entry.2]> address_index.

(** The same index with one more entry for [addrA], at height 7, whose
    key is cut short after the height. *)
Definition bad_key_entry : bytes * bytes :=
  (take 26 (address_entry addrA 7 []).1, amount 1).

Definition bad_key_index : CDBWrapper :=
  <[bad_key_entry.1 := bad_key_entry.2]> address_index.

(** Two coin sets with the same best block, which [mapBlockIndex] knows,
    and the same non-null outputs: the records sit under different
    transaction ids and the second has one more null output. *)
Definition out1 : CTxOut := mk_CTxOut 50 ["s"%char].
Definition out2 : CTxOut := mk_CTxOut 70 [].
Definition null_out : CTxOut := mk_CTxOut (-1) [].

Definition coins_entry (id : uint256) (vout : list CTxOut) : bytes * bytes :=
  (Serialize (DB_COINS, id),
   @Serialize _ coins_codec (mk_CCoins false vout 0 1)).

Definition best_block_entry : bytes * bytes :=
  (Serialize DB_BEST_BLOCK, Serialize (txid "h")).

Definition coin_set_a : CDBWrapper :=
  list_to_map [best_block_entry; coins_entry (txid "a") [out1; null_out; out2]].

Definition coin_set_b : CDBWrapper :=
  list_to_map [best_block_entry;
               coins_entry (txid "b") [out1; null_out; out2; null_out]].

Definition stats0 : CCoinsStats.t :=
  CCoinsStats.mk 0 uint256_zero 0 0 0 uint256_zero 0.

(** Block-index records; under [block_env] a record passes the
    consistency check when its Merkle root equals its Sapling root. *)
Definition disk_record (merkle sapling : uint256) (height : Z)
    : CDiskBlockIndex.t :=
  CDiskBlockIndex.mk uint256_zero height 0 0 0 uint256_zero 0 merkle sapling
    0 0 uint256_zero [] 0 None 0 None.

Definition block_entry (d : CDiskBlockIndex.t) : bytes * bytes :=
  (Serialize (DB_BLOCK_INDEX, CDiskBlockIndex.hashMerkleRoot d),
   @Serialize _ disk_index_codec d).

Definition consistent : CDiskBlockIndex.t :=
  disk_record (txid "x") (txid "x") 1.
Definition inconsistent : CDiskBlockIndex.t :=
  disk_record (txid "y") (txid "q") 2.
Definition unread : CDiskBlockIndex.t :=
  disk_record (txid "z") (txid "z") 3.

Definition block_index : CDBWrapper :=
  list_to_map [block_entry consistent; block_entry inconsistent;
               block_entry unread].

(** [mapBlockIndex] once [consistent] is loaded. *)
Definition loaded_first : BlockMap :=
  {[ txid "x" := copy_from_disk None consistent CBlockIndex.new ]}.

End Sample.

(** ** Point operations and batched writes of the block-tree store *)

(** [int], as a key payload or a stored value. *)
Definition int : Type := Z.
#[global] Typeclasses Opaque int.

(** Modelled from the spec: the value of a block-hash -> timestamp entry is
    the logical timestamp. *)
Module CTimestampBlockIndexValue.
Record t : Type := mk { ltimestamp : Z }.
End CTimestampBlockIndexValue.

(** What these operations take from outside txdb.cpp: the payload types
    they store without looking inside, the serializers of these types, of
    [int] and of [std::string], the [IsNull] test of the two value types
    whose null shape stands for "remove this key", and the constructor
    [CDiskBlockIndex(pindex)] of the record persisted for a node. *)
Class PointCodec : Type := {
  CBlockFileInfo : Type;
  CDiskTxPos : Type;
  CSpentIndexKey : Type;
  CSpentIndexValue : Type;
  CTimestampBlockIndexKey : Type;
  int_Serializable :: Serializable int;
  string_Serializable :: Serializable string;
  CBlockFileInfo_Serializable :: Serializable CBlockFileInfo;
  CDiskTxPos_Serializable :: Serializable CDiskTxPos;
  CSpentIndexKey_Serializable :: Serializable CSpentIndexKey;
  CSpentIndexValue_Serializable :: Serializable CSpentIndexValue;
  CTimestampBlockIndexKey_Serializable :: Serializable CTimestampBlockIndexKey;
  CTimestampBlockIndexValue_Serializable ::
    Serializable CTimestampBlockIndexValue.t;
  CSpentIndexValue_IsNull : CSpentIndexValue → bool;
  CAddressUnspentValue_IsNull : CAddressUnspentValue.t → bool;
  CDiskBlockIndex_of : CBlockIndex.t → CDiskBlockIndex.t
}.

Section BlockTreePoint.
Context {point_codec : PointCodec} {index_codec : IndexCodec}.
Context {block_env : BlockIndexEnv}.

(** [ReadBlockFileInfo] (lines 205-207). *)
Definition ReadBlockFileInfo (db : CDBWrapper) (nFile : int)
    : option CBlockFileInfo :=
  db_Read CBlockFileInfo db (DB_BLOCK_FILES, nFile).

(** [ReadLastBlockFile] (lines 221-223). *)
Definition ReadLastBlockFile (db : CDBWrapper) : option int :=
  db_Read int db DB_LAST_BLOCK.

(** [WriteBatchSync] (lines 271-281).  A [const CBlockIndex*] is given by
    the hash under which the node sits in [mapBlockIndex], which is what
    [GetBlockHash()] returns, and the node it points to. *)
Definition WriteBatchSync (engine_ok : bool) (db : CDBWrapper)
    (fileInfo : list (int * CBlockFileInfo)) (nLastFile : int)
    (blockinfo : list (uint256 * CBlockIndex.t)) : bool * CDBWrapper :=
  let batch :=
    foldl (λ batch it, batch_Write batch (DB_BLOCK_FILES, it.1) it.2)
          [] fileInfo in
  let batch := batch_Write batch DB_LAST_BLOCK nLastFile in
  let batch :=
    foldl (λ batch it,
             batch_Write batch (DB_BLOCK_INDEX, it.1) (CDiskBlockIndex_of it.2))
          batch blockinfo in
  WriteBatch engine_ok db batch.

(** [EraseBatchSync] (lines 283-289). *)
Definition EraseBatchSync (engine_ok : bool) (db : CDBWrapper)
    (blockinfo : list (uint256 * CBlockIndex.t)) : bool * CDBWrapper :=
  let batch :=
    foldl (λ batch it, batch_Erase batch (DB_BLOCK_INDEX, it.1))
          [] blockinfo in
  WriteBatch engine_ok db batch.

(** [ReadTxIndex] (lines 291-293). *)
Definition ReadTxIndex (db : CDBWrapper) (txid : uint256) : option CDiskTxPos :=
  db_Read CDiskTxPos db (DB_TXINDEX, txid).

(** [WriteTxIndex] (lines 295-300). *)
Definition WriteTxIndex (engine_ok : bool) (db : CDBWrapper)
    (vect : list (uint256 * CDiskTxPos)) : bool * CDBWrapper :=
  let batch :=
    foldl (λ batch it, batch_Write batch (DB_TXINDEX, it.1) it.2) [] vect in
  WriteBatch engine_ok db batch.

(** [ReadSpentIndex] (lines 302-304). *)
Definition ReadSpentIndex (db : CDBWrapper) (key : CSpentIndexKey)
    : option CSpentIndexValue :=
  db_Read CSpentIndexValue db (DB_SPENTINDEX, key).

(** [UpdateSpentIndex] (lines 306-316). *)
Definition UpdateSpentIndex (engine_ok : bool) (db : CDBWrapper)
    (vect : list (CSpentIndexKey * CSpentIndexValue)) : bool * CDBWrapper :=
  let batch :=
    foldl (λ batch it,
             if CSpentIndexValue_IsNull it.2
             then batch_Erase batch (DB_SPENTINDEX, it.1)
             else batch_Write batch (DB_SPENTINDEX, it.1) it.2)
          [] vect in
  WriteBatch engine_ok db batch.

(** [UpdateAddressUnspentIndex] (lines 318-328). *)
Definition UpdateAddressUnspentIndex (engine_ok : bool) (db : CDBWrapper)
    (vect : list (CAddressUnspentKey.t * CAddressUnspentValue.t))
    : bool * CDBWrapper :=
  let batch :=
    foldl (λ batch it,
             if CAddressUnspentValue_IsNull it.2
             then batch_Erase batch (DB_ADDRESSUNSPENTINDEX, it.1)
             else batch_Write batch (DB_ADDRESSUNSPENTINDEX, it.1) it.2)
          [] vect in
  WriteBatch engine_ok db batch.

(** [WriteAddressIndex] (lines 372-377). *)
Definition WriteAddressIndex (engine_ok : bool) (db : CDBWrapper)
    (vect : list (CAddressIndexKey.t * CAmount)) : bool * CDBWrapper :=
  let batch :=
    foldl (λ batch it,
             @batch_Write _ CAmount _ CAmount_Serializable batch
                          (DB_ADDRESSINDEX, it.1) it.2)
          [] vect in
  WriteBatch engine_ok db batch.

(** [EraseAddressIndex] (lines 379-384). *)
Definition EraseAddressIndex (engine_ok : bool) (db : CDBWrapper)
    (vect : list (CAddressIndexKey.t * CAmount)) : bool * CDBWrapper :=
  let batch :=
    foldl (λ batch it, batch_Erase batch (DB_ADDRESSINDEX, it.1)) [] vect in
  WriteBatch engine_ok db batch.

(** [WriteTimestampIndex] (lines 577-581). *)
Definition WriteTimestampIndex (engine_ok : bool) (db : CDBWrapper)
    (timestampIndex : CTimestampIndexKey.t) : bool * CDBWrapper :=
  let batch := batch_Write [] (DB_TIMESTAMPINDEX, timestampIndex) (0 : int) in
  WriteBatch engine_ok db batch.

(** [WriteTimestampBlockIndex] (lines 622-626). *)
Definition WriteTimestampBlockIndex (engine_ok : bool) (db : CDBWrapper)
    (blockhashIndex : CTimestampBlockIndexKey)
    (logicalts : CTimestampBlockIndexValue.t) : bool * CDBWrapper :=
  let batch := batch_Write [] (DB_BLOCKHASHINDEX, blockhashIndex) logicalts in
  WriteBatch engine_ok db batch.

(** [ReadTimestampBlockIndex] (lines 628-636): the return value and the
    caller's [ltimestamp]. *)
Definition ReadTimestampBlockIndex (db : CDBWrapper) (hash : uint256)
    (ltimestamp : Z) : bool * Z :=
  match db_Read CTimestampBlockIndexValue.t db (DB_BLOCKHASHINDEX, hash) with
  | None => (false, ltimestamp)
  | Some lts => (true, CTimestampBlockIndexValue.ltimestamp lts)
  end.

(** [WriteFlag] (lines 638-640). *)
Definition WriteFlag (engine_ok : bool) (db : CDBWrapper) (name : string)
    (fValue : bool) : bool * CDBWrapper :=
  db_Write engine_ok db (DB_FLAG, name)
           (if fValue then "1"%char else "0"%char).

(** [ReadFlag] (lines 642-648): the return value and the caller's
    [fValue]. *)
Definition ReadFlag (db : CDBWrapper) (name : string) (fValue : bool)
    : bool * bool :=
  match db_Read ascii db (DB_FLAG, name) with
  | None => (false, fValue)
  | Some ch => (true, bool_decide (ch = "1"%char))
  end.

End BlockTreePoint.

(** ** The balance snapshot (CBlockTreeDB::Snapshot) *)

(** What [Snapshot] takes from outside txdb.cpp: the constant [COIN], the
    clock, [getAddressFromIndex] (which returns whether it knows the
    address type and the contents of [address] after the call, given the
    contents before it), and the text [sprintf] prints with ["%.8f"] for
    [(double) n / COIN]. *)
Class SnapshotEnv : Type := {
  COIN : Z;
  time_now : Z;
  getAddressFromIndex : Z → uint160 → string → bool * string;
  format_amount : CAmount → string
}.

(** A value pushed to the result: an integer, the double
    [(double) num / den] (not evaluated), or an array of objects, each
    given by its members, which are strings, in the order they were
    pushed. *)
Inductive Pushed : Type :=
| PInt (n : Z)
| PReal (num den : Z)
| PArr (items : list (list (string * string))).

(** The addresses [Snapshot] leaves out (lines 449-467). *)
Definition ignoredMap : list string :=
  ["RReUxSs5hGE39ELU23DfydX8riUuzdrHAE"; "RMUF3UDmzWFLSKV82iFbMaqzJpUnrWjcT4";
   "RA5imhVyJa7yHhggmBytWuDr923j2P1bxx"; "RBM5LofZFodMeewUzoMWcxedm3L3hYRaWg";
   "RAdcko2d94TQUcJhtFHZZjMyWBKEVfgn4J"; "RLzUaZ934k2EFCsAiVjrJqM8uU1vmMRFzk";
   "RMSZMWZXv4FhUgWhEo4R3AQXmRDJ6rsGyt"; "RUDrX1v5toCsJMUgtvBmScKjwCB5NaR8py";
   "RMSZMWZXv4FhUgWhEo4R3AQXmRDJ6rsGyt"; "RRvwmbkxR5YRzPGL5kMFHMe1AH33MeD8rN";
   "RQLQvSgpPAJNPgnpc8MrYsbBhep95nCS8L"; "RK8JtBV78HdvEPvtV5ckeMPSTojZPzHUTe";
   "RHVs2KaCTGUMNv3cyWiG1jkEvZjigbCnD2"; "RE3SVaDgdjkRPYA6TRobbthsfCmxQedVgF";
   "RW6S5Lw5ZCCvDyq4QV9vVy7jDHfnynr5mn"; "RTkJwAYtdXXhVsS3JXBAJPnKaBfMDEswF8";
   "RD6GgnrMpPaTSMn8vai6yiGA7mN4QGPVMY"]%string.

(** [c_str()], read as a C string: the characters before the first zero
    byte. *)
Fixpoint c_str (s : string) : string :=
  match s with
  | EmptyString => EmptyString
  | String c rest =>
      if bool_decide (c = zero_byte) then EmptyString
      else String c (c_str rest)
  end.

(** The variables the scan loop of [Snapshot] updates. *)
Record SnapshotScan : Type := mk_SnapshotScan {
  ss_address : string;
  ss_addressAmounts : gmap string CAmount;
  ss_totalAddresses : Z;
  ss_utxos : Z;
  ss_ignoredAddresses : Z
}.

(** The order [std::sort] uses on [std::pair<CAmount, std::string>]: by
    amount, then by address, strings being compared byte-wise. *)
Definition amount_addr_le (a b : CAmount * string) : Prop :=
  a.1 < b.1 ∨
  (a.1 = b.1 ∧
   bytes_compare (list_ascii_of_string a.2) (list_ascii_of_string b.2) ≠ Gt).

#[global] Instance amount_addr_le_dec : RelDecision amount_addr_le.
Proof. intros a b. unfold amount_addr_le. apply _. Defined.

(** Modelled from the spec: [SeekToLast] moves an iterator to the last
    entry, and [Prev] steps backwards; such an iterator is the list of the
    entries from the current one backwards, in decreasing key order. *)
Definition SeekToLast (it : CDBIterator) : CDBIterator := reverse it.

Section Snapshot.
Context {index_codec : IndexCodec} {snapshot_env : SnapshotEnv}.

(** One turn of the scan loop (lines 473-525): the variables after it, or
    [None] when the loop is left. *)
Definition Snapshot_body (e : bytes * bytes) (st : SnapshotScan)
    : option SnapshotScan :=
  let slKey := e.1 in
  match Unserialize ascii slKey with
  | None => None
  | Some (chType, ssKey) =>
      match Unserialize CAddressIndexIteratorKey.t ssKey with
      | None => None
      | Some (indexKey, _) =>
          if bool_decide (chType = DB_ADDRESSUNSPENTINDEX) then
            let slValue := e.2 in
            match @Unserialize CAmount CAmount_Serializable slValue with
            | None => None
            | Some (nValue, _) =>
                let address :=
                  (getAddressFromIndex
                     (CAddressIndexIteratorKey.type indexKey)
                     (CAddressIndexIteratorKey.hashBytes indexKey)
                     (ss_address st)).2 in
                if bool_decide (address ∈ ignoredMap) then
                  Some {| ss_address := address;
                          ss_addressAmounts := ss_addressAmounts st;
                          ss_totalAddresses := ss_totalAddresses st;
                          ss_utxos := ss_utxos st;
                          ss_ignoredAddresses := ss_ignoredAddresses st + 1 |}
                else
                  match ss_addressAmounts st !! address with
                  | None =>
                      Some {| ss_address := address;
                              ss_addressAmounts :=
                                <[address := nValue]> (ss_addressAmounts st);
                              ss_totalAddresses := ss_totalAddresses st + 1;
                              ss_utxos := ss_utxos st + 1;
                              ss_ignoredAddresses := ss_ignoredAddresses st |}
                  | Some amount =>
                      Some {| ss_address := address;
                              ss_addressAmounts :=
                                <[address := int64_add amount nValue]>
                                  (ss_addressAmounts st);
                              ss_totalAddresses := ss_totalAddresses st;
                              ss_utxos := ss_utxos st + 1;
                              ss_ignoredAddresses := ss_ignoredAddresses st |}
                  end
            end
          else Some st
      end
  end.

(** The scan loop (lines 471-526); [iter] holds the entries from the
    current one backwards. *)
Fixpoint Snapshot_loop (iter : CDBIterator) (st : SnapshotScan)
    : SnapshotScan :=
  match iter with
  | [] => st
  | e :: rest =>
      match Snapshot_body e st with
      | Some st' => Snapshot_loop rest st'
      | None => st
      end
  end.

(** The loop that fills [addressesSorted] (lines 539-551): the array, the
    total and [topN] after it. *)
Fixpoint Snapshot_select (top : Z) (vaddr : list (CAmount * string))
    (addressesSorted : list (list (string * string))) (total topN : Z)
    : list (list (string * string)) * Z * Z :=
  match vaddr with
  | [] => (addressesSorted, total, topN)
  | it :: rest =>
      let obj :=
        [("addr"%string, c_str it.2);
         ("amount"%string, format_amount it.1)] in
      let total := int64_add total it.1 in
      let addressesSorted := addressesSorted ++ [obj] in
      let topN := topN + 1 in
      if bool_decide (top = topN) then (addressesSorted, total, topN)
      else Snapshot_select top rest addressesSorted total topN
  end.

(** [Snapshot] (lines 439-575): the members of the object it returns.
    [ignoredAddresses] is the value the variable of that name, which the
    source does not initialize, holds when the scan starts;
    [startingHeight] and [endingHeight] are what [chainActive.Height()]
    answers before and after.  The tally of an address and [total] are
    [int64_t] sums; the counters count entries of the store and are kept
    as integers. *)
Definition Snapshot (db : CDBWrapper) (top : Z)
    (ignoredAddresses startingHeight endingHeight : Z)
    : list (string * Pushed) :=
  let result := [("start_time"%string, PInt time_now)] in
  let iter := NewIterator db in
  let st :=
    Snapshot_loop (SeekToLast iter)
      {| ss_address := ""; ss_addressAmounts := ∅; ss_totalAddresses := 0;
         ss_utxos := 0; ss_ignoredAddresses := ignoredAddresses |} in
  let vaddr :=
    (λ element, (element.2, element.1)) <$>
      map_to_list (ss_addressAmounts st) in
  let vaddr := reverse (merge_sort amount_addr_le vaddr) in
  let '(addressesSorted, total, topN) := Snapshot_select top vaddr [] 0 0 in
  let totalAddresses :=
    if bool_decide (top ≠ 0) then top else ss_totalAddresses st in
  let result :=
    if 0 <? totalAddresses then
      result ++
      [("addresses"%string, PArr addressesSorted);
       ("total"%string, PReal total COIN);
       ("average"%string, PReal (total ÷ COIN) totalAddresses)]
    else result in
  result ++
  [("utxos"%string, PInt (ss_utxos st));
   ("total_addresses"%string, PInt totalAddresses);
   ("ignored_addresses"%string, PInt (ss_ignoredAddresses st));
   ("start_height"%string, PInt startingHeight);
   ("ending_height"%string, PInt endingHeight)].

End Snapshot.

(** ** Notions used to state the properties of reads after writes *)

(** The last operation of a batch that names [key]. *)
Definition last_op (key : bytes) (batch : CDBBatch) : option BatchOp :=
  foldl (λ acc op, if decide (op_key op = key) then Some op else acc)
        None batch.

(** What a store that held [old] under a key holds under it once that
    operation has been applied. *)
Definition op_result (old : option bytes) (op : option BatchOp)
    : option bytes :=
  match op with
  | Some (OpWrite _ value) => Some value
  | Some (OpErase _) => None
  | None => old
  end.

(** The value paired with the last key of [vect] that satisfies [P]. *)
Definition last_value {K V : Type} (P : K → Prop) `{!∀ k, Decision (P k)}
    (vect : list (K * V)) : option V :=
  foldl (λ acc it, if decide (P it.1) then Some it.2 else acc) None vect.

(** What the typed read of a key yields when the store holds the
    serialization of [v] under it. *)
Definition reread {V : Type} `{!Serializable V} (v : V) : option V :=
  fst <$> Unserialize V (Serialize v).

(** A hash of the width the serializer reads back. *)
Definition full_width (h : uint256) : Prop := length (blob256 h) = 32%nat.

Section EntryOps.
Context {SproutMerkleTree SaplingMerkleTree : Type}.
Context {sprout_tree : MerkleTree SproutMerkleTree}.
Context {sapling_tree : MerkleTree SaplingMerkleTree}.
Context {coins_methods : CoinsMethods}.

(** The operations the loop that visits an entry adds to the batch. *)
Definition entry_ops (d : DeltaEntry SproutMerkleTree SaplingMerkleTree)
    : list BatchOp :=
  match d with
  | CoinEntry k e => coins_ops (k, e)
  | SproutAnchorEntry k e => anchor_ops DB_SPROUT_ANCHOR (k, e)
  | SaplingAnchorEntry k e => anchor_ops DB_SAPLING_ANCHOR (k, e)
  | SproutNullifierEntry k e => nullifier_ops DB_NULLIFIER (k, e)
  | SaplingNullifierEntry k e => nullifier_ops DB_SAPLING_NULLIFIER (k, e)
  end.

End EntryOps.

(** ** The logical keys

    Each key type with the payload the source gives it: what stands
    beside the tag in the [make_pair(tag, ...)] of the calls that write
    the key, and nothing for the scalar slots, whose key is the bare
    tag. *)

(** A value that its serializer writes and reads back as it is, which is
    the case of every value of the C++ type. *)
Definition round_trips {T : Type} `{!Serializable T} (x : T) : Prop :=
  Unserialize T (Serialize x) = Some (x, []).

Section LogicalKeys.
Context {index_codec : IndexCodec} {point_codec : PointCodec}.

Inductive LogicalKey : Type :=
| SproutAnchorKey (rt : uint256)
| SaplingAnchorKey (rt : uint256)
| NullifierKey (nf : uint256)
| SaplingNullifierKey (nf : uint256)
| CoinsKey (txid : uint256)
| BlockFilesKey (nFile : int)
| TxIndexKey (txid : uint256)
| AddressIndexKey (key : CAddressIndexKey.t)
| AddressUnspentKey (key : CAddressUnspentKey.t)
| TimestampIndexKey (key : CTimestampIndexKey.t)
| BlockHashIndexKey (key : CTimestampBlockIndexKey)
| SpentIndexKey (key : CSpentIndexKey)
| BlockIndexKey (hash : uint256)
| BestBlockKey
| BestSproutAnchorKey
| BestSaplingAnchorKey
| FlagKey (name : string)
| ReindexFlagKey
| LastBlockKey.

Definition key_type (k : LogicalKey) : KeyType :=
  match k with
  | SproutAnchorKey _ => K_SPROUT_ANCHOR
  | SaplingAnchorKey _ => K_SAPLING_ANCHOR
  | NullifierKey _ => K_NULLIFIER
  | SaplingNullifierKey _ => K_SAPLING_NULLIFIER
  | CoinsKey _ => K_COINS
  | BlockFilesKey _ => K_BLOCK_FILES
  | TxIndexKey _ => K_TXINDEX
  | AddressIndexKey _ => K_ADDRESSINDEX
  | AddressUnspentKey _ => K_ADDRESSUNSPENTINDEX
  | TimestampIndexKey _ => K_TIMESTAMPINDEX
  | BlockHashIndexKey _ => K_BLOCKHASHINDEX
  | SpentIndexKey _ => K_SPENTINDEX
  | BlockIndexKey _ => K_BLOCK_INDEX
  | BestBlockKey => K_BEST_BLOCK
  | BestSproutAnchorKey => K_BEST_SPROUT_ANCHOR
  | BestSaplingAnchorKey => K_BEST_SAPLING_ANCHOR
  | FlagKey _ => K_FLAG
  | ReindexFlagKey => K_REINDEX_FLAG
  | LastBlockKey => K_LAST_BLOCK
  end.

(** The bytes the engine is handed for a key, as the source builds them
    (lines 151, 134, 177, 274, 298, 375, 324, 579, 624, 312, 278, 192,
    194, 196, 639, 211 and 276). *)
Definition encode_key (k : LogicalKey) : bytes :=
  match k with
  | SproutAnchorKey rt => Serialize (DB_SPROUT_ANCHOR, rt)
  | SaplingAnchorKey rt => Serialize (DB_SAPLING_ANCHOR, rt)
  | NullifierKey nf => Serialize (DB_NULLIFIER, nf)
  | SaplingNullifierKey nf => Serialize (DB_SAPLING_NULLIFIER, nf)
  | CoinsKey txid => Serialize (DB_COINS, txid)
  | BlockFilesKey nFile => Serialize (DB_BLOCK_FILES, nFile)
  | TxIndexKey txid => Serialize (DB_TXINDEX, txid)
  | AddressIndexKey key => Serialize (DB_ADDRESSINDEX, key)
  | AddressUnspentKey key => Serialize (DB_ADDRESSUNSPENTINDEX, key)
  | TimestampIndexKey key => Serialize (DB_TIMESTAMPINDEX, key)
  | BlockHashIndexKey key => Serialize (DB_BLOCKHASHINDEX, key)
  | SpentIndexKey key => Serialize (DB_SPENTINDEX, key)
  | BlockIndexKey hash => Serialize (DB_BLOCK_INDEX, hash)
  | BestBlockKey => Serialize DB_BEST_BLOCK
  | BestSproutAnchorKey => Serialize DB_BEST_SPROUT_ANCHOR
  | BestSaplingAnchorKey => Serialize DB_BEST_SAPLING_ANCHOR
  | FlagKey name => Serialize (DB_FLAG, name)
  | ReindexFlagKey => Serialize DB_REINDEX_FLAG
  | LastBlockKey => Serialize DB_LAST_BLOCK
  end.

(** Modelled from the spec: the payload of a timestamp-index key is
    (timestamp, block hash), written as the four bytes of an
    [unsigned int] and the 32 bytes of the hash. *)
Definition CTimestampIndexKey_size : nat := 36.

(** Modelled from the spec: the payload of a block-hash-index key is the
    block hash, 32 bytes; [ReadTimestampBlockIndex] passes it as a
    [uint256] (line 631). *)
Definition CTimestampBlockIndexKey_size : nat := 32.

(** A key whose payload has the shape of its C++ type: a hash has its 32
    bytes, any other payload is read back as it was written, and the
    payloads of the two index keys above have their size. *)
Definition key_ok (k : LogicalKey) : Prop :=
  match k with
  | SproutAnchorKey h | SaplingAnchorKey h | NullifierKey h
  | SaplingNullifierKey h | CoinsKey h | TxIndexKey h | BlockIndexKey h =>
      full_width h
  | BlockFilesKey nFile => round_trips nFile
  | AddressIndexKey key => round_trips key
  | AddressUnspentKey key => round_trips key
  | TimestampIndexKey key =>
      round_trips key ∧ length (Serialize key) = CTimestampIndexKey_size
  | BlockHashIndexKey key =>
      round_trips key ∧
      length (Serialize key) = CTimestampBlockIndexKey_size
  | SpentIndexKey key => round_trips key
  | FlagKey name => round_trips name
  | BestBlockKey | BestSproutAnchorKey | BestSaplingAnchorKey
  | ReindexFlagKey | LastBlockKey => True
  end.

End LogicalKeys.

(** ** Further notions for the statistics scan and the loader *)

(** What the scan of [GetStats] adds to [nSerializedSize] from a cursor
    position: 32 plus the size of the value, for each record it visits. *)
Definition scanned_size `{!CoinsMethods} (pcursor : CDBIterator) : Z :=
  foldr (λ e acc, 32 + Z.of_nat (length e.2) + acc) 0
        (take (length (scanned_coins pcursor)) pcursor).

(** An entry the scan of [GetStats] reads as a coin record. *)
Definition coin_entry `{!CoinsMethods} (e : bytes * bytes) : Prop :=
  ∃ key coins, GetKey (ascii * uint256) e = Some (DB_COINS, key) ∧
               GetValue CCoins e = Some coins.

(** Every predecessor link of the map leads to a node of the map. *)
Definition links_resolve (m : BlockMap) : Prop :=
  ∀ hash node prev,
    m !! hash = Some node → CBlockIndex.pprev node = Some prev →
    is_Some (m !! prev).

(** Loading one record into the map; [None] when the loader dereferences
    a null node pointer. *)
Definition load_one `{!BlockIndexEnv} (diskindex : CDiskBlockIndex.t)
    (m : BlockMap) : option BlockMap :=
  fst <$> load_entry diskindex m.

(** ** Sample instances for the point operations

    Stand-ins for the payload types and serializers that live outside
    txdb.cpp, used to run the point operations on explicit inputs. *)
Module SamplePoint.

(** [int]: four bytes, little-endian. *)
Definition int_codec : Serializable int :=
  {| Serialize := λ n : int, Sample.le_bytes 4 n;
     Unserialize := λ s,
       match Sample.read 4 s with
       | Some (v, s1) => Some (Sample.signed 32 (Sample.le_value v), s1)
       | None => None
       end |}.

(** [std::string]: a length byte and the characters. *)
Definition string_codec : Serializable string :=
  {| Serialize := λ s : string,
       Sample.byte (Z.of_nat (String.length s)) :: list_ascii_of_string s;
     Unserialize := λ s,
       match s with
       | [] => None
       | n :: s1 =>
           match Sample.read (nat_of_ascii n) s1 with
           | Some (chars, s2) => Some (string_of_list_ascii chars, s2)
           | None => None
           end
       end |}.

Definition timestamp_value_codec : Serializable CTimestampBlockIndexValue.t :=
  {| Serialize := λ v : CTimestampBlockIndexValue.t,
       Sample.le_bytes 4 (CTimestampBlockIndexValue.ltimestamp v);
     Unserialize := λ s,
       match Sample.read 4 s with
       | Some (v, s1) =>
           Some (CTimestampBlockIndexValue.mk (Sample.le_value v), s1)
       | None => None
       end |}.

(** The record persisted for a node: the fields of the node, the hash of
    the predecessor standing for the pointer to it. *)
Definition disk_index_of (pindex : CBlockIndex.t) : CDiskBlockIndex.t :=
  {| CDiskBlockIndex.hashPrev :=
       default uint256_zero (CBlockIndex.pprev pindex);
     CDiskBlockIndex.nHeight := CBlockIndex.nHeight pindex;
     CDiskBlockIndex.nFile := CBlockIndex.nFile pindex;
     CDiskBlockIndex.nDataPos := CBlockIndex.nDataPos pindex;
     CDiskBlockIndex.nUndoPos := CBlockIndex.nUndoPos pindex;
     CDiskBlockIndex.hashSproutAnchor := CBlockIndex.hashSproutAnchor pindex;
     CDiskBlockIndex.nVersion := CBlockIndex.nVersion pindex;
     CDiskBlockIndex.hashMerkleRoot := CBlockIndex.hashMerkleRoot pindex;
     CDiskBlockIndex.hashFinalSaplingRoot :=
       CBlockIndex.hashFinalSaplingRoot pindex;
     CDiskBlockIndex.nTime := CBlockIndex.nTime pindex;
     CDiskBlockIndex.nBits := CBlockIndex.nBits pindex;
     CDiskBlockIndex.nNonce := CBlockIndex.nNonce pindex;
     CDiskBlockIndex.nSolution := CBlockIndex.nSolution pindex;
     CDiskBlockIndex.nStatus := CBlockIndex.nStatus pindex;
     CDiskBlockIndex.nCachedBranchId := CBlockIndex.nCachedBranchId pindex;
     CDiskBlockIndex.nTx := CBlockIndex.nTx pindex;
     CDiskBlockIndex.nSproutValue := CBlockIndex.nSproutValue pindex |}.

(** File infos and transaction positions are numbers; a spent-index key
    and a block-hash key are hashes; a spent-index value is the spending
    transaction id, null when it is the zero hash; an address-unspent value
    is null when its amount is -1. *)
Definition point_codec : PointCodec :=
  {| CBlockFileInfo := int;
     CDiskTxPos := int;
     CSpentIndexKey := uint256;
     CSpentIndexValue := uint256;
     CTimestampBlockIndexKey := uint256;
     int_Serializable := int_codec;
     string_Serializable := string_codec;
     CBlockFileInfo_Serializable := int_codec;
     CDiskTxPos_Serializable := int_codec;
     CSpentIndexKey_Serializable := uint256_Serializable;
     CSpentIndexValue_Serializable := uint256_Serializable;
     CTimestampBlockIndexKey_Serializable := uint256_Serializable;
     CTimestampBlockIndexValue_Serializable := timestamp_value_codec;
     CSpentIndexValue_IsNull := IsNull;
     CAddressUnspentValue_IsNull :=
       λ v, CAddressUnspentValue.satoshis v =? -1;
     CDiskBlockIndex_of := disk_index_of |}.

(** *** Sample data *)

Definition block_x : uint256 * CBlockIndex.t :=
  (Sample.txid "x", CBlockIndex.new).

(** The same block, its node carrying a height. *)
Definition block_x' : uint256 * CBlockIndex.t :=
  (Sample.txid "x",
   copy_from_disk None
     (Sample.disk_record (Sample.txid "x") (Sample.txid "x") 7)
     CBlockIndex.new).

(** A coin set whose second record has a value that is cut short. *)
Definition broken_coin_set : CDBWrapper :=
  list_to_map
    [Sample.coins_entry (Sample.txid "a") [Sample.out1];
     (Serialize (DB_COINS, Sample.txid "b"), ["002"%char])].

(** An address-unspent index with one output of [addrA], then one of
    [addrB]. *)
Definition unspent_entry (a : uint160) (satoshis : Z) : bytes * bytes :=
  (@Serialize _ (@pair_Serializable _ _ _ Sample.unspent_key_codec)
     (DB_ADDRESSUNSPENTINDEX,
      CAddressUnspentKey.mk 1 a (Sample.txid "t") 0),
   @Serialize _ Sample.unspent_value_codec
     (CAddressUnspentValue.mk satoshis 5)).

Definition unspent_index : CDBWrapper :=
  list_to_map [unspent_entry Sample.addrA 100; unspent_entry Sample.addrB 7].

(** Addresses are shown as the bytes of their hash, amounts as the eight
    bytes of their number. *)
Definition snapshot_env : SnapshotEnv :=
  {| COIN := 100000000;
     time_now := 0;
     getAddressFromIndex := λ type hash address,
       if (type =? 1) || (type =? 2)
       then (true, string_of_list_ascii (blob160 hash))
       else (false, address);
     format_amount := λ n, string_of_list_ascii (Sample.le_bytes 8 n) |}.

(** A block index with one consistent record. *)
Definition one_block_index : CDBWrapper :=
  list_to_map [Sample.block_entry Sample.consistent].

(** A consistent record of hash [hash] whose predecessor is [prev]. *)
Definition linked_record (hash prev : uint256) (height : Z)
    : CDiskBlockIndex.t :=
  CDiskBlockIndex.mk prev height 0 0 0 uint256_zero 0 hash hash
    0 0 uint256_zero [] 0 None 0 None.

(** A block index with the record of block "x" and that of its successor
    "w", which the cursor meets first. *)
Definition linked_block_index : CDBWrapper :=
  list_to_map
    [Sample.block_entry Sample.consistent;
     Sample.block_entry (linked_record (Sample.txid "w") (Sample.txid "x") 2)].

(** A [mapBlockIndex] that knows the block "v" and, through it, its
    predecessor "u". *)
Definition known_blocks : BlockMap :=
  {[ Sample.txid "v" :=
       copy_from_disk (Some (Sample.txid "u"))
         (linked_record (Sample.txid "v") (Sample.txid "u") 9)
         CBlockIndex.new;
     Sample.txid "u" := CBlockIndex.new ]}.

(** The map the loader leaves when [linked_block_index] is loaded into
    [known_blocks]. *)
Definition loaded_linked : BlockMap :=
  default ∅
    (snd <$> @LoadBlockIndexGuts Sample.block_env linked_block_index
               known_blocks).

(** An address-unspent index in which [addrA] has two outputs of the
    largest amount and [addrB] one output of 7. *)
Definition unspent_entry_of (a : uint160) (txhash : uint256) (satoshis : Z)
    : bytes * bytes :=
  (@Serialize _ (@pair_Serializable _ _ _ Sample.unspent_key_codec)
     (DB_ADDRESSUNSPENTINDEX, CAddressUnspentKey.mk 1 a txhash 0),
   @Serialize _ Sample.unspent_value_codec
     (CAddressUnspentValue.mk satoshis 5)).

Definition wide_unspent_index : CDBWrapper :=
  list_to_map
    [unspent_entry_of Sample.addrA (Sample.txid "s") (2 ^ 63 - 1);
     unspent_entry_of Sample.addrA (Sample.txid "t") (2 ^ 63 - 1);
     unspent_entry_of Sample.addrB (Sample.txid "t") 7].

End SamplePoint.

(** ** Notions used to state the properties of the snapshot *)

(** The value pushed to the result under a name, if any. *)
Fixpoint member (name : string) (result : list (string * Pushed))
    : option Pushed :=
  match result with
  | [] => None
  | (k, v) :: rest => if decide (k = name) then Some v else member name rest
  end.

(** The variables of [Snapshot] when its scan loop is left. *)
Definition Snapshot_scan `{!IndexCodec, !SnapshotEnv} (db : CDBWrapper)
    (ignoredAddresses : Z) : SnapshotScan :=
  Snapshot_loop (SeekToLast (NewIterator db))
    {| ss_address := ""; ss_addressAmounts := ∅; ss_totalAddresses := 0;
       ss_utxos := 0; ss_ignoredAddresses := ignoredAddresses |}.

(** The object [Snapshot] reports for an address and its amount. *)
Definition reported `{!SnapshotEnv} (it : CAmount * string)
    : list (string * string) :=
  [("addr"%string, c_str it.2); ("amount"%string, format_amount it.1)].

(** The sum of the amounts of a list of (amount, address) pairs. *)
Definition sum_amounts (vaddr : list (CAmount * string)) : Z :=
  foldr (λ it acc, it.1 + acc) 0 vaddr.

(** What the scan loop keeps true of its variables: the counter of
    addresses is the number of tallied addresses, and no tallied address
    is one of those left out. *)
Definition tally_ok (st : SnapshotScan) : Prop :=
  ss_totalAddresses st = Z.of_nat (size (ss_addressAmounts st)) ∧
  ∀ address, is_Some (ss_addressAmounts st !! address) →
             address ∉ ignoredMap.

(** The amounts an index value decodes to are values of [int64_t], as
    they are for the serializer of [CAmount]. *)
Definition amounts_decode_in_range `{!IndexCodec} : Prop :=
  ∀ (s : bytes) (nValue : CAmount) (rest : bytes),
    @Unserialize CAmount CAmount_Serializable s = Some (nValue, rest) →
    int64_range nValue.

(** * Part II: properties *)

(** Case analysis on membership in an explicit list. *)
Ltac elem_cases H :=
  repeat (apply elem_of_cons in H as [H|H]; [try subst|]);
  try (apply elem_of_nil in H; destruct H).

(** ** Key tags *)

Lemma tag_collisions (k1 k2 : KeyType) :
  tag k1 = tag k2 → k1 = k2 ∨ shared_tag k1 k2.
Proof.
  unfold shared_tag.
  destruct k1, k2; cbn; intros H; try discriminate H; tauto.
Qed.

Lemma shared_tag_other_store (k1 k2 : KeyType) :
  shared_tag k1 k2 → store_of k1 ≠ store_of k2.
Proof.
  intros [[-> ->]|[[-> ->]|[[-> ->]|[-> ->]]]]; discriminate.
Qed.

Lemma encode_inj_same_store (k1 k2 : KeyType) (p1 p2 : bytes) :
  store_of k1 = store_of k2 → encode k1 p1 = encode k2 p2 → k1 = k2 ∧ p1 = p2.
Proof.
  intros Hs [= Ht Hp]. split; [|done].
  destruct (tag_collisions _ _ Ht) as [->|Hsh]; [done|].
  by apply shared_tag_other_store in Hsh.
Qed.

(** C1 (as stated, refuted): distinct key types do not always have
    distinct tag bytes -- the Sapling nullifier set and the timestamp index
    both use 'S'. *)
Lemma tags_not_pairwise_distinct :
  ¬ (∀ k1 k2 : KeyType, k1 ≠ k2 → tag k1 ≠ tag k2).
Proof.
  intros H.
  apply (H K_SAPLING_NULLIFIER K_TIMESTAMPINDEX); [discriminate | reflexivity].
Qed.

Lemma round_trips_inj {T : Type} `{!Serializable T} (x y : T) :
  round_trips x → round_trips y → Serialize x = Serialize y → x = y.
Proof.
  unfold round_trips. intros Hx Hy Heq. rewrite Heq, Hy in Hx. congruence.
Qed.

Lemma blob256_inj h1 h2 : blob256 h1 = blob256 h2 → h1 = h2.
Proof. destruct h1, h2; simpl; congruence. Qed.

Section KeyFacts.
Context {index_codec : IndexCodec} {point_codec : PointCodec}.

(** A key is its tag byte followed by its payload. *)
Lemma encode_key_tag (k : LogicalKey) :
  ∃ payload, encode_key k = encode (key_type k) payload.
Proof. destruct k; by eexists. Qed.

(** Keys of the same type with the same bytes are the same key. *)
Lemma encode_key_inj_same_type (k1 k2 : LogicalKey) :
  key_ok k1 → key_ok k2 → key_type k1 = key_type k2 →
  encode_key k1 = encode_key k2 → k1 = k2.
Proof.
  destruct k1, k2; try discriminate; try done; simpl;
    intros H1 H2 _ [= Hp]; f_equal;
    try (by apply blob256_inj);
    try (by apply round_trips_inj);
    by apply round_trips_inj; [apply H1|apply H2|].
Qed.

(** Keys of two types that share a tag byte differ in length. *)
Lemma shared_tag_lengths (k1 k2 : LogicalKey) :
  key_ok k1 → key_ok k2 → shared_tag (key_type k1) (key_type k2) →
  length (encode_key k1) ≠ length (encode_key k2).
Proof.
  intros H1 H2 [[E1 E2]|[[E1 E2]|[[E1 E2]|[E1 E2]]]];
    destruct k1; try discriminate E1; destruct k2; try discriminate E2;
    simpl in *;
    unfold full_width, CTimestampIndexKey_size,
      CTimestampBlockIndexKey_size in *; lia.
Qed.

(** C1 (amended): two distinct logical keys, whatever their types and
    stores, have different encodings.  Where their types differ and yet
    carry the same tag byte, the types are Sapling-nullifier /
    timestamp-index ('S') or block-hash-index / best-Sapling-anchor ('z'),
    they belong to different stores, and the two keys differ in length. *)
Theorem encode_key_injective (k1 k2 : LogicalKey) :
  key_ok k1 → key_ok k2 → k1 ≠ k2 →
  encode_key k1 ≠ encode_key k2 ∧
  (key_type k1 ≠ key_type k2 → tag (key_type k1) = tag (key_type k2) →
   shared_tag (key_type k1) (key_type k2) ∧
   store_of (key_type k1) ≠ store_of (key_type k2) ∧
   length (encode_key k1) ≠ length (encode_key k2)).
Proof.
  intros H1 H2 Hne.
  assert (key_type k1 ≠ key_type k2 → tag (key_type k1) = tag (key_type k2) →
          shared_tag (key_type k1) (key_type k2) ∧
          store_of (key_type k1) ≠ store_of (key_type k2) ∧
          length (encode_key k1) ≠ length (encode_key k2)) as Hshared.
  { intros Hty Htag.
    destruct (tag_collisions _ _ Htag) as [?|Hsh]; [done|].
    split; [done|]. split; [by apply shared_tag_other_store|].
    by apply shared_tag_lengths. }
  split; [|done]. intros Heq.
  destruct (decide (key_type k1 = key_type k2)) as [Hty|Hty].
  - by apply Hne, encode_key_inj_same_type.
  - destruct (encode_key_tag k1) as [p1 Hp1].
    destruct (encode_key_tag k2) as [p2 Hp2].
    assert (tag (key_type k1) = tag (key_type k2)) as Htag.
    { rewrite Hp1, Hp2 in Heq. by injection Heq. }
    destruct (Hshared Hty Htag) as (_ & _ & Hlen). by rewrite Heq in Hlen.
Qed.

End KeyFacts.

(** A Sapling-nullifier key and a timestamp-index key begin with the same
    tag byte 'S'; they are different keys, of different lengths. *)
Lemma encode_key_injective_witness :
  @encode_key Sample.index_codec SamplePoint.point_codec
    (SaplingNullifierKey (Sample.txid "n")) ≠
  @encode_key Sample.index_codec SamplePoint.point_codec
    (TimestampIndexKey (CTimestampIndexKey.mk 5 (Sample.txid "n"))) ∧
  length (@encode_key Sample.index_codec SamplePoint.point_codec
            (SaplingNullifierKey (Sample.txid "n"))) ≠
  length (@encode_key Sample.index_codec SamplePoint.point_codec
            (TimestampIndexKey (CTimestampIndexKey.mk 5 (Sample.txid "n")))).
Proof.
  destruct (@encode_key_injective Sample.index_codec SamplePoint.point_codec
              (SaplingNullifierKey (Sample.txid "n"))
              (TimestampIndexKey (CTimestampIndexKey.mk 5 (Sample.txid "n"))))
    as [Hne Hshared].
  - vm_compute. reflexivity.
  - split; vm_compute; reflexivity.
  - discriminate.
  - split; [exact Hne|]. apply Hshared; [discriminate|reflexivity].
Defined.

(** ** The flush: draining the maps *)

Lemma lookup_erase_visited {V : Type} (its : list (uint256 * V))
    (m : gmap uint256 V) (k : uint256) :
  erase_visited its m !! k = if decide (k ∈ its.*1) then None else m !! k.
Proof.
  unfold erase_visited. revert m.
  induction its as [|[k' v] its IH]; intros m; [done|].
  cbn [foldl fmap list_fmap fst]. rewrite IH.
  destruct (decide (k = k')) as [->|Hne].
  - rewrite lookup_delete_eq.
    rewrite (decide_True (P := k' ∈ k' :: its.*1)) by apply list_elem_of_here.
    by case_decide.
  - rewrite lookup_delete_ne by done.
    destruct (decide (k ∈ its.*1)) as [Hin|Hnin].
    + rewrite decide_True; [done | by apply list_elem_of_further].
    + rewrite decide_False; [done|].
      intros [?|?]%elem_of_cons; done.
Qed.

Lemma erase_visited_all {V : Type} (m : gmap uint256 V) :
  erase_visited (map_to_list m) m = ∅.
Proof.
  apply map_eq. intros k. rewrite lookup_erase_visited, lookup_empty.
  case_decide as H; [done|].
  destruct (m !! k) as [v|] eqn:Hk; [|done].
  exfalso. apply H. apply list_elem_of_fmap. exists (k, v).
  split; [done|]. by apply elem_of_map_to_list.
Qed.

Lemma BatchWriteNullifiers_loop_map dbChar its batch m :
  (BatchWriteNullifiers_loop dbChar its batch m).2 = erase_visited its m.
Proof.
  revert batch m.
  induction its as [|[k e] its IH]; intros batch m; simpl; [done|]. apply IH.
Qed.

Lemma BatchWriteAnchors_loop_map {Tree : Type} `{!MerkleTree Tree}
    dbChar (its : list (uint256 * CAnchorsCacheEntry.t Tree)) batch m :
  (BatchWriteAnchors_loop dbChar its batch m).2 = erase_visited its m.
Proof.
  revert batch m.
  induction its as [|[k e] its IH]; intros batch m; simpl; [done|]. apply IH.
Qed.

Lemma BatchWrite_coins_loop_map `{!CoinsMethods} its st :
  cl_map (BatchWrite_coins_loop its st) = erase_visited its (cl_map st).
Proof.
  revert st.
  induction its as [|[k e] its IH]; intros st; simpl; [done|]. by rewrite IH.
Qed.

(** ** The flush: the batch it assembles *)

Lemma BatchWriteNullifiers_loop_batch dbChar its batch m :
  (BatchWriteNullifiers_loop dbChar its batch m).1 =
  batch ++ flat_map (nullifier_ops dbChar) its.
Proof.
  revert batch m.
  induction its as [|[k e] its IH]; intros batch m; simpl.
  - by rewrite app_nil_r.
  - rewrite IH. unfold nullifier_ops, batch_Erase, batch_Write; simpl.
    repeat case_match; simpl; by rewrite <- ?app_assoc.
Qed.

Lemma BatchWriteAnchors_loop_batch {Tree : Type} `{!MerkleTree Tree}
    dbChar (its : list (uint256 * CAnchorsCacheEntry.t Tree)) batch m :
  (BatchWriteAnchors_loop dbChar its batch m).1 =
  batch ++ flat_map (anchor_ops dbChar) its.
Proof.
  revert batch m.
  induction its as [|[k e] its IH]; intros batch m; simpl.
  - by rewrite app_nil_r.
  - rewrite IH. unfold anchor_ops, batch_Erase, batch_Write; simpl.
    repeat case_match; simpl; by rewrite <- ?app_assoc.
Qed.

Lemma BatchWrite_coins_loop_batch `{!CoinsMethods} its st :
  cl_batch (BatchWrite_coins_loop its st) =
  cl_batch st ++ flat_map coins_ops its.
Proof.
  revert st.
  induction its as [|[k e] its IH]; intros st; simpl.
  - by rewrite app_nil_r.
  - rewrite IH. unfold coins_ops, batch_Erase, batch_Write; simpl.
    repeat case_match; simpl; by rewrite <- ?app_assoc.
Qed.

Lemma BatchWrite_best_app batch h1 h2 h3 :
  BatchWrite_best batch h1 h2 h3 = batch ++ BatchWrite_best [] h1 h2 h3.
Proof.
  unfold BatchWrite_best, batch_Write.
  repeat case_match; simpl; by rewrite <- ?app_assoc, ?app_nil_r.
Qed.

Lemma BatchWrite_best_writes h1 h2 h3 :
  BatchWrite_best [] h1 h2 h3 =
  best_write K_BEST_BLOCK h1 ++ best_write K_BEST_SPROUT_ANCHOR h2 ++
  best_write K_BEST_SAPLING_ANCHOR h3.
Proof.
  unfold BatchWrite_best, best_write, batch_Write.
  by destruct (IsNull h1), (IsNull h2), (IsNull h3).
Qed.

Lemma best_write_other k k' h :
  tag k ≠ tag k' → Forall (λ op, op_key op ≠ encode k []) (best_write k' h).
Proof.
  intros Hne. unfold best_write.
  destruct (IsNull h); constructor; [|constructor].
  simpl. unfold encode. congruence.
Qed.

(** Keys of the operations of one entry. *)
Lemma nullifier_ops_key dbChar k e op :
  op ∈ nullifier_ops dbChar (k, e) → op_key op = dbChar :: blob256 k.
Proof.
  unfold nullifier_ops, batch_Erase, batch_Write; simpl.
  repeat case_match; simpl; intros Hin; by elem_cases Hin.
Qed.

Lemma anchor_ops_key {Tree : Type} `{!MerkleTree Tree} dbChar k
    (e : CAnchorsCacheEntry.t Tree) op :
  op ∈ anchor_ops dbChar (k, e) → op_key op = dbChar :: blob256 k.
Proof.
  unfold anchor_ops, batch_Erase, batch_Write; simpl.
  repeat case_match; simpl; intros Hin; by elem_cases Hin.
Qed.

Lemma coins_ops_key `{!CoinsMethods} k e op :
  op ∈ coins_ops (k, e) → op_key op = DB_COINS :: blob256 k.
Proof.
  unfold coins_ops, batch_Erase, batch_Write; simpl.
  repeat case_match; simpl; intros Hin; by elem_cases Hin.
Qed.

Lemma best_ops_key h1 h2 h3 op :
  op ∈ BatchWrite_best [] h1 h2 h3 →
  op = OpWrite [DB_BEST_BLOCK] (blob256 h1) ∨
  op = OpWrite [DB_BEST_SPROUT_ANCHOR] (blob256 h2) ∨
  op = OpWrite [DB_BEST_SAPLING_ANCHOR] (blob256 h3).
Proof.
  unfold BatchWrite_best, batch_Write.
  destruct (IsNull h1), (IsNull h2), (IsNull h3); simpl; intros Hin;
    elem_cases Hin; tauto.
Qed.

Lemma elem_of_flat_map_to_list {V : Type} (f : uint256 * V → list BatchOp)
    (m : gmap uint256 V) op :
  op ∈ flat_map f (map_to_list m) ↔ ∃ k e, m !! k = Some e ∧ op ∈ f (k, e).
Proof.
  rewrite list_elem_of_In, in_flat_map. split.
  - intros [[k e] [Hin Hop]]. exists k, e.
    by rewrite <- elem_of_map_to_list, !list_elem_of_In.
  - intros (k & e & Hm & Hop). exists (k, e).
    by rewrite <- !list_elem_of_In, elem_of_map_to_list.
Qed.

(** ** The flush: effect of a batch on one key *)

Lemma WriteBatch_db engine_ok db batch :
  (WriteBatch engine_ok db batch).2 =
  if engine_ok then foldl apply_op db batch else db.
Proof. by destruct engine_ok. Qed.

Lemma apply_batch_untouched (k : bytes) (batch : CDBBatch) (db : CDBWrapper) :
  Forall (λ op, op_key op ≠ k) batch →
  foldl apply_op db batch !! k = db !! k.
Proof.
  revert db. induction batch as [|op batch IH]; intros db Hall; [done|].
  apply Forall_cons in Hall as [Hop Hall]. simpl. rewrite IH by done.
  destruct op; simpl in *.
  - by rewrite lookup_insert_ne.
  - by rewrite lookup_delete_ne.
Qed.

Lemma apply_batch_no_write (k : bytes) (batch : CDBBatch) (db : CDBWrapper) :
  Forall (λ op, is_write_to k op = false) batch →
  foldl apply_op db batch !! k = db !! k ∨ foldl apply_op db batch !! k = None.
Proof.
  revert db. induction batch as [|op batch IH]; intros db Hall; [by left|].
  apply Forall_cons in Hall as [Hop Hall]. simpl.
  destruct (IH (apply_op db op) Hall) as [->| ->]; [|by right].
  destruct op as [k' v|k']; simpl in *.
  - apply bool_decide_eq_false in Hop. left. by rewrite lookup_insert_ne.
  - destruct (decide (k' = k)) as [->|Hne].
    + right. apply lookup_delete_eq.
    + left. by rewrite lookup_delete_ne.
Qed.

Lemma apply_batch_last_write (k v : bytes) (l1 l2 : CDBBatch)
    (db : CDBWrapper) :
  Forall (λ op, op_key op ≠ k) l2 →
  foldl apply_op db (l1 ++ OpWrite k v :: l2) !! k = Some v.
Proof.
  intros Hall. rewrite foldl_app. simpl.
  rewrite apply_batch_untouched by done. apply lookup_insert_eq.
Qed.

(** A slot write surrounded by operations that do not name the slot. *)
Lemma best_slot_of_batch engine_ok db pre post k h :
  Forall (λ op, op_key op ≠ encode k []) pre →
  Forall (λ op, op_key op ≠ encode k []) post →
  best_slot_spec engine_ok db
    (WriteBatch engine_ok db (pre ++ best_write k h ++ post)).2
    (pre ++ best_write k h ++ post) k h.
Proof.
  intros Hpre Hpost. unfold best_slot_spec, best_write.
  rewrite WriteBatch_db. destruct (IsNull h); simpl.
  - assert (Forall (λ op, op_key op ≠ encode k []) (pre ++ post)) as Hall
      by (by apply Forall_app).
    split; [done|]. destruct engine_ok; [|done].
    by apply apply_batch_untouched.
  - split.
    + apply elem_of_app. right. apply list_elem_of_here.
    + destruct engine_ok; [|done]. by apply apply_batch_last_write.
Qed.

(** ** The flush: main results *)

Section Flush.
Context {SproutMerkleTree SaplingMerkleTree : Type}.
Context {sprout_tree : MerkleTree SproutMerkleTree}.
Context {sapling_tree : MerkleTree SaplingMerkleTree}.
Context {coins_methods : CoinsMethods}.
Context (engine_ok : bool) (db : CDBWrapper).
Context (mapCoins : CCoinsMap).
Context (hashBlock hashSproutAnchor hashSaplingAnchor : uint256).
Context
  (mapSproutAnchors : gmap uint256 (CAnchorsCacheEntry.t SproutMerkleTree)).
Context
  (mapSaplingAnchors : gmap uint256 (CAnchorsCacheEntry.t SaplingMerkleTree)).
Context (mapSproutNullifiers mapSaplingNullifiers : CNullifiersMap).

Lemma BatchWrite_batch :
  fl_batch (BatchWrite engine_ok db mapCoins hashBlock hashSproutAnchor
              hashSaplingAnchor mapSproutAnchors mapSaplingAnchors
              mapSproutNullifiers mapSaplingNullifiers) =
  loops_ops mapCoins mapSproutAnchors mapSaplingAnchors
            mapSproutNullifiers mapSaplingNullifiers ++
  BatchWrite_best [] hashBlock hashSproutAnchor hashSaplingAnchor.
Proof.
  unfold loops_ops, BatchWrite; cbn [fl_batch].
  rewrite BatchWrite_best_app.
  unfold BatchWriteNullifiers, BatchWriteAnchors, BatchWrite_coins.
  rewrite !BatchWriteNullifiers_loop_batch, !BatchWriteAnchors_loop_batch,
    BatchWrite_coins_loop_batch.
  cbn [cl_batch app]. by rewrite <- !app_assoc.
Qed.

Lemma BatchWrite_db :
  fl_db (BatchWrite engine_ok db mapCoins hashBlock hashSproutAnchor
           hashSaplingAnchor mapSproutAnchors mapSaplingAnchors
           mapSproutNullifiers mapSaplingNullifiers) =
  (WriteBatch engine_ok db
     (fl_batch (BatchWrite engine_ok db mapCoins hashBlock hashSproutAnchor
                  hashSaplingAnchor mapSproutAnchors mapSaplingAnchors
                  mapSproutNullifiers mapSaplingNullifiers))).2.
Proof. done. Qed.

Lemma loops_ops_entry op :
  op ∈ loops_ops mapCoins mapSproutAnchors mapSaplingAnchors
                 mapSproutNullifiers mapSaplingNullifiers →
  (∃ k e, mapCoins !! k = Some e ∧ op ∈ coins_ops (k, e)) ∨
  (∃ k e, mapSproutAnchors !! k = Some e ∧
          op ∈ anchor_ops DB_SPROUT_ANCHOR (k, e)) ∨
  (∃ k e, mapSaplingAnchors !! k = Some e ∧
          op ∈ anchor_ops DB_SAPLING_ANCHOR (k, e)) ∨
  (∃ k e, mapSproutNullifiers !! k = Some e ∧
          op ∈ nullifier_ops DB_NULLIFIER (k, e)) ∨
  (∃ k e, mapSaplingNullifiers !! k = Some e ∧
          op ∈ nullifier_ops DB_SAPLING_NULLIFIER (k, e)).
Proof.
  unfold loops_ops.
  rewrite !elem_of_app, !elem_of_flat_map_to_list. tauto.
Qed.

Lemma loops_ops_key op :
  op ∈ loops_ops mapCoins mapSproutAnchors mapSaplingAnchors
                 mapSproutNullifiers mapSaplingNullifiers →
  ∃ k h, op_key op = encode k h ∧
         k ∈ [K_COINS; K_SPROUT_ANCHOR; K_SAPLING_ANCHOR; K_NULLIFIER;
              K_SAPLING_NULLIFIER].
Proof.
  intros H. apply loops_ops_entry in H.
  destruct H as [(k & e & _ & H)|[(k & e & _ & H)|[(k & e & _ & H)|
                [(k & e & _ & H)|(k & e & _ & H)]]]].
  - apply coins_ops_key in H. exists K_COINS, (blob256 k).
    split; [exact H|]. repeat constructor.
  - apply anchor_ops_key in H. exists K_SPROUT_ANCHOR, (blob256 k).
    split; [exact H|]. repeat constructor.
  - apply anchor_ops_key in H. exists K_SAPLING_ANCHOR, (blob256 k).
    split; [exact H|]. repeat constructor.
  - apply nullifier_ops_key in H. exists K_NULLIFIER, (blob256 k).
    split; [exact H|]. repeat constructor.
  - apply nullifier_ops_key in H. exists K_SAPLING_NULLIFIER, (blob256 k).
    split; [exact H|]. repeat constructor.
Qed.

(** The loops only name keys of the five map-backed key types; within the
    chainstate store no other key type has one of their tags. *)
Lemma loops_ops_avoid (k : KeyType) (p : bytes) :
  store_of k = Chainstate →
  k ∉ [K_COINS; K_SPROUT_ANCHOR; K_SAPLING_ANCHOR; K_NULLIFIER;
       K_SAPLING_NULLIFIER] →
  Forall (λ op, op_key op ≠ encode k p)
         (loops_ops mapCoins mapSproutAnchors mapSaplingAnchors
                    mapSproutNullifiers mapSaplingNullifiers).
Proof.
  intros Hstore Hk. apply Forall_forall. intros op Hop.
  apply loops_ops_key in Hop as (k' & h & -> & Hk').
  intros Heq. apply encode_inj_same_store in Heq as [-> _]; [done|].
  rewrite Hstore. by elem_cases Hk'.
Qed.

(** What one dirty entry contributes, in terms of [delta_op]. *)
Lemma dirty_entry_ops (d : DeltaEntry SproutMerkleTree SaplingMerkleTree) :
  delta_dirty d = true →
  match d with
  | CoinEntry k e => coins_ops (k, e)
  | SproutAnchorEntry k e => anchor_ops DB_SPROUT_ANCHOR (k, e)
  | SaplingAnchorEntry k e => anchor_ops DB_SAPLING_ANCHOR (k, e)
  | SproutNullifierEntry k e => nullifier_ops DB_NULLIFIER (k, e)
  | SaplingNullifierEntry k e => nullifier_ops DB_SAPLING_NULLIFIER (k, e)
  end = match delta_op d with Some op => [op] | None => [] end.
Proof.
  destruct d as [k e|k e|k e|k e|k e]; simpl; intros Hd;
    unfold coins_ops, anchor_ops, nullifier_ops, delta_op,
      batch_Erase, batch_Write; simpl; rewrite Hd; simpl.
  - by destruct (CCoins_IsPruned _).
  - destruct (CAnchorsCacheEntry.entered e); simpl; [|done].
    by destruct (bool_decide _).
  - destruct (CAnchorsCacheEntry.entered e); simpl; [|done].
    by destruct (bool_decide _).
  - by destruct (CNullifiersCacheEntry.entered e).
  - by destruct (CNullifiersCacheEntry.entered e).
Qed.

(** C2 (amended): every dirty entry handed to the flush is turned into the
    operation [delta_op] gives for it, whatever the store holds: a deletion
    of its key when [entered] is false (for a coin entry, which has no such
    flag: when its coins are pruned), an upsert of its value otherwise --
    except for an anchor entry with [entered] set that is keyed by the
    empty root of its tree type, for which the batch holds no operation on
    that key. *)
Theorem BatchWrite_dirty_entry
    (d : DeltaEntry SproutMerkleTree SaplingMerkleTree) :
  passed_in mapCoins mapSproutAnchors mapSaplingAnchors
            mapSproutNullifiers mapSaplingNullifiers d →
  delta_dirty d = true →
  let r := BatchWrite engine_ok db mapCoins hashBlock hashSproutAnchor
             hashSaplingAnchor mapSproutAnchors mapSaplingAnchors
             mapSproutNullifiers mapSaplingNullifiers in
  match delta_op d with
  | Some op => op ∈ fl_batch r
  | None => Forall (λ op, op_key op ≠ delta_key d) (fl_batch r)
  end.
Proof.
  intros Hin Hdirty r. subst r. rewrite BatchWrite_batch.
  pose proof (dirty_entry_ops d Hdirty) as Hops.
  destruct (delta_op d) as [op|] eqn:Hop.
  - apply elem_of_app. left. unfold loops_ops.
    rewrite !elem_of_app, !elem_of_flat_map_to_list.
    destruct d as [k e|k e|k e|k e|k e]; simpl in Hin;
      [left|right; left|do 2 right; left|do 3 right; left|do 4 right];
      exists k, e; (split; [done|]); rewrite Hops; apply list_elem_of_here.
  - apply Forall_forall. intros op Hop'.
    apply elem_of_app in Hop' as [Hop'|Hop'].
    + apply loops_ops_entry in Hop'.
      destruct d as [k e|k e|k e|k e|k e]; simpl in Hin, Hops |- *;
        try (unfold delta_op in Hop; simpl in Hop;
             repeat case_match; discriminate);
        destruct Hop' as [(k' & e' & Hk' & Hmem)|[(k' & e' & Hk' & Hmem)|
                         [(k' & e' & Hk' & Hmem)|[(k' & e' & Hk' & Hmem)|
                          (k' & e' & Hk' & Hmem)]]]];
        first [ apply coins_ops_key in Hmem
              | pose proof (anchor_ops_key _ _ _ _ Hmem) as Hkey
              | apply nullifier_ops_key in Hmem ];
        try (rewrite Hmem; discriminate);
        try (rewrite Hkey; discriminate);
        rewrite Hkey; intros [= Heq%blob256_inj]; subst k';
        rewrite Hin in Hk'; injection Hk' as <-;
        rewrite Hops in Hmem; by elem_cases Hmem.
    + apply best_ops_key in Hop' as [->|[->| ->]]; by destruct d.
Qed.

(** C3: after any call of [BatchWrite], whatever the engine answers to the
    commit, each of the five maps passed in is empty. *)
Theorem BatchWrite_drains_maps :
  let r := BatchWrite engine_ok db mapCoins hashBlock hashSproutAnchor
             hashSaplingAnchor mapSproutAnchors mapSaplingAnchors
             mapSproutNullifiers mapSaplingNullifiers in
  fl_mapCoins r = ∅ ∧
  fl_mapSproutAnchors r = ∅ ∧ fl_mapSaplingAnchors r = ∅ ∧
  fl_mapSproutNullifiers r = ∅ ∧ fl_mapSaplingNullifiers r = ∅.
Proof.
  cbv zeta. unfold BatchWrite; cbn [fl_mapCoins fl_mapSproutAnchors
    fl_mapSaplingAnchors fl_mapSproutNullifiers fl_mapSaplingNullifiers].
  unfold BatchWrite_coins, BatchWriteAnchors, BatchWriteNullifiers.
  rewrite BatchWrite_coins_loop_map, !BatchWriteAnchors_loop_map,
    !BatchWriteNullifiers_loop_map.
  cbn [cl_map]. by rewrite !erase_visited_all.
Qed.

(** C4: the flush batches no write of the empty root of either tree type,
    so the store never comes to hold a value under that key that it did
    not hold before; and looking the empty root up, in any store, yields
    true and the empty tree without reading the store. *)
Theorem empty_root_never_persisted (db' : CDBWrapper)
    (sproutTree : SproutMerkleTree) (saplingTree : SaplingMerkleTree) :
  let r := BatchWrite engine_ok db mapCoins hashBlock hashSproutAnchor
             hashSaplingAnchor mapSproutAnchors mapSaplingAnchors
             mapSproutNullifiers mapSaplingNullifiers in
  let kSprout :=
    encode K_SPROUT_ANCHOR (blob256 (empty_root SproutMerkleTree)) in
  let kSapling :=
    encode K_SAPLING_ANCHOR (blob256 (empty_root SaplingMerkleTree)) in
  Forall (λ op, is_write_to kSprout op = false ∧
                is_write_to kSapling op = false) (fl_batch r) ∧
  (fl_db r !! kSprout = db !! kSprout ∨ fl_db r !! kSprout = None) ∧
  (fl_db r !! kSapling = db !! kSapling ∨ fl_db r !! kSapling = None) ∧
  GetSproutAnchorAt db' (empty_root SproutMerkleTree) sproutTree =
    ((true, new_tree SproutMerkleTree), []) ∧
  GetSaplingAnchorAt db' (empty_root SaplingMerkleTree) saplingTree =
    ((true, new_tree SaplingMerkleTree), []).
Proof.
  intros r kSprout kSapling.
  assert (Forall (λ op, is_write_to kSprout op = false ∧
                        is_write_to kSapling op = false)
                 (fl_batch r)) as Hbatch.
  { subst r. rewrite BatchWrite_batch. apply Forall_forall. intros op Hop.
    apply elem_of_app in Hop as [Hop|Hop].
    - apply loops_ops_entry in Hop.
      destruct Hop as [(k & e & _ & H)|[(k & e & _ & H)|[(k & e & _ & H)|
                      [(k & e & _ & H)|(k & e & _ & H)]]]].
      + apply coins_ops_key in H. destruct op; simpl in *; [|done].
        subst. split; by apply bool_decide_eq_false.
      + pose proof (anchor_ops_key _ _ _ _ H) as Hkey.
        destruct op as [k' v|]; simpl in *; [|done]. subst k'.
        split; apply bool_decide_eq_false; [|done].
        intros [= Hk%blob256_inj]. subst k.
        unfold anchor_ops, batch_Erase, batch_Write in H; simpl in H.
        rewrite bool_decide_eq_true_2 in H by done.
        repeat case_match; simpl in H; by elem_cases H.
      + pose proof (anchor_ops_key _ _ _ _ H) as Hkey.
        destruct op as [k' v|]; simpl in *; [|done]. subst k'.
        split; apply bool_decide_eq_false; [done|].
        intros [= Hk%blob256_inj]. subst k.
        unfold anchor_ops, batch_Erase, batch_Write in H; simpl in H.
        rewrite bool_decide_eq_true_2 in H by done.
        repeat case_match; simpl in H; by elem_cases H.
      + apply nullifier_ops_key in H. destruct op; simpl in *; [|done].
        subst. split; by apply bool_decide_eq_false.
      + apply nullifier_ops_key in H. destruct op; simpl in *; [|done].
        subst. split; by apply bool_decide_eq_false.
    - apply best_ops_key in Hop as [->|[->| ->]];
        split; by apply bool_decide_eq_false. }
  split; [exact Hbatch|].
  subst r. rewrite BatchWrite_db, WriteBatch_db.
  split; [|split; [|split]].
  - destruct engine_ok; [|by left]. apply apply_batch_no_write.
    eapply Forall_impl; [exact Hbatch|]. by intros op [? _].
  - destruct engine_ok; [|by left]. apply apply_batch_no_write.
    eapply Forall_impl; [exact Hbatch|]. by intros op [_ ?].
  - unfold GetSproutAnchorAt. by rewrite bool_decide_eq_true_2.
  - unfold GetSaplingAnchorAt. by rewrite bool_decide_eq_true_2.
Qed.

(** C5: a null best-block, best-Sprout-anchor or best-Sapling-anchor hash
    puts no operation on its slot into the batch, and the slot keeps the
    value it had; a non-null hash is written to its slot. *)
Theorem BatchWrite_best_slots :
  let r := BatchWrite engine_ok db mapCoins hashBlock hashSproutAnchor
             hashSaplingAnchor mapSproutAnchors mapSaplingAnchors
             mapSproutNullifiers mapSaplingNullifiers in
  best_slot_spec engine_ok db (fl_db r) (fl_batch r) K_BEST_BLOCK hashBlock ∧
  best_slot_spec engine_ok db (fl_db r) (fl_batch r)
                 K_BEST_SPROUT_ANCHOR hashSproutAnchor ∧
  best_slot_spec engine_ok db (fl_db r) (fl_batch r)
                 K_BEST_SAPLING_ANCHOR hashSaplingAnchor.
Proof.
  cbv zeta. rewrite BatchWrite_db, BatchWrite_batch, BatchWrite_best_writes.
  assert (∀ k, k ∈ [K_BEST_BLOCK; K_BEST_SPROUT_ANCHOR; K_BEST_SAPLING_ANCHOR] →
               Forall (λ op, op_key op ≠ encode k [])
                      (loops_ops mapCoins mapSproutAnchors mapSaplingAnchors
                                 mapSproutNullifiers mapSaplingNullifiers))
    as Hslot.
  { intros k Hk. apply loops_ops_avoid; elem_cases Hk; try done;
      intros Hin; by elem_cases Hin. }
  split; [|split].
  - apply best_slot_of_batch.
    + apply Hslot. repeat constructor.
    + apply Forall_app; split; by apply best_write_other.
  - rewrite (app_assoc (loops_ops _ _ _ _ _)). apply best_slot_of_batch.
    + apply Forall_app; split; [|by apply best_write_other].
      apply Hslot. repeat constructor.
    + by apply best_write_other.
  - rewrite <- (app_nil_r (best_write K_BEST_SAPLING_ANCHOR _)).
    rewrite (app_assoc (best_write K_BEST_BLOCK _)),
      (app_assoc (loops_ops _ _ _ _ _)).
    apply best_slot_of_batch; [|constructor].
    apply Forall_app; split;
      [|apply Forall_app; split; by apply best_write_other].
    apply Hslot. repeat constructor.
Qed.

End Flush.

(** C2 (as stated, refuted): a dirty Sprout anchor entry with [entered]
    set, keyed by the empty root, is not turned into an upsert -- the
    flush succeeds with an empty batch. *)
Lemma empty_root_anchor_not_upserted :
  let k := @empty_root bytes Sample.sprout in
  let e := CAnchorsCacheEntry.mk true ["t"%char] CAnchorsCacheEntry.DIRTY in
  let d := @SproutAnchorEntry bytes bytes k e in
  let r := @BatchWrite bytes bytes Sample.sprout Sample.sapling Sample.coins
             true ∅ ∅ uint256_zero uint256_zero uint256_zero
             {[k := e]} ∅ ∅ ∅ in
  delta_dirty d = true ∧ delta_entered d = Some true ∧
  fl_ret r = true ∧
  OpWrite (@delta_key bytes bytes d)
          (@delta_value bytes bytes Sample.sprout Sample.sapling Sample.coins d)
    ∉ fl_batch r.
Proof.
  cbv zeta. split; [reflexivity|]. split; [reflexivity|]. split; [reflexivity|].
  assert (fl_batch (@BatchWrite bytes bytes Sample.sprout Sample.sapling
            Sample.coins true ∅ ∅ uint256_zero uint256_zero uint256_zero
            {[@empty_root bytes Sample.sprout :=
                CAnchorsCacheEntry.mk true ["t"%char] CAnchorsCacheEntry.DIRTY]}
            ∅ ∅ ∅) = []) as -> by (vm_compute; reflexivity).
  apply not_elem_of_nil.
Qed.

(** A dirty Sprout nullifier entry with [entered] unset becomes a deletion
    of its key. *)
Lemma BatchWrite_dirty_entry_witness :
  let k := mk_uint256 (replicate 32 "007"%char) in
  let e := CNullifiersCacheEntry.mk false CNullifiersCacheEntry.DIRTY in
  OpErase (encode K_NULLIFIER (blob256 k)) ∈
    fl_batch (@BatchWrite bytes bytes Sample.sprout Sample.sapling Sample.coins
                true ∅ ∅ uint256_zero uint256_zero uint256_zero
                ∅ ∅ {[k := e]} ∅).
Proof.
  cbv zeta.
  apply (@BatchWrite_dirty_entry bytes bytes Sample.sprout Sample.sapling
           Sample.coins true ∅ ∅ uint256_zero uint256_zero uint256_zero
           ∅ ∅ {[mk_uint256 (replicate 32 "007"%char) :=
                   CNullifiersCacheEntry.mk false CNullifiersCacheEntry.DIRTY]} ∅
           (SproutNullifierEntry (mk_uint256 (replicate 32 "007"%char))
              (CNullifiersCacheEntry.mk false CNullifiersCacheEntry.DIRTY))).
  - vm_compute. reflexivity.
  - reflexivity.
Defined.

(** ** The reindex flag *)

(** C10: [ReadReindexing] returns true in every store and reports exactly
    whether the reindex key is present.  [WriteReindexing] returns what the
    engine answers; when the engine commits, [WriteReindexing(true)] stores
    the marker, [WriteReindexing(false)] leaves no entry under the key, and
    a following [ReadReindexing] reports the flag that was written. *)
Theorem reindex_flag_roundtrip (engine_ok : bool) (db : CDBWrapper) (b : bool) :
  let key := encode K_REINDEX_FLAG [] in
  let w := WriteReindexing engine_ok db b in
  ReadReindexing db = (true, bool_decide (is_Some (db !! key))) ∧
  w.1 = engine_ok ∧
  if engine_ok then
    w.2 !! key = (if b then Some ["1"%char] else None) ∧
    ReadReindexing w.2 = (true, b)
  else w.2 = db.
Proof.
  intros key w. split; [done|].
  subst w. unfold WriteReindexing, db_Write, db_Erase, WriteBatch.
  destruct engine_ok; [|by destruct b].
  assert (∀ db' : CDBWrapper,
            db' !! key = (if b then Some ["1"%char] else None) →
            ReadReindexing db' = (true, b)) as Hread.
  { intros db' Hkey. unfold ReadReindexing, db_Exists. f_equal.
    change (Serialize DB_REINDEX_FLAG) with key. rewrite Hkey.
    destruct b; [by apply bool_decide_eq_true_2|].
    apply bool_decide_eq_false_2. by intros [? ?]. }
  destruct b; simpl.
  - split; [done|]. split; [apply lookup_insert_eq|].
    apply Hread, lookup_insert_eq.
  - split; [done|]. split; [apply lookup_delete_eq|].
    apply Hread, lookup_delete_eq.
Qed.

(** ** Range scans *)

Lemma scan_loop_break {A : Type} (body : bytes * bytes → Turn A)
    (pre post : CDBIterator) (e : bytes * bytes) (out : list A) :
  body e = Break →
  scan_loop body (pre ++ e :: post) out = scan_loop body pre out.
Proof.
  intros He. revert out.
  induction pre as [|x pre IH]; intros out; simpl.
  - by rewrite He.
  - destruct (body x); auto.
Qed.

Lemma scan_loop_return {A : Type} (body : bytes * bytes → Turn A)
    (pre post : CDBIterator) (e : bytes * bytes) (out : list A) (b : bool) :
  Forall (λ x, advances (body x) = true) pre →
  body e = Return b →
  scan_loop body (pre ++ e :: post) out = (b, (scan_loop body pre out).2).
Proof.
  intros Hpre He. revert out.
  induction Hpre as [|x pre Hx Hpre IH]; intros out; simpl.
  - by rewrite He.
  - destruct (body x); try discriminate; auto.
Qed.

Lemma scan_loop_all_advance {A : Type} (body : bytes * bytes → Turn A)
    (pre : CDBIterator) (out : list A) :
  Forall (λ x, advances (body x) = true) pre →
  (scan_loop body pre out).1 = true.
Proof.
  intros Hpre. revert out.
  induction Hpre as [|x pre Hx Hpre IH]; intros out; simpl; [done|].
  destruct (body x); try discriminate; auto.
Qed.

Lemma scan_loop_pushed {A : Type} (body : bytes * bytes → Turn A)
    (pcursor : CDBIterator) (out : list A) :
  ∃ found, (scan_loop body pcursor out).2 = out ++ found ∧
           Forall (λ x, ∃ e, e ∈ pcursor ∧ body e = Push x) found.
Proof.
  revert out. induction pcursor as [|e rest IH]; intros out; simpl.
  - exists []. by rewrite app_nil_r.
  - destruct (body e) as [x| | |b] eqn:He.
    + destruct (IH (out ++ [x])) as (found & -> & Hall).
      exists (x :: found). rewrite <- app_assoc. split; [done|].
      constructor.
      * exists e. split; [apply list_elem_of_here|done].
      * eapply Forall_impl; [exact Hall|].
        intros y (e' & Hin & Hy). exists e'. split; [|done].
        by apply list_elem_of_further.
    + destruct (IH out) as (found & -> & Hall).
      exists found. split; [done|].
      eapply Forall_impl; [exact Hall|].
      intros y (e' & Hin & Hy). exists e'. split; [|done].
      by apply list_elem_of_further.
    + exists []. by rewrite app_nil_r.
    + exists []. by rewrite app_nil_r.
Qed.

(** Entries met by a cursor are entries of the store. *)
Lemma elem_of_Seek target it e : e ∈ Seek target it → e ∈ it.
Proof.
  induction it as [|x it IH]; simpl; [done|].
  destruct (bytes_compare x.1 target); intros H; try done.
  by apply list_elem_of_further, IH.
Qed.

Lemma elem_of_cursor (db : CDBWrapper) target e :
  e ∈ Seek target (NewIterator db) → db !! e.1 = Some e.2.
Proof.
  intros H%elem_of_Seek. unfold NewIterator in H.
  rewrite merge_sort_Permutation in H.
  destruct e as [k v]. by apply elem_of_map_to_list in H.
Qed.

Section ScanFacts.
Context {index_codec : IndexCodec}.

(** The three ways a turn of [ReadAddressIndex] can go, by what the entry
    decodes to. *)
Lemma ReadAddressIndex_body_key_fails addressHash end_ e :
  GetKey (ascii * CAddressIndexKey.t) e = None →
  ReadAddressIndex_body addressHash end_ e = Break.
Proof.
  unfold GetKey, ReadAddressIndex_body; simpl.
  destruct e as [[|c s] v]; simpl; [done|].
  by destruct (Unserialize CAddressIndexKey.t s) as [[k s']|].
Qed.

Lemma ReadAddressIndex_body_key addressHash end_ e c k :
  GetKey (ascii * CAddressIndexKey.t) e = Some (c, k) →
  ReadAddressIndex_body addressHash end_ e =
  if bool_decide (c = DB_ADDRESSINDEX) &&
     bool_decide (CAddressIndexKey.hashBytes k = addressHash)
  then
    if (0 <? end_) && (end_ <? CAddressIndexKey.blockHeight k) then Break
    else match @GetValue CAmount CAmount_Serializable e with
         | Some nValue => Push (k, nValue)
         | None => Return false
         end
  else Break.
Proof.
  unfold GetKey, GetValue, ReadAddressIndex_body; simpl.
  destruct e as [[|c' s] v]; simpl; [done|].
  destruct (Unserialize CAddressIndexKey.t s) as [[k' s']|]; [|done].
  simpl. intros [= -> ->].
  repeat case_match; simplify_eq/=; done.
Qed.

Lemma ReadAddressUnspentIndex_body_key_fails addressHash e :
  GetKey (ascii * CAddressUnspentKey.t) e = None →
  ReadAddressUnspentIndex_body addressHash e = Break.
Proof.
  unfold GetKey, ReadAddressUnspentIndex_body; simpl.
  destruct e as [[|c s] v]; simpl; [done|].
  by destruct (Unserialize CAddressUnspentKey.t s) as [[k s']|].
Qed.

Lemma ReadAddressUnspentIndex_body_key addressHash e c k :
  GetKey (ascii * CAddressUnspentKey.t) e = Some (c, k) →
  ReadAddressUnspentIndex_body addressHash e =
  if bool_decide (c = DB_ADDRESSUNSPENTINDEX) &&
     bool_decide (CAddressUnspentKey.hashBytes k = addressHash)
  then match GetValue CAddressUnspentValue.t e with
       | Some nValue => Push (k, nValue)
       | None => Return false
       end
  else Break.
Proof.
  unfold GetKey, GetValue, ReadAddressUnspentIndex_body; simpl.
  destruct e as [[|c' s] v]; simpl; [done|].
  destruct (Unserialize CAddressUnspentKey.t s) as [[k' s']|]; [|done].
  simpl. intros [= -> ->].
  repeat case_match; simplify_eq/=; done.
Qed.

Lemma ReadTimestampIndex_body_key_fails active high fActiveOnly e :
  GetKey (ascii * CTimestampIndexKey.t) e = None →
  ReadTimestampIndex_body active high fActiveOnly e = Break.
Proof.
  unfold GetKey, ReadTimestampIndex_body; simpl.
  destruct e as [[|c s] v]; simpl; [done|].
  by destruct (Unserialize CTimestampIndexKey.t s) as [[k s']|].
Qed.

(** C6 (amended): when the key of the entry under the cursor does not
    decode, each scan ends as if the index ended just before that entry;
    when the key is accepted and the value does not decode
    (address-unspent and address index; the timestamp scan decodes no
    value), the scan stops at that entry and returns false, the caller's
    vector holding the entries collected before it.  In neither case is an
    entry after the bad one visited. *)
Theorem scan_decode_failure (db : CDBWrapper) (pre post : CDBIterator)
    (e : bytes * bytes) :
  (∀ addressHash type out,
     Seek (ReadAddressUnspentIndex_seek type addressHash) (NewIterator db) =
       pre ++ e :: post →
     let body := ReadAddressUnspentIndex_body addressHash in
     let r := ReadAddressUnspentIndex db addressHash type out in
     (GetKey (ascii * CAddressUnspentKey.t) e = None →
      r = scan_loop body pre out) ∧
     (∀ k, GetKey (ascii * CAddressUnspentKey.t) e =
             Some (DB_ADDRESSUNSPENTINDEX, k) →
           CAddressUnspentKey.hashBytes k = addressHash →
           GetValue CAddressUnspentValue.t e = None →
           Forall (λ x, advances (body x) = true) pre →
           r = (false, (scan_loop body pre out).2) ∧
           (scan_loop body pre out).1 = true)) ∧
  (∀ addressHash type out start end_,
     Seek (ReadAddressIndex_seek type addressHash start end_) (NewIterator db) =
       pre ++ e :: post →
     let body := ReadAddressIndex_body addressHash end_ in
     let r := ReadAddressIndex db addressHash type out start end_ in
     (GetKey (ascii * CAddressIndexKey.t) e = None →
      r = scan_loop body pre out) ∧
     (∀ k, GetKey (ascii * CAddressIndexKey.t) e = Some (DB_ADDRESSINDEX, k) →
           CAddressIndexKey.hashBytes k = addressHash →
           (end_ ≤ 0 ∨ CAddressIndexKey.blockHeight k ≤ end_) →
           @GetValue CAmount CAmount_Serializable e = None →
           Forall (λ x, advances (body x) = true) pre →
           r = (false, (scan_loop body pre out).2) ∧
           (scan_loop body pre out).1 = true)) ∧
  (∀ blockOnchainActive high low fActiveOnly out,
     Seek (ReadTimestampIndex_seek low) (NewIterator db) = pre ++ e :: post →
     GetKey (ascii * CTimestampIndexKey.t) e = None →
     ReadTimestampIndex blockOnchainActive db high low fActiveOnly out =
     scan_loop (ReadTimestampIndex_body blockOnchainActive high fActiveOnly)
               pre out).
Proof.
  split; [|split].
  - intros addressHash type out Hcur body r. subst r body.
    unfold ReadAddressUnspentIndex. rewrite Hcur. split.
    + intros Hkey. apply scan_loop_break.
      by apply ReadAddressUnspentIndex_body_key_fails.
    + intros k Hkey Hhash Hval Hpre.
      split; [|by apply scan_loop_all_advance].
      apply scan_loop_return; [done|].
      rewrite (ReadAddressUnspentIndex_body_key _ _ _ _ Hkey), Hval.
      by rewrite !bool_decide_eq_true_2.
  - intros addressHash type out start end_ Hcur body r. subst r body.
    unfold ReadAddressIndex. rewrite Hcur. split.
    + intros Hkey. apply scan_loop_break.
      by apply ReadAddressIndex_body_key_fails.
    + intros k Hkey Hhash Hend Hval Hpre.
      split; [|by apply scan_loop_all_advance].
      apply scan_loop_return; [done|].
      rewrite (ReadAddressIndex_body_key _ _ _ _ _ Hkey), Hval.
      rewrite !bool_decide_eq_true_2 by done. simpl.
      destruct (0 <? end_) eqn:E1; [|done].
      destruct (end_ <? CAddressIndexKey.blockHeight k) eqn:E2; [|done].
      apply Z.ltb_lt in E1, E2. lia.
  - intros active high low fActiveOnly out Hcur Hkey.
    unfold ReadTimestampIndex. rewrite Hcur. apply scan_loop_break.
    by apply ReadTimestampIndex_body_key_fails.
Qed.

(** C7: [ReadAddressIndex] appends to the caller's vector only entries of
    the store whose key carries the address-index tag and the requested
    address hash and, when [end_] is positive, a block height not above
    [end_]; and it stops at the first entry whose tag or address hash
    differs or whose height exceeds a positive [end_]: the result is that
    of scanning the entries before it. *)
Theorem ReadAddressIndex_matching (db : CDBWrapper) (addressHash : uint160)
    (type : Z) (addressIndex : list (CAddressIndexKey.t * CAmount))
    (start end_ : Z) :
  let r := ReadAddressIndex db addressHash type addressIndex start end_ in
  (∃ found,
     r.2 = addressIndex ++ found ∧
     Forall (λ kv,
        CAddressIndexKey.hashBytes kv.1 = addressHash ∧
        (0 < end_ → CAddressIndexKey.blockHeight kv.1 ≤ end_) ∧
        ∃ e, db !! e.1 = Some e.2 ∧
             GetKey (ascii * CAddressIndexKey.t) e =
               Some (DB_ADDRESSINDEX, kv.1) ∧
             @GetValue CAmount CAmount_Serializable e = Some kv.2) found) ∧
  (∀ pre e post c k,
     Seek (ReadAddressIndex_seek type addressHash start end_) (NewIterator db) =
       pre ++ e :: post →
     GetKey (ascii * CAddressIndexKey.t) e = Some (c, k) →
     c ≠ DB_ADDRESSINDEX ∨ CAddressIndexKey.hashBytes k ≠ addressHash ∨
       (0 < end_ ∧ end_ < CAddressIndexKey.blockHeight k) →
     r = scan_loop (ReadAddressIndex_body addressHash end_) pre addressIndex).
Proof.
  intros r. subst r. unfold ReadAddressIndex. split.
  - destruct (scan_loop_pushed (ReadAddressIndex_body addressHash end_)
                (Seek (ReadAddressIndex_seek type addressHash start end_)
                      (NewIterator db)) addressIndex)
      as (found & Hout & Hall).
    exists found. split; [exact Hout|].
    eapply Forall_impl; [exact Hall|].
    intros [k v] (e & Hin & Hpush). simpl.
    apply elem_of_cursor in Hin.
    destruct (GetKey (ascii * CAddressIndexKey.t) e) as [[c k']|] eqn:Hkey.
    + rewrite (ReadAddressIndex_body_key _ _ _ _ _ Hkey) in Hpush.
      destruct (bool_decide (c = DB_ADDRESSINDEX)) eqn:Ec; [|done].
      destruct (bool_decide (CAddressIndexKey.hashBytes k' = addressHash))
        eqn:Eh; [|done].
      apply bool_decide_eq_true in Ec, Eh. simpl in Hpush.
      destruct ((0 <? end_) && (end_ <? CAddressIndexKey.blockHeight k'))
        eqn:Eend; [done|].
      destruct (@GetValue CAmount CAmount_Serializable e) as [v'|] eqn:Hv;
        [|done].
      injection Hpush as -> ->. subst c.
      split; [done|]. split; [|by exists e].
      intros Hpos. apply andb_false_iff in Eend as [E|E].
      * apply Z.ltb_ge in E. lia.
      * by apply Z.ltb_ge in E.
    + by rewrite ReadAddressIndex_body_key_fails in Hpush.
  - intros pre e post c k Hcur Hkey Hstop. rewrite Hcur.
    apply scan_loop_break.
    rewrite (ReadAddressIndex_body_key _ _ _ _ _ Hkey).
    destruct Hstop as [Hc|[Hh|[H1 H2]]].
    + by rewrite (bool_decide_eq_false_2 _ Hc).
    + rewrite (bool_decide_eq_false_2 _ Hh). by rewrite andb_false_r.
    + destruct (_ && _); [|done].
      apply Z.ltb_lt in H1, H2. by rewrite H1, H2.
Qed.

End ScanFacts.

(** C6 (as stated, refuted): an address-index entry whose key is accepted
    and whose value does not decode makes the scan return false; had the
    index ended before that entry, the scan would have returned true with
    the same entries. *)
Lemma value_failure_is_an_error :
  @GetKey (ascii * CAddressIndexKey.t)
     (@pair_Serializable _ _ _ Sample.address_key_codec)
     Sample.bad_value_entry = Some (DB_ADDRESSINDEX, Sample.key_A6) ∧
  @GetValue CAmount Sample.amount_codec Sample.bad_value_entry = None ∧
  @ReadAddressIndex Sample.index_codec Sample.bad_value_index
     Sample.addrA 1 [] 0 0 = (false, [(Sample.key_A5, 100)]) ∧
  @ReadAddressIndex Sample.index_codec (list_to_map [Sample.entry_A5])
     Sample.addrA 1 [] 0 0 = (true, [(Sample.key_A5, 100)]).
Proof. repeat split; vm_compute; reflexivity. Qed.

(** On the sample index, an entry with a truncated key ends the scan as
    the end of the index would, and an entry with a truncated value makes
    it return false. *)
Lemma scan_decode_failure_witness :
  @ReadAddressIndex Sample.index_codec Sample.bad_key_index
     Sample.addrA 1 [] 0 0 =
    scan_loop (@ReadAddressIndex_body Sample.index_codec Sample.addrA 0)
              [Sample.entry_A5] [] ∧
  @ReadAddressIndex Sample.index_codec Sample.bad_value_index
     Sample.addrA 1 [] 0 0 =
    (false,
     (scan_loop (@ReadAddressIndex_body Sample.index_codec Sample.addrA 0)
                [Sample.entry_A5] []).2).
Proof.
  split.
  - refine (proj1 (proj1 (proj2
      (@scan_decode_failure Sample.index_codec Sample.bad_key_index
         [Sample.entry_A5] [Sample.entry_A9; Sample.entry_B1]
         Sample.bad_key_entry)) Sample.addrA 1 [] 0 0 _) _).
    + vm_compute. reflexivity.
    + vm_compute. reflexivity.
  - refine (proj1 (proj2 (proj1 (proj2
      (@scan_decode_failure Sample.index_codec Sample.bad_value_index
         [Sample.entry_A5] [Sample.entry_A9; Sample.entry_B1]
         Sample.bad_value_entry)) Sample.addrA 1 [] 0 0 _)
      Sample.key_A6 _ _ _ _ _)).
    + vm_compute. reflexivity.
    + vm_compute. reflexivity.
    + reflexivity.
    + left. reflexivity.
    + vm_compute. reflexivity.
    + repeat constructor.
Defined.

(** On the sample index, a scan for [addrA] up to height 7 stops at the
    entry of height 9. *)
Lemma ReadAddressIndex_matching_witness :
  @ReadAddressIndex Sample.index_codec Sample.address_index
     Sample.addrA 1 [] 0 7 =
  scan_loop (@ReadAddressIndex_body Sample.index_codec Sample.addrA 7)
            [Sample.entry_A5] [].
Proof.
  refine (proj2 (@ReadAddressIndex_matching Sample.index_codec
                   Sample.address_index Sample.addrA 1 [] 0 7)
            [Sample.entry_A5] Sample.entry_A9 [Sample.entry_B1]
            DB_ADDRESSINDEX Sample.key_A9 _ _ _).
  - vm_compute. reflexivity.
  - vm_compute. reflexivity.
  - right. right. split; reflexivity.
Defined.

(** ** The statistics scan *)

Section StatsFacts.
Context {coins_methods : CoinsMethods} {stats_env : StatsEnv}.

Lemma int64_add_wrap (a b : Z) :
  int64_add (int64_wrap a) b = int64_wrap (a + b).
Proof.
  unfold int64_add, int64_wrap. f_equal.
  replace ((a + 2 ^ 63) mod 2 ^ 64 - 2 ^ 63 + b + 2 ^ 63)
    with ((a + 2 ^ 63) mod 2 ^ 64 + b) by lia.
  rewrite Zplus_mod_idemp_l. f_equal. lia.
Qed.

Lemma int64_wrap_range (z : Z) : int64_range (int64_wrap z).
Proof.
  unfold int64_range, int64_wrap.
  pose proof (Z.mod_pos_bound (z + 2 ^ 63) (2 ^ 64)). lia.
Qed.

Lemma GetStats_outputs_spec (vout : list CTxOut) (p : Z) (st : StatsLoop) :
  let st' := GetStats_outputs vout (p mod 2 ^ 32) st in
  let outs := nonnull_from p vout in
  sl_ss st' =
    sl_ss st ++
    flat_map (λ io, WriteVarInt (io.1 mod 2 ^ 32) ++ Serialize io.2) outs ∧
  (∀ a, sl_nTotalAmount st = int64_wrap a →
        sl_nTotalAmount st' = int64_wrap (a + total_value outs)) ∧
  CCoinsStats.nTransactionOutputs (sl_stats st') mod 2 ^ 64 =
    (CCoinsStats.nTransactionOutputs (sl_stats st) + Z.of_nat (length outs))
    mod 2 ^ 64.
Proof.
  revert p st. induction vout as [|out rest IH]; intros p st; simpl.
  - rewrite app_nil_r, !Z.add_0_r. split; [done|]. split; [|done].
    intros a ->. by rewrite Z.add_0_r.
  - assert (uint32_incr (p mod 2 ^ 32) = (p + 1) mod 2 ^ 32) as Hi.
    { unfold uint32_incr. by rewrite Zplus_mod_idemp_l. }
    rewrite Hi. destruct (IH (p + 1)
      (if negb (CTxOut_IsNull out)
       then {| sl_ss := sl_ss st ++ WriteVarInt ((p + 1) mod 2 ^ 32) ++
                        Serialize out;
               sl_stats := count_output (sl_stats st);
               sl_nTotalAmount :=
                 int64_add (sl_nTotalAmount st) (nValue out) |}
       else st)) as (Hss & Htot & Hcnt).
    rewrite Hss, Hcnt. clear IH Hss Hcnt.
    destruct (CTxOut_IsNull out); simpl in *.
    + done.
    + rewrite <- !app_assoc. split; [done|]. split.
      * intros a Ha. unfold total_value. simpl. rewrite Z.add_assoc.
        apply Htot. rewrite Ha. apply int64_add_wrap.
      * unfold uint64_add. rewrite Zplus_mod_idemp_l. f_equal. lia.
Qed.

Lemma GetStats_record_spec (coins : CCoins) (size : Z) (st : StatsLoop) :
  let st' := GetStats_record coins size st in
  let outs := nonnull_outputs coins in
  sl_ss st' = sl_ss st ++ record_stream outs ∧
  (∀ a, sl_nTotalAmount st = int64_wrap a →
        sl_nTotalAmount st' = int64_wrap (a + total_value outs)) ∧
  CCoinsStats.nTransactionOutputs (sl_stats st') mod 2 ^ 64 =
    (CCoinsStats.nTransactionOutputs (sl_stats st) + Z.of_nat (length outs))
    mod 2 ^ 64.
Proof.
  unfold GetStats_record, nonnull_outputs, record_stream. cbn zeta.
  destruct (GetStats_outputs_spec (vout coins) 0
    {| sl_ss := sl_ss st; sl_stats := count_transaction (sl_stats st);
       sl_nTotalAmount := sl_nTotalAmount st |}) as (Hss & Htot & Hcnt).
  rewrite Z.mod_0_l in Hss, Htot, Hcnt by done.
  cbn [sl_ss sl_stats sl_nTotalAmount add_size count_transaction
       CCoinsStats.nTransactionOutputs] in *.
  by rewrite Hss, Hcnt, <- app_assoc.
Qed.

Lemma total_value_app (l1 l2 : list (Z * CTxOut)) :
  total_value (l1 ++ l2) = total_value l1 + total_value l2.
Proof.
  unfold total_value. induction l1 as [|x l1 IH]; simpl; [done|]. lia.
Qed.

(** The loop, when it is left normally, has hashed the visited records one
    after the other. *)
Lemma GetStats_loop_spec (pcursor : CDBIterator) (st st' : StatsLoop) :
  GetStats_loop pcursor st = (None, st') →
  let records := map nonnull_outputs (scanned_coins pcursor) in
  sl_ss st' = sl_ss st ++ flat_map record_stream records ∧
  (∀ a, sl_nTotalAmount st = int64_wrap a →
        sl_nTotalAmount st' = int64_wrap (a + total_value (concat records))) ∧
  CCoinsStats.nTransactionOutputs (sl_stats st') mod 2 ^ 64 =
    (CCoinsStats.nTransactionOutputs (sl_stats st) +
     Z.of_nat (length (concat records))) mod 2 ^ 64.
Proof.
  assert (∀ s : StatsLoop,
            sl_ss s = sl_ss s ++ [] ∧
            (∀ a, sl_nTotalAmount s = int64_wrap a →
                  sl_nTotalAmount s = int64_wrap (a + 0)) ∧
            CCoinsStats.nTransactionOutputs (sl_stats s) mod 2 ^ 64 =
              (CCoinsStats.nTransactionOutputs (sl_stats s) + Z.of_nat 0)
              mod 2 ^ 64) as Hnil.
  { intros s. simpl. rewrite app_nil_r, Z.add_0_r. split; [done|].
    split; [|done]. intros a ->. by rewrite Z.add_0_r. }
  revert st. induction pcursor as [|e rest IH]; intros st; simpl.
  - intros [= <-]. apply Hnil.
  - destruct (GetKey (ascii * uint256) e) as [key|]; simpl;
      [|intros [= <-]; apply Hnil].
    destruct (bool_decide (key.1 = DB_COINS)).
    + destruct (GetValue CCoins e) as [coins|]; [|done].
      intros Hloop. destruct (IH _ Hloop) as (Hss & Htot & Hcnt).
      destruct (GetStats_record_spec coins (Z.of_nat (length e.2)) st)
        as (Hss1 & Htot1 & Hcnt1).
      cbn zeta in *. simpl.
      rewrite Hss, Hcnt, Hss1, total_value_app, length_app.
      rewrite <- app_assoc. split; [done|]. split.
      * intros a Ha. rewrite Z.add_assoc. by apply Htot, Htot1.
      * rewrite <- Zplus_mod_idemp_l, Hcnt1, Zplus_mod_idemp_l. f_equal. lia.
    + destruct (GetValue CCoins e); intros [= <-]; apply Hnil.
Qed.

Lemma GetStats_loop_returns (pcursor : CDBIterator) (st st' : StatsLoop) b :
  GetStats_loop pcursor st = (Some b, st') → b = false.
Proof.
  revert st. induction pcursor as [|e rest IH]; intros st; simpl; [done|].
  repeat case_match; try done; eauto. by intros [= <- _].
Qed.

(** C8: when [GetStats] succeeds, the summary hash is the hash of the
    best-block hash followed, for each coin record in key order, by every
    non-null output preceded by its 1-based position as a varint and by a
    closing varint 0; null outputs add nothing to the hash, to the output
    count or to the total amount, which is the sum of the values of the
    non-null outputs kept in 64 bits.  Hence two coin sets with the same
    best-block hash and the same non-null outputs have the same summary
    hash. *)
Theorem GetStats_summary_hash (db1 db2 : CDBWrapper)
    (stats1 stats2 stats1' stats2' : CCoinsStats.t) :
  GetStats db1 stats1 = Some (true, stats1') →
  GetStats db2 stats2 = Some (true, stats2') →
  GetBestBlock db1 = GetBestBlock db2 →
  coin_set_outputs db1 = coin_set_outputs db2 →
  CCoinsStats.hashSerialized stats1' =
    HashWriter_GetHash
      (coin_set_stream (GetBestBlock db1) (coin_set_outputs db1)) ∧
  CCoinsStats.nTransactionOutputs stats1' mod 2 ^ 64 =
    (CCoinsStats.nTransactionOutputs stats1 +
     Z.of_nat (length (concat (coin_set_outputs db1)))) mod 2 ^ 64 ∧
  CCoinsStats.nTotalAmount stats1' =
    int64_wrap (total_value (concat (coin_set_outputs db1))) ∧
  CCoinsStats.hashSerialized stats1' = CCoinsStats.hashSerialized stats2'.
Proof.
  assert (∀ db stats stats',
    GetStats db stats = Some (true, stats') →
    CCoinsStats.hashSerialized stats' =
      HashWriter_GetHash
        (coin_set_stream (GetBestBlock db) (coin_set_outputs db)) ∧
    CCoinsStats.nTransactionOutputs stats' mod 2 ^ 64 =
      (CCoinsStats.nTransactionOutputs stats +
       Z.of_nat (length (concat (coin_set_outputs db)))) mod 2 ^ 64 ∧
    CCoinsStats.nTotalAmount stats' =
      int64_wrap (total_value (concat (coin_set_outputs db))))
    as Hone.
  { intros db stats stats'. unfold GetStats, coin_set_outputs, coin_set_stream.
    destruct (GetStats_loop _ _) as [[b|] st] eqn:Hloop.
    - apply GetStats_loop_returns in Hloop as ->. done.
    - apply GetStats_loop_spec in Hloop as (Hss & Htot & Hcnt).
      destruct (mapBlockIndex_nHeight _); [|done].
      intros [= <-]. cbn in *. rewrite Hss, Hcnt.
      by rewrite (Htot 0 eq_refl). }
  intros H1 H2 Hbest Houts.
  destruct (Hone _ _ _ H1) as (Hh1 & Hc1 & Ht1).
  destruct (Hone _ _ _ H2) as (Hh2 & _ & _).
  repeat split; try done. by rewrite Hh1, Hh2, Hbest, Houts.
Qed.

End StatsFacts.

(** The two sample coin sets, which differ in transaction id and in a
    trailing null output, have the same summary hash. *)
Lemma GetStats_summary_hash_witness :
  ∃ stats_a stats_b : CCoinsStats.t,
    @GetStats Sample.coins Sample.stats_env Sample.coin_set_a Sample.stats0 =
      Some (true, stats_a) ∧
    @GetStats Sample.coins Sample.stats_env Sample.coin_set_b Sample.stats0 =
      Some (true, stats_b) ∧
    CCoinsStats.nTotalAmount stats_a = 120 ∧
    CCoinsStats.hashSerialized stats_a = CCoinsStats.hashSerialized stats_b.
Proof.
  eexists _, _.
  split; [vm_compute; reflexivity|]. split; [vm_compute; reflexivity|].
  refine (proj2 (proj2
    (@GetStats_summary_hash Sample.coins Sample.stats_env
       Sample.coin_set_a Sample.coin_set_b
       Sample.stats0 Sample.stats0 _ _ _ _ _ _))).
  - vm_compute. reflexivity.
  - vm_compute. reflexivity.
  - vm_compute. reflexivity.
  - vm_compute. reflexivity.
Defined.

(** ** The block-index loader *)

Section LoadFacts.
Context {block_env : BlockIndexEnv}.

Lemma LoadBlockIndexGuts_loop_loads (pre rest : CDBIterator) (m m' : BlockMap) :
  loads pre m m' →
  LoadBlockIndexGuts_loop (pre ++ rest) m = LoadBlockIndexGuts_loop rest m'.
Proof.
  induction 1 as [m|e pre m m1 m2 He Hpre IH]; simpl; [done|].
  by rewrite He.
Qed.

Lemma InsertBlockIndex_node (hash : uint256) (m : BlockMap) :
  (InsertBlockIndex hash m).1 = if IsNull hash then None else Some hash.
Proof.
  unfold InsertBlockIndex. destruct (IsNull hash); [done|].
  by destruct (m !! hash).
Qed.

(** One decoded record: the node filed under the record's hash receives
    the fields of the record, its predecessor pointer being the record's
    previous hash (null when that hash is null), and the check compares
    the hash of the header rebuilt from the node with the node's key. *)
Lemma load_entry_spec (diskindex : CDiskBlockIndex.t) (m : BlockMap) :
  let hash := CDiskBlockIndex_GetBlockHash diskindex in
  let hashPrev := CDiskBlockIndex.hashPrev diskindex in
  IsNull hash = false →
  ∃ (old : CBlockIndex.t) (m' : BlockMap),
    let node :=
      copy_from_disk (if IsNull hashPrev then None else Some hashPrev)
                     diskindex old in
    m' !! hash = Some node ∧
    load_entry diskindex m =
      Some (m',
            bool_decide (CBlockHeader_GetHash (GetBlockHeader node) ≠ hash)).
Proof.
  intros hash hashPrev Hnull. unfold load_entry.
  rewrite !InsertBlockIndex_node. fold hash hashPrev. rewrite Hnull.
  eexists _, _. cbn zeta. split; [|reflexivity].
  apply lookup_insert_eq.
Qed.

(** C9: for every decoded record the loader rebuilds the header from the
    fields copied into the node, hashes it and compares the result with
    the node's hash key; at the first record that fails this check, and at
    the first record whose value does not decode, it returns false at
    once, the entries after it being left unread. *)
Theorem LoadBlockIndexGuts_stops_on_failure (db : CDBWrapper)
    (mapBlockIndex m : BlockMap) (pre post : CDBIterator) (e : bytes * bytes)
    (key : uint256) :
  Seek (Serialize (DB_BLOCK_INDEX, uint256_zero)) (NewIterator db) =
    pre ++ e :: post →
  loads pre mapBlockIndex m →
  GetKey (ascii * uint256) e = Some (DB_BLOCK_INDEX, key) →
  match GetValue CDiskBlockIndex.t e with
  | None => LoadBlockIndexGuts db mapBlockIndex = Some (false, m)
  | Some diskindex =>
      let hash := CDiskBlockIndex_GetBlockHash diskindex in
      let hashPrev := CDiskBlockIndex.hashPrev diskindex in
      IsNull hash = false →
      ∃ (old : CBlockIndex.t) (m' : BlockMap),
        let node :=
          copy_from_disk (if IsNull hashPrev then None else Some hashPrev)
                         diskindex old in
        m' !! hash = Some node ∧
        LoadBlockIndexGuts db mapBlockIndex =
          if bool_decide (CBlockHeader_GetHash (GetBlockHeader node) ≠ hash)
          then Some (false, m')
          else LoadBlockIndexGuts_loop post m'
  end.
Proof.
  intros Hcur Hpre Hkey. unfold LoadBlockIndexGuts. rewrite Hcur.
  rewrite (LoadBlockIndexGuts_loop_loads _ _ _ _ Hpre).
  cbn [LoadBlockIndexGuts_loop]. unfold LoadBlockIndexGuts_body.
  rewrite Hkey. cbn [fst]. rewrite bool_decide_eq_true_2 by done.
  destruct (GetValue CDiskBlockIndex.t e) as [diskindex|]; [|done].
  intros Hnull.
  destruct (load_entry_spec diskindex m Hnull) as (old & m' & Hnode & Hload).
  exists old, m'. split; [exact Hnode|].
  rewrite Hload. by destruct (bool_decide _).
Qed.

End LoadFacts.

(** Loading the sample block index fails at its second record, whose
    recomputed hash differs from its key. *)
Lemma LoadBlockIndexGuts_stops_on_failure_witness :
  ∃ m' : BlockMap,
    @LoadBlockIndexGuts Sample.block_env Sample.block_index ∅ =
    Some (false, m').
Proof.
  destruct (@LoadBlockIndexGuts_stops_on_failure Sample.block_env
              Sample.block_index ∅ Sample.loaded_first
              [Sample.block_entry Sample.consistent]
              [Sample.block_entry Sample.unread]
              (Sample.block_entry Sample.inconsistent)
              (Sample.txid "y"))
    as (old & m' & _ & Hload).
  - vm_compute. reflexivity.
  - eapply loads_cons; [|apply loads_nil]. vm_compute. reflexivity.
  - vm_compute. reflexivity.
  - reflexivity.
  - exists m'. exact Hload.
Defined.

(** ** Reads after batched writes *)

Lemma last_op_cons (key : bytes) (op : BatchOp) (batch : CDBBatch) :
  last_op key (op :: batch) =
  match last_op key batch with
  | Some op' => Some op'
  | None => if decide (op_key op = key) then Some op else None
  end.
Proof.
  unfold last_op. simpl.
  generalize (if decide (op_key op = key) then Some op else None).
  induction batch as [|op' batch IH] using rev_ind; intros acc.
  - by destruct acc.
  - rewrite !foldl_app. simpl. by case_decide.
Qed.

Lemma last_op_app (key : bytes) (l1 l2 : CDBBatch) :
  last_op key (l1 ++ l2) =
  match last_op key l2 with
  | Some op => Some op
  | None => last_op key l1
  end.
Proof.
  induction l1 as [|op l1 IH]; simpl.
  - by destruct (last_op key l2).
  - rewrite !last_op_cons, IH. by destruct (last_op key l2).
Qed.

Lemma last_op_None (key : bytes) (batch : CDBBatch) :
  Forall (λ op, op_key op ≠ key) batch → last_op key batch = None.
Proof.
  induction 1 as [|op batch Hop Hall IH]; [done|].
  rewrite last_op_cons, IH. by rewrite decide_False.
Qed.

Lemma last_op_Some (key : bytes) (op : BatchOp) (batch : CDBBatch) :
  last_op key batch = Some op → op ∈ batch ∧ op_key op = key.
Proof.
  induction batch as [|x batch IH]; [done|].
  rewrite last_op_cons. destruct (last_op key batch) as [op'|].
  - intros [= ->]. destruct (IH eq_refl) as [Hin Hkey].
    split; [by apply list_elem_of_further|done].
  - case_decide; [|done]. intros [= ->].
    split; [apply list_elem_of_here|done].
Qed.

Lemma last_op_unique (key : bytes) (op : BatchOp) (batch : CDBBatch) :
  op ∈ batch → op_key op = key →
  (∀ op', op' ∈ batch → op_key op' = key → op' = op) →
  last_op key batch = Some op.
Proof.
  intros Hin Hkey Hall.
  destruct (last_op key batch) as [op'|] eqn:Hlast.
  - apply last_op_Some in Hlast as [Hin' Hkey']. f_equal. by apply Hall.
  - exfalso. clear Hall. induction batch as [|x batch IH].
    + by apply elem_of_nil in Hin.
    + rewrite last_op_cons in Hlast.
      destruct (last_op key batch) as [op'|]; [done|].
      apply elem_of_cons in Hin as [->|Hin]; [|by apply IH].
      by rewrite decide_True in Hlast.
Qed.

(** The store after a batch: under each key, what the last operation that
    names the key leaves there. *)
Lemma apply_batch_lookup (key : bytes) (batch : CDBBatch) (db : CDBWrapper) :
  foldl apply_op db batch !! key = op_result (db !! key) (last_op key batch).
Proof.
  revert db. induction batch as [|op batch IH]; intros db; [done|].
  simpl. rewrite IH, last_op_cons.
  destruct (last_op key batch) as [op'|]; [done|].
  destruct op as [k v|k]; simpl; case_decide; subst; simpl.
  - apply lookup_insert_eq.
  - by apply lookup_insert_ne.
  - apply lookup_delete_eq.
  - by apply lookup_delete_ne.
Qed.

Lemma WriteBatch_lookup (engine_ok : bool) (db : CDBWrapper)
    (batch : CDBBatch) (key : bytes) :
  (WriteBatch engine_ok db batch).2 !! key =
  op_result (db !! key) (if engine_ok then last_op key batch else None).
Proof.
  rewrite WriteBatch_db. destruct engine_ok; [|done].
  apply apply_batch_lookup.
Qed.

Lemma WriteBatch_ret (engine_ok : bool) (db : CDBWrapper) (batch : CDBBatch) :
  (WriteBatch engine_ok db batch).1 = engine_ok.
Proof. by destruct engine_ok. Qed.

(** A batch filled by a loop that adds one operation per element. *)
Lemma foldl_batch {A : Type} (f : CDBBatch → A → CDBBatch) (g : A → BatchOp)
    (vect : list A) (batch : CDBBatch) :
  (∀ b it, f b it = b ++ [g it]) →
  foldl f batch vect = batch ++ map g vect.
Proof.
  intros Hf. revert batch.
  induction vect as [|it vect IH]; intros batch; simpl.
  - by rewrite app_nil_r.
  - by rewrite IH, Hf, <- app_assoc.
Qed.

Lemma last_value_cons {K V : Type} (P : K → Prop) `{!∀ k, Decision (P k)}
    (it : K * V) (vect : list (K * V)) :
  last_value P (it :: vect) =
  match last_value P vect with
  | Some v => Some v
  | None => if decide (P it.1) then Some it.2 else None
  end.
Proof.
  unfold last_value. simpl.
  generalize (if decide (P it.1) then Some it.2 else None).
  induction vect as [|x vect IH] using rev_ind; intros acc.
  - by destruct acc.
  - rewrite !foldl_app. simpl. by case_decide.
Qed.

(** The last operation on a key of a batch with one operation per pair. *)
Lemma last_op_map_cases {K V : Type} (ser : K → bytes) (g : K * V → BatchOp)
    (key : bytes) (vect : list (K * V)) :
  (∀ it, op_key (g it) = ser it.1) →
  (last_op key (map g vect) = None ∧
   last_value (λ k, ser k = key) vect = None) ∨
  (∃ it, last_op key (map g vect) = Some (g it) ∧
         last_value (λ k, ser k = key) vect = Some it.2).
Proof.
  intros Hkey. induction vect as [|it vect IH]; [by left|].
  simpl. rewrite last_op_cons, last_value_cons, Hkey.
  destruct IH as [[-> ->]|(it' & -> & ->)].
  - case_decide; [|by left]. right. by exists it.
  - right. by exists it'.
Qed.

Lemma last_op_map {K V : Type} (ser : K → bytes) (g : K * V → BatchOp)
    (key : bytes) (vect : list (K * V)) (old : option bytes)
    (res : V → option bytes) :
  (∀ it, op_key (g it) = ser it.1) →
  (∀ it old', op_result old' (Some (g it)) = res it.2) →
  op_result old (last_op key (map g vect)) =
  match last_value (λ k, ser k = key) vect with
  | Some v => res v
  | None => old
  end.
Proof.
  intros Hkey Hres.
  destruct (last_op_map_cases ser g key vect Hkey) as [[-> ->]|(it & -> & ->)].
  - done.
  - apply Hres.
Qed.

Lemma last_value_ext {K V : Type} (P Q : K → Prop)
    `{!∀ k, Decision (P k)} `{!∀ k, Decision (Q k)} (vect : list (K * V)) :
  (∀ k, P k ↔ Q k) → last_value P vect = last_value Q vect.
Proof.
  intros HPQ. induction vect as [|it vect IH]; [done|].
  rewrite !last_value_cons, IH.
  destruct (last_value Q vect); [done|].
  destruct (decide (P it.1)) as [HP|HP], (decide (Q it.1)) as [HQ|HQ];
    try done.
  - by apply HPQ in HP.
  - by apply HPQ in HQ.
Qed.

Lemma last_value_None {K V : Type} (P : K → Prop) `{!∀ k, Decision (P k)}
    (vect : list (K * V)) :
  last_value P vect = None ↔ Forall (λ it, ¬ P it.1) vect.
Proof.
  induction vect as [|it vect IH]; [by split; [constructor|]|].
  rewrite last_value_cons, Forall_cons, <- IH.
  destruct (last_value P vect); [by split; [|intros [_ ?]]|].
  case_decide; split; try done; by intros [? _].
Qed.

Lemma last_value_Some {K V : Type} (P : K → Prop) `{!∀ k, Decision (P k)}
    (vect : list (K * V)) (v : V) :
  last_value P vect = Some v → ∃ k, (k, v) ∈ vect ∧ P k.
Proof.
  induction vect as [|[k' v'] vect IH]; [done|].
  rewrite last_value_cons. destruct (last_value P vect) as [v''|].
  - intros [= ->]. destruct (IH eq_refl) as (k & Hin & HP).
    exists k. split; [by apply list_elem_of_further|done].
  - simpl. case_decide; [|done]. intros [= ->].
    exists k'. split; [apply list_elem_of_here|done].
Qed.

Lemma last_value_keys {K V V' : Type} (P : K → Prop) `{!∀ k, Decision (P k)}
    (vect : list (K * V)) (vect' : list (K * V')) :
  vect'.*1 = vect.*1 →
  last_value P vect' = None ↔ last_value P vect = None.
Proof.
  intros Hkeys. rewrite !last_value_None.
  rewrite <- !(Forall_fmap fst (λ k, ¬ P k)). by rewrite Hkeys.
Qed.

Lemma last_op_map_None {A : Type} (g : A → BatchOp) (key : bytes)
    (vect : list A) :
  (∀ it, op_key (g it) ≠ key) → last_op key (map g vect) = None.
Proof.
  intros Hg. apply last_op_None, Forall_forall.
  intros op (it & -> & _)%list_elem_of_fmap. apply Hg.
Qed.

Lemma last_op_singleton (key : bytes) (op : BatchOp) :
  last_op key [op] = if decide (op_key op = key) then Some op else None.
Proof. done. Qed.

Lemma op_result_app (key : bytes) (l1 l2 : CDBBatch) (old : option bytes) :
  op_result old (last_op key (l1 ++ l2)) =
  op_result (op_result old (last_op key l1)) (last_op key l2).
Proof. rewrite last_op_app. by destruct (last_op key l2). Qed.

(** ** The block-tree store: reads after writes *)

Section PointFacts.
Context {point_codec : PointCodec} {index_codec : IndexCodec}.
Context {block_env : BlockIndexEnv}.

(** X1: [WriteTxIndex] returns what the engine answers to the commit.  Once
    committed, [ReadTxIndex] of a transaction id yields the position that
    the last pair of the vector naming this id carries, read back from its
    serialization; an id the vector does not name, and every id when the
    commit fails, reads as before. *)
Theorem WriteTxIndex_read_back (engine_ok : bool) (db : CDBWrapper)
    (vect : list (uint256 * CDiskTxPos)) (txid : uint256) :
  let w := WriteTxIndex engine_ok db vect in
  w.1 = engine_ok ∧
  ReadTxIndex w.2 txid =
    match (if engine_ok then last_value (λ k, k = txid) vect else None) with
    | Some pos => reread pos
    | None => ReadTxIndex db txid
    end.
Proof.
  cbv zeta. unfold WriteTxIndex. rewrite WriteBatch_ret. split; [done|].
  unfold ReadTxIndex, db_Read. rewrite WriteBatch_lookup.
  destruct engine_ok; [|done].
  rewrite (foldl_batch _
             (λ it, OpWrite (Serialize (DB_TXINDEX, it.1)) (Serialize it.2)))
    by done.
  cbn [app].
  rewrite (last_op_map (λ k, Serialize (DB_TXINDEX, k))
             (λ it, OpWrite (Serialize (DB_TXINDEX, it.1)) (Serialize it.2))
             _ _ _ (λ pos, Some (Serialize pos))) by done.
  rewrite (last_value_ext _ (λ k, k = txid)).
  - by destruct (last_value _ vect).
  - intros k. split; [|by intros ->].
    intros [= Hk]. by apply blob256_inj.
Qed.

(** X2: [UpdateSpentIndex] returns what the engine answers.  Once
    committed, [ReadSpentIndex] of a key is decided by the last pair of the
    vector whose key serializes as the queried one: a null value leaves no
    entry (the read fails), any other value is read back from its
    serialization; a key no pair names, and every key when the commit
    fails, reads as before. *)
Theorem UpdateSpentIndex_read_back (engine_ok : bool) (db : CDBWrapper)
    (vect : list (CSpentIndexKey * CSpentIndexValue)) (key : CSpentIndexKey) :
  let w := UpdateSpentIndex engine_ok db vect in
  w.1 = engine_ok ∧
  ReadSpentIndex w.2 key =
    match (if engine_ok
           then last_value (λ k, Serialize k = Serialize key) vect
           else None) with
    | Some value =>
        if CSpentIndexValue_IsNull value then None else reread value
    | None => ReadSpentIndex db key
    end.
Proof.
  cbv zeta. unfold UpdateSpentIndex. rewrite WriteBatch_ret. split; [done|].
  unfold ReadSpentIndex, db_Read. rewrite WriteBatch_lookup.
  destruct engine_ok; [|done].
  rewrite (foldl_batch _
             (λ it, if CSpentIndexValue_IsNull it.2
                    then OpErase (Serialize (DB_SPENTINDEX, it.1))
                    else OpWrite (Serialize (DB_SPENTINDEX, it.1))
                                 (Serialize it.2)))
    by (intros b it; by destruct (CSpentIndexValue_IsNull it.2)).
  cbn [app].
  rewrite (last_op_map (λ k, Serialize (DB_SPENTINDEX, k))
             (λ it, if CSpentIndexValue_IsNull it.2
                    then OpErase (Serialize (DB_SPENTINDEX, it.1))
                    else OpWrite (Serialize (DB_SPENTINDEX, it.1))
                                 (Serialize it.2))
             _ _ _ (λ v, if CSpentIndexValue_IsNull v then None
                         else Some (Serialize v)));
    [|intros it; by destruct (CSpentIndexValue_IsNull it.2)
     |intros it old; by destruct (CSpentIndexValue_IsNull it.2)].
  rewrite (last_value_ext _ (λ k, Serialize k = Serialize key)).
  - destruct (last_value _ vect) as [v|]; [|done].
    by destruct (CSpentIndexValue_IsNull v).
  - intros k. split; [by intros [= Hk]|]. simpl. by intros ->.
Qed.

(** X3: [WriteFlag] returns what the engine answers.  Once committed,
    [ReadFlag] of the same name succeeds and reports the value written;
    a name that serializes differently reads as before, and so does the
    reindex marker.  When the commit fails, [ReadFlag] answers as before. *)
Theorem WriteFlag_read_back (engine_ok : bool) (db : CDBWrapper)
    (name other : string) (fValue old : bool) :
  let w := WriteFlag engine_ok db name fValue in
  w.1 = engine_ok ∧
  ReadFlag w.2 name old =
    (if engine_ok then (true, fValue) else ReadFlag db name old) ∧
  (Serialize other ≠ Serialize name →
   ReadFlag w.2 other old = ReadFlag db other old) ∧
  ReadReindexing w.2 = ReadReindexing db.
Proof.
  cbv zeta. unfold WriteFlag, db_Write. rewrite WriteBatch_ret.
  split; [done|].
  unfold ReadFlag, ReadReindexing, db_Read, db_Exists.
  rewrite !WriteBatch_lookup.
  destruct engine_ok; [|done].
  unfold batch_Write, last_op; simpl.
  rewrite decide_True by done. simpl. split; [by destruct fValue|].
  split.
  - intros Hne. rewrite decide_False; [done|]. by intros [= ?].
  - done.
Qed.

(** X4: once [WriteTimestampBlockIndex] has committed an entry whose
    key serializes as the block hash does, [ReadTimestampBlockIndex] of
    that hash succeeds with the logical timestamp read back from the
    stored value; when the commit fails it answers as before. *)
Theorem WriteTimestampBlockIndex_read_back (engine_ok : bool)
    (db : CDBWrapper) (blockhashIndex : CTimestampBlockIndexKey)
    (logicalts : CTimestampBlockIndexValue.t) (hash : uint256) (old : Z) :
  Serialize blockhashIndex = Serialize hash →
  let w := WriteTimestampBlockIndex engine_ok db blockhashIndex logicalts in
  w.1 = engine_ok ∧
  ReadTimestampBlockIndex w.2 hash old =
    if engine_ok then
      match reread logicalts with
      | Some lts => (true, CTimestampBlockIndexValue.ltimestamp lts)
      | None => (false, old)
      end
    else ReadTimestampBlockIndex db hash old.
Proof.
  intros Hkey. cbv zeta. unfold WriteTimestampBlockIndex.
  rewrite WriteBatch_ret. split; [done|].
  unfold ReadTimestampBlockIndex, db_Read. rewrite WriteBatch_lookup.
  destruct engine_ok; [|done].
  unfold batch_Write, last_op; simpl. rewrite Hkey.
  by rewrite decide_True.
Qed.

(** The store [WriteBatchSync] leaves when the engine commits. *)
Lemma WriteBatchSync_lookup (db : CDBWrapper)
    (fileInfo : list (int * CBlockFileInfo)) (nLastFile : int)
    (blockinfo : list (uint256 * CBlockIndex.t)) (k : bytes) :
  (WriteBatchSync true db fileInfo nLastFile blockinfo).2 !! k =
  op_result
    (op_result
       (op_result (db !! k)
          (last_op k
             (map (λ it, OpWrite (Serialize (DB_BLOCK_FILES, it.1))
                                 (Serialize it.2)) fileInfo)))
       (last_op k [OpWrite (Serialize DB_LAST_BLOCK) (Serialize nLastFile)]))
    (last_op k
       (map (λ it, OpWrite (Serialize (DB_BLOCK_INDEX, it.1))
                           (Serialize (CDiskBlockIndex_of it.2))) blockinfo)).
Proof.
  unfold WriteBatchSync. rewrite WriteBatch_lookup.
  rewrite (foldl_batch _
             (λ it, OpWrite (Serialize (DB_BLOCK_INDEX, it.1))
                            (Serialize (CDiskBlockIndex_of it.2)))) by done.
  rewrite (foldl_batch _
             (λ it, OpWrite (Serialize (DB_BLOCK_FILES, it.1))
                            (Serialize it.2))) by done.
  unfold batch_Write. cbn [app]. by rewrite !op_result_app.
Qed.

Lemma WriteBatchSync_last_file (db : CDBWrapper)
    (fileInfo : list (int * CBlockFileInfo)) (nLastFile : int)
    (blockinfo : list (uint256 * CBlockIndex.t)) :
  (WriteBatchSync true db fileInfo nLastFile blockinfo).2
    !! Serialize DB_LAST_BLOCK = Some (Serialize nLastFile).
Proof.
  rewrite WriteBatchSync_lookup.
  rewrite (last_op_map_None _ _ blockinfo) by done.
  rewrite last_op_singleton. by rewrite decide_True.
Qed.

Lemma WriteBatchSync_file_info (db : CDBWrapper)
    (fileInfo : list (int * CBlockFileInfo)) (nLastFile : int)
    (blockinfo : list (uint256 * CBlockIndex.t)) (nFile : int) :
  (WriteBatchSync true db fileInfo nLastFile blockinfo).2
    !! Serialize (DB_BLOCK_FILES, nFile) =
  match last_value (λ n, Serialize n = Serialize nFile) fileInfo with
  | Some info => Some (Serialize info)
  | None => db !! Serialize (DB_BLOCK_FILES, nFile)
  end.
Proof.
  rewrite WriteBatchSync_lookup.
  rewrite (last_op_map_None _ _ blockinfo) by done.
  rewrite last_op_singleton. rewrite decide_False by done.
  cbn [op_result].
  rewrite (last_op_map (λ n, Serialize (DB_BLOCK_FILES, n))
             (λ it, OpWrite (Serialize (DB_BLOCK_FILES, it.1))
                            (Serialize it.2))
             _ _ _ (λ info, Some (Serialize info))) by done.
  rewrite (last_value_ext _ (λ n, Serialize n = Serialize nFile)); [done|].
  intros n. split; [by intros [= ?]|]. simpl. by intros ->.
Qed.

Lemma WriteBatchSync_block (db : CDBWrapper)
    (fileInfo : list (int * CBlockFileInfo)) (nLastFile : int)
    (blockinfo : list (uint256 * CBlockIndex.t)) (hash : uint256) :
  (WriteBatchSync true db fileInfo nLastFile blockinfo).2
    !! encode K_BLOCK_INDEX (blob256 hash) =
  match last_value (λ h, h = hash) blockinfo with
  | Some node => Some (Serialize (CDiskBlockIndex_of node))
  | None => db !! encode K_BLOCK_INDEX (blob256 hash)
  end.
Proof.
  rewrite WriteBatchSync_lookup.
  rewrite last_op_singleton. rewrite decide_False by done.
  rewrite (last_op_map_None _ _ fileInfo) by done.
  cbn [op_result].
  rewrite (last_op_map (λ h, Serialize (DB_BLOCK_INDEX, h))
             (λ it, OpWrite (Serialize (DB_BLOCK_INDEX, it.1))
                            (Serialize (CDiskBlockIndex_of it.2)))
             _ _ _ (λ node, Some (Serialize (CDiskBlockIndex_of node))))
    by done.
  rewrite (last_value_ext _ (λ h, h = hash)); [done|].
  intros h. split; [|by intros ->]. intros [= Hh]. by apply blob256_inj.
Qed.

(** X5: [WriteBatchSync] returns what the engine answers and leaves the
    store unchanged when the commit fails.  Once committed,
    [ReadLastBlockFile] reads back the last file number, [ReadBlockFileInfo]
    of a file number reads back the info of the last pair naming it (or
    what it read before), and the block-index key of a hash holds the
    record built from the last node listed under this hash (or what it
    held before). *)
Theorem WriteBatchSync_read_back (engine_ok : bool) (db : CDBWrapper)
    (fileInfo : list (int * CBlockFileInfo)) (nLastFile : int)
    (blockinfo : list (uint256 * CBlockIndex.t)) (nFile : int)
    (hash : uint256) :
  let w := WriteBatchSync engine_ok db fileInfo nLastFile blockinfo in
  let key := encode K_BLOCK_INDEX (blob256 hash) in
  w.1 = engine_ok ∧
  if engine_ok then
    ReadLastBlockFile w.2 = reread nLastFile ∧
    ReadBlockFileInfo w.2 nFile =
      match last_value (λ n, Serialize n = Serialize nFile) fileInfo with
      | Some info => reread info
      | None => ReadBlockFileInfo db nFile
      end ∧
    w.2 !! key =
      match last_value (λ h, h = hash) blockinfo with
      | Some node => Some (Serialize (CDiskBlockIndex_of node))
      | None => db !! key
      end
  else w.2 = db.
Proof.
  cbv zeta. split; [apply WriteBatch_ret|].
  destruct engine_ok; [|done].
  unfold ReadLastBlockFile, ReadBlockFileInfo, db_Read.
  rewrite WriteBatchSync_last_file, WriteBatchSync_file_info,
    WriteBatchSync_block.
  split; [done|]. split; [|done].
  by destruct (last_value _ fileInfo).
Qed.

(** X6: [EraseBatchSync] of the blocks a [WriteBatchSync] has just
    stored (both committed) leaves no block-index entry under the hash of
    any of them, whatever the nodes hold; the entry of any other hash is
    as it was before the two calls, and the last file number and the file
    infos stay as written. *)
Theorem EraseBatchSync_after_write (db : CDBWrapper)
    (fileInfo : list (int * CBlockFileInfo)) (nLastFile : int)
    (blockinfo blockinfo' : list (uint256 * CBlockIndex.t)) (nFile : int)
    (hash : uint256) :
  blockinfo'.*1 = blockinfo.*1 →
  let written := (WriteBatchSync true db fileInfo nLastFile blockinfo).2 in
  let erased := (EraseBatchSync true written blockinfo').2 in
  let key := encode K_BLOCK_INDEX (blob256 hash) in
  erased !! key = (if decide (hash ∈ blockinfo.*1) then None else db !! key) ∧
  ReadLastBlockFile erased = reread nLastFile ∧
  ReadBlockFileInfo erased nFile = ReadBlockFileInfo written nFile.
Proof.
  intros Hkeys written erased key. subst key.
  set (g := λ it : uint256 * CBlockIndex.t,
              OpErase (Serialize (DB_BLOCK_INDEX, it.1))).
  assert (∀ k, erased !! k =
               op_result (written !! k) (last_op k (map g blockinfo')))
    as Herased.
  { intros k. subst erased. unfold EraseBatchSync.
    rewrite WriteBatch_lookup. by rewrite (foldl_batch _ g). }
  split; [|split].
  - rewrite Herased.
    rewrite (last_op_map (λ h, Serialize (DB_BLOCK_INDEX, h)) g
               _ _ _ (λ _, None)) by done.
    rewrite (last_value_ext _ (λ h, h = hash));
      [|intros h; split; [intros [= Hh]; by apply blob256_inj|by intros ->]].
    pose proof (last_value_keys (λ h, h = hash) blockinfo blockinfo' Hkeys)
      as Hnone.
    subst written. rewrite WriteBatchSync_block.
    destruct (last_value _ blockinfo') as [v|] eqn:Hv.
    + rewrite decide_True; [done|].
      destruct (decide (hash ∈ blockinfo.*1)) as [|Hnin]; [done|].
      assert (last_value (λ h, h = hash) blockinfo = None) as Hb.
      { apply last_value_None, (Forall_fmap fst (λ h, h ≠ hash)).
        apply Forall_forall. by intros h Hh ->. }
      apply Hnone in Hb. by rewrite Hb in Hv.
    + rewrite (proj1 Hnone eq_refl). rewrite decide_False; [done|].
      apply last_value_None in Hv.
      apply (Forall_fmap fst (λ h, h ≠ hash)) in Hv.
      rewrite Hkeys, Forall_forall in Hv. intros Hin. by apply (Hv hash).
  - unfold ReadLastBlockFile, db_Read. rewrite Herased.
    rewrite (last_op_map_None g) by done. simpl.
    subst written. by rewrite WriteBatchSync_last_file.
  - unfold ReadBlockFileInfo, db_Read. rewrite Herased.
    by rewrite (last_op_map_None g).
Qed.

End PointFacts.

(** ** The address and timestamp indices *)

Lemma scan_loop_ext {A : Type} (body body' : bytes * bytes → Turn A)
    (pcursor : CDBIterator) (out : list A) :
  (∀ e, body e = body' e) →
  scan_loop body pcursor out = scan_loop body' pcursor out.
Proof.
  intros Hext. revert out.
  induction pcursor as [|e rest IH]; intros out; simpl; [done|].
  rewrite Hext. destruct (body' e); auto.
Qed.

Lemma scan_loop_no_return {A : Type} (body : bytes * bytes → Turn A)
    (pcursor : CDBIterator) (out : list A) :
  (∀ e b, body e ≠ Return b) → (scan_loop body pcursor out).1 = true.
Proof.
  intros Hbody. revert out.
  induction pcursor as [|e rest IH]; intros out; simpl; [done|].
  destruct (body e) as [x| | |b] eqn:He; auto. by destruct (Hbody e b).
Qed.

Section IndexFacts.
Context {point_codec : PointCodec} {index_codec : IndexCodec}.

Lemma WriteAddressIndex_lookup (db : CDBWrapper)
    (vect : list (CAddressIndexKey.t * CAmount)) (k : bytes) :
  (WriteAddressIndex true db vect).2 !! k =
  match last_value (λ key, Serialize (DB_ADDRESSINDEX, key) = k) vect with
  | Some v => Some (@Serialize CAmount CAmount_Serializable v)
  | None => db !! k
  end.
Proof.
  unfold WriteAddressIndex. rewrite WriteBatch_lookup.
  rewrite (foldl_batch _
             (λ it, OpWrite (Serialize (DB_ADDRESSINDEX, it.1))
                            (@Serialize CAmount CAmount_Serializable it.2)))
    by done.
  cbn [app].
  by rewrite (last_op_map (λ key, Serialize (DB_ADDRESSINDEX, key))
                (λ it, OpWrite (Serialize (DB_ADDRESSINDEX, it.1))
                               (@Serialize CAmount CAmount_Serializable it.2))
                _ _ _ (λ v, Some (@Serialize CAmount CAmount_Serializable v))).
Qed.

Lemma EraseAddressIndex_lookup (db : CDBWrapper)
    (vect : list (CAddressIndexKey.t * CAmount)) (k : bytes) :
  (EraseAddressIndex true db vect).2 !! k =
  match last_value (λ key, Serialize (DB_ADDRESSINDEX, key) = k) vect with
  | Some _ => None
  | None => db !! k
  end.
Proof.
  unfold EraseAddressIndex. rewrite WriteBatch_lookup.
  rewrite (foldl_batch _
             (λ it, OpErase (Serialize (DB_ADDRESSINDEX, it.1)))) by done.
  cbn [app].
  by rewrite (last_op_map (λ key, Serialize (DB_ADDRESSINDEX, key))
                (λ it : CAddressIndexKey.t * CAmount,
                   OpErase (Serialize (DB_ADDRESSINDEX, it.1)))
                _ _ _ (λ _, None)).
Qed.

(** X7: [EraseAddressIndex] looks at the keys of its vector only.
    Erasing the keys that a [WriteAddressIndex] has just written (both
    committed), with whatever amounts, leaves the store that erasing them
    from the original store leaves; when the original store held none of
    these keys, this is the original store. *)
Theorem EraseAddressIndex_after_write (db : CDBWrapper)
    (vect vect' : list (CAddressIndexKey.t * CAmount)) :
  vect'.*1 = vect.*1 →
  let written := (WriteAddressIndex true db vect).2 in
  let erased := (EraseAddressIndex true written vect').2 in
  erased = (EraseAddressIndex true db vect).2 ∧
  (Forall (λ it, db !! Serialize (DB_ADDRESSINDEX, it.1) = None) vect →
   erased = db).
Proof.
  intros Hkeys written erased.
  assert (∀ k, erased !! k =
               match last_value
                       (λ key, Serialize (DB_ADDRESSINDEX, key) = k) vect with
               | Some _ => None
               | None => db !! k
               end) as Herased.
  { intros k. subst erased written.
    rewrite EraseAddressIndex_lookup, WriteAddressIndex_lookup.
    pose proof (last_value_keys
                  (λ key, Serialize (DB_ADDRESSINDEX, key) = k)
                  vect vect' Hkeys) as Hnone.
    destruct (last_value _ vect') as [v'|] eqn:Hv';
      destruct (last_value _ vect) as [v|] eqn:Hv; try done.
    - pose proof (proj2 Hnone eq_refl). done.
    - pose proof (proj1 Hnone eq_refl). done. }
  split.
  - apply map_eq. intros k. by rewrite Herased, EraseAddressIndex_lookup.
  - intros Habsent. apply map_eq. intros k. rewrite Herased.
    destruct (last_value _ vect) as [v|] eqn:Hv; [|done].
    apply last_value_Some in Hv as (key & Hin & <-).
    rewrite Forall_forall in Habsent. symmetry. by apply (Habsent (key, v)).
Qed.

(** The store [UpdateAddressUnspentIndex] leaves when the engine commits. *)
Lemma UpdateAddressUnspentIndex_lookup (db : CDBWrapper)
    (vect : list (CAddressUnspentKey.t * CAddressUnspentValue.t)) (k : bytes) :
  (UpdateAddressUnspentIndex true db vect).2 !! k =
  match last_value
          (λ key, Serialize (DB_ADDRESSUNSPENTINDEX, key) = k) vect with
  | Some v => if CAddressUnspentValue_IsNull v then None
              else Some (Serialize v)
  | None => db !! k
  end.
Proof.
  unfold UpdateAddressUnspentIndex. rewrite WriteBatch_lookup.
  rewrite (foldl_batch _
             (λ it, if CAddressUnspentValue_IsNull it.2
                    then OpErase (Serialize (DB_ADDRESSUNSPENTINDEX, it.1))
                    else OpWrite (Serialize (DB_ADDRESSUNSPENTINDEX, it.1))
                                 (Serialize it.2)))
    by (intros b it; by destruct (CAddressUnspentValue_IsNull it.2)).
  cbn [app].
  rewrite (last_op_map (λ key, Serialize (DB_ADDRESSUNSPENTINDEX, key))
             (λ it, if CAddressUnspentValue_IsNull it.2
                    then OpErase (Serialize (DB_ADDRESSUNSPENTINDEX, it.1))
                    else OpWrite (Serialize (DB_ADDRESSUNSPENTINDEX, it.1))
                                 (Serialize it.2))
             _ _ _ (λ v, if CAddressUnspentValue_IsNull v then None
                         else Some (Serialize v)));
    [done
    |intros it; by destruct (CAddressUnspentValue_IsNull it.2)
    |intros it old; by destruct (CAddressUnspentValue_IsNull it.2)].
Qed.

(** X8: an address-unspent scan that follows a committed
    [UpdateAddressUnspentIndex] sees the index in its updated state: every
    entry it appends is decoded from a stored entry which either is what
    the last pair of the vector naming its key wrote (a value that is not
    null) or, when no pair names its key, was stored before the update.
    An entry whose key was last updated with a null value is never
    returned. *)
Theorem UpdateAddressUnspentIndex_then_scan (db : CDBWrapper)
    (vect : list (CAddressUnspentKey.t * CAddressUnspentValue.t))
    (addressHash : uint160) (type : Z)
    (unspentOutputs : list (CAddressUnspentKey.t * CAddressUnspentValue.t)) :
  let w := UpdateAddressUnspentIndex true db vect in
  let r := ReadAddressUnspentIndex w.2 addressHash type unspentOutputs in
  w.1 = true ∧
  ∃ found,
    r.2 = unspentOutputs ++ found ∧
    Forall (λ kv,
      ∃ e, GetKey (ascii * CAddressUnspentKey.t) e =
             Some (DB_ADDRESSUNSPENTINDEX, kv.1) ∧
           GetValue CAddressUnspentValue.t e = Some kv.2 ∧
           match last_value
                   (λ key, Serialize (DB_ADDRESSUNSPENTINDEX, key) = e.1)
                   vect with
           | Some v => CAddressUnspentValue_IsNull v = false ∧
                       e.2 = Serialize v
           | None => db !! e.1 = Some e.2
           end) found.
Proof.
  cbv zeta. split; [done|]. unfold ReadAddressUnspentIndex.
  destruct (scan_loop_pushed (ReadAddressUnspentIndex_body addressHash)
              (Seek (ReadAddressUnspentIndex_seek type addressHash)
                    (NewIterator (UpdateAddressUnspentIndex true db vect).2))
              unspentOutputs) as (found & Hout & Hall).
  exists found. split; [exact Hout|].
  eapply Forall_impl; [exact Hall|].
  intros [k v] (e & Hin & Hpush). simpl. exists e.
  apply elem_of_cursor in Hin. rewrite UpdateAddressUnspentIndex_lookup in Hin.
  destruct (GetKey (ascii * CAddressUnspentKey.t) e) as [[c k']|] eqn:Hkey.
  - rewrite (ReadAddressUnspentIndex_body_key _ _ _ _ Hkey) in Hpush.
    destruct (bool_decide (c = DB_ADDRESSUNSPENTINDEX)) eqn:Ec; [|done].
    destruct (bool_decide (CAddressUnspentKey.hashBytes k' = addressHash));
      [|done].
    apply bool_decide_eq_true in Ec. simpl in Hpush.
    destruct (GetValue CAddressUnspentValue.t e) as [v'|]; [|done].
    injection Hpush as -> ->. subst c. split; [done|]. split; [done|].
    destruct (last_value _ vect) as [v''|]; [|done].
    destruct (CAddressUnspentValue_IsNull v''); [done|].
    by injection Hin as ->.
  - by rewrite ReadAddressUnspentIndex_body_key_fails in Hpush.
Qed.

(** X9: [ReadAddressUnspentIndex] appends to the caller's vector
    only entries of the store whose key carries the address-unspent tag
    and the requested address hash, and it stops at the first entry whose
    tag or address hash differs: the result is that of scanning the
    entries before it.  It returns false only when the value of an
    accepted entry does not decode. *)
Theorem ReadAddressUnspentIndex_matching (db : CDBWrapper)
    (addressHash : uint160) (type : Z)
    (unspentOutputs : list (CAddressUnspentKey.t * CAddressUnspentValue.t)) :
  let r := ReadAddressUnspentIndex db addressHash type unspentOutputs in
  let cursor :=
    Seek (ReadAddressUnspentIndex_seek type addressHash) (NewIterator db) in
  (∃ found,
     r.2 = unspentOutputs ++ found ∧
     Forall (λ kv,
        CAddressUnspentKey.hashBytes kv.1 = addressHash ∧
        ∃ e, db !! e.1 = Some e.2 ∧
             GetKey (ascii * CAddressUnspentKey.t) e =
               Some (DB_ADDRESSUNSPENTINDEX, kv.1) ∧
             GetValue CAddressUnspentValue.t e = Some kv.2) found) ∧
  (∀ pre e post c k,
     cursor = pre ++ e :: post →
     GetKey (ascii * CAddressUnspentKey.t) e = Some (c, k) →
     c ≠ DB_ADDRESSUNSPENTINDEX ∨
       CAddressUnspentKey.hashBytes k ≠ addressHash →
     r = scan_loop (ReadAddressUnspentIndex_body addressHash) pre
                   unspentOutputs) ∧
  (r.1 = false →
   ∃ e k, e ∈ cursor ∧
          GetKey (ascii * CAddressUnspentKey.t) e =
            Some (DB_ADDRESSUNSPENTINDEX, k) ∧
          CAddressUnspentKey.hashBytes k = addressHash ∧
          GetValue CAddressUnspentValue.t e = None).
Proof.
  intros r cursor. subst r cursor. unfold ReadAddressUnspentIndex.
  split; [|split].
  - destruct (scan_loop_pushed (ReadAddressUnspentIndex_body addressHash)
                (Seek (ReadAddressUnspentIndex_seek type addressHash)
                      (NewIterator db)) unspentOutputs)
      as (found & Hout & Hall).
    exists found. split; [exact Hout|].
    eapply Forall_impl; [exact Hall|].
    intros [k v] (e & Hin & Hpush). simpl.
    apply elem_of_cursor in Hin.
    destruct (GetKey (ascii * CAddressUnspentKey.t) e) as [[c k']|] eqn:Hkey.
    + rewrite (ReadAddressUnspentIndex_body_key _ _ _ _ Hkey) in Hpush.
      destruct (bool_decide (c = DB_ADDRESSUNSPENTINDEX)) eqn:Ec; [|done].
      destruct (bool_decide (CAddressUnspentKey.hashBytes k' = addressHash))
        eqn:Eh; [|done].
      apply bool_decide_eq_true in Ec, Eh. simpl in Hpush.
      destruct (GetValue CAddressUnspentValue.t e) as [v'|] eqn:Hv; [|done].
      injection Hpush as -> ->. subst c. split; [done|]. by exists e.
    + by rewrite ReadAddressUnspentIndex_body_key_fails in Hpush.
  - intros pre e post c k Hcur Hkey Hstop. rewrite Hcur.
    apply scan_loop_break.
    rewrite (ReadAddressUnspentIndex_body_key _ _ _ _ Hkey).
    destruct Hstop as [Hc|Hh].
    + by rewrite (bool_decide_eq_false_2 _ Hc).
    + rewrite (bool_decide_eq_false_2 _ Hh). by rewrite andb_false_r.
  - generalize (Seek (ReadAddressUnspentIndex_seek type addressHash)
                     (NewIterator db)).
    intros pcursor. revert unspentOutputs.
    induction pcursor as [|e rest IH]; intros out; simpl; [done|].
    destruct (ReadAddressUnspentIndex_body addressHash e) as [x| | |b] eqn:He;
      [| |done|].
    + intros Hr. destruct (IH _ Hr) as (e' & k & Hin & Hrest).
      exists e', k. split; [by apply list_elem_of_further|done].
    + intros Hr. destruct (IH _ Hr) as (e' & k & Hin & Hrest).
      exists e', k. split; [by apply list_elem_of_further|done].
    + simpl. intros ->.
      destruct (GetKey (ascii * CAddressUnspentKey.t) e) as [[c k]|] eqn:Hkey.
      * rewrite (ReadAddressUnspentIndex_body_key _ _ _ _ Hkey) in He.
        destruct (bool_decide (c = DB_ADDRESSUNSPENTINDEX)) eqn:Ec; [|done].
        destruct (bool_decide (CAddressUnspentKey.hashBytes k = addressHash))
          eqn:Eh; [|done].
        apply bool_decide_eq_true in Ec, Eh. simpl in He.
        destruct (GetValue CAddressUnspentValue.t e) eqn:Hv; [done|].
        subst c. exists e, k. split; [apply list_elem_of_here|done].
      * by rewrite ReadAddressUnspentIndex_body_key_fails in He.
Qed.

(** X10: [ReadTimestampIndex] always returns true.  Every pair it
    appends to the caller's vector is the block hash and timestamp of a
    stored key with the timestamp tag whose timestamp is below [high],
    and, when only active blocks are asked for, whose block is on the
    active chain. *)
Theorem ReadTimestampIndex_range (blockOnchainActive : uint256 → bool)
    (db : CDBWrapper) (high low : Z) (fActiveOnly : bool)
    (hashes : list (uint256 * Z)) :
  let r :=
    ReadTimestampIndex blockOnchainActive db high low fActiveOnly hashes in
  r.1 = true ∧
  ∃ found,
    r.2 = hashes ++ found ∧
    Forall (λ ht,
      ht.2 < high ∧
      (fActiveOnly = true → blockOnchainActive ht.1 = true) ∧
      ∃ e, db !! e.1 = Some e.2 ∧
           GetKey (ascii * CTimestampIndexKey.t) e =
             Some (DB_TIMESTAMPINDEX, CTimestampIndexKey.mk ht.2 ht.1)) found.
Proof.
  cbv zeta. unfold ReadTimestampIndex. split.
  - apply scan_loop_no_return. intros e b.
    unfold ReadTimestampIndex_body. repeat case_match; done.
  - destruct (scan_loop_pushed
                (ReadTimestampIndex_body blockOnchainActive high fActiveOnly)
                (Seek (ReadTimestampIndex_seek low) (NewIterator db)) hashes)
      as (found & Hout & Hall).
    exists found. split; [exact Hout|].
    eapply Forall_impl; [exact Hall|].
    intros [h t] (e & Hin & Hpush). simpl.
    apply elem_of_cursor in Hin.
    unfold ReadTimestampIndex_body in Hpush.
    assert (∀ c s v t' h' s',
              Unserialize CTimestampIndexKey.t s =
                Some (CTimestampIndexKey.mk t' h', s') →
              GetKey (ascii * CTimestampIndexKey.t) (c :: s, v) =
                Some (c, CTimestampIndexKey.mk t' h')) as Hget.
    { intros c s v t' h' s' Hs. unfold GetKey. simpl. by rewrite Hs. }
    destruct e as [[|c s] v]; simpl in *; [done|].
    destruct (Unserialize CTimestampIndexKey.t s) as [[[t' h'] s']|] eqn:Hs;
      [|done].
    apply (Hget c s v) in Hs. simpl in *.
    destruct (bool_decide (c = DB_TIMESTAMPINDEX)) eqn:Ec; [|done].
    destruct (t' <? high) eqn:Et; [|done].
    apply bool_decide_eq_true in Ec. apply Z.ltb_lt in Et. simpl in Hpush.
    destruct fActiveOnly.
    + destruct (blockOnchainActive h') eqn:Ea; [|done].
      injection Hpush as -> ->. subst c.
      split; [done|]. split; [done|]. by exists (DB_TIMESTAMPINDEX :: s, v).
    + injection Hpush as -> ->. subst c.
      split; [done|]. split; [done|]. by exists (DB_TIMESTAMPINDEX :: s, v).
Qed.

(** X11: [ReadAddressIndex] uses [start] only together with a
    positive [end]: with [end] not positive, any [start] gives the result
    of the scan without bounds; and a [start] that is not positive gives
    the result of the scan from the first entry of the address. *)
Theorem ReadAddressIndex_start_needs_end (db : CDBWrapper)
    (addressHash : uint160) (type : Z)
    (addressIndex : list (CAddressIndexKey.t * CAmount)) (start end_ : Z) :
  start ≤ 0 ∨ end_ ≤ 0 →
  ReadAddressIndex db addressHash type addressIndex start end_ =
  ReadAddressIndex db addressHash type addressIndex 0 (Z.max end_ 0).
Proof.
  intros Hbound. unfold ReadAddressIndex, ReadAddressIndex_seek.
  assert ((0 <? start) && (0 <? end_) = false) as ->.
  { apply andb_false_iff. rewrite !Z.ltb_ge. lia. }
  simpl. apply scan_loop_ext. intros e. unfold ReadAddressIndex_body.
  repeat case_match; try done; lia.
Qed.

End IndexFacts.

(** ** The flush: reading back what was flushed *)

Lemma reread_uint256 (h : uint256) : full_width h → reread h = Some h.
Proof.
  unfold full_width, reread. destruct h as [blob]; simpl. intros Hlen.
  rewrite decide_True by lia. simpl. f_equal. f_equal.
  apply take_ge. lia.
Qed.

Section FlushReads.
Context {SproutMerkleTree SaplingMerkleTree : Type}.
Context {sprout_tree : MerkleTree SproutMerkleTree}.
Context {sapling_tree : MerkleTree SaplingMerkleTree}.
Context {coins_methods : CoinsMethods}.
Context (db : CDBWrapper).
Context (mapCoins : CCoinsMap).
Context (hashBlock hashSproutAnchor hashSaplingAnchor : uint256).
Context
  (mapSproutAnchors : gmap uint256 (CAnchorsCacheEntry.t SproutMerkleTree)).
Context
  (mapSaplingAnchors : gmap uint256 (CAnchorsCacheEntry.t SaplingMerkleTree)).
Context (mapSproutNullifiers mapSaplingNullifiers : CNullifiersMap).

Lemma entry_ops_key (d : DeltaEntry SproutMerkleTree SaplingMerkleTree) op :
  op ∈ entry_ops d → op_key op = delta_key d.
Proof.
  destruct d as [k e|k e|k e|k e|k e]; simpl.
  - apply coins_ops_key.
  - apply anchor_ops_key.
  - apply anchor_ops_key.
  - apply nullifier_ops_key.
  - apply nullifier_ops_key.
Qed.

Lemma entry_ops_dirty (d : DeltaEntry SproutMerkleTree SaplingMerkleTree) :
  entry_ops d =
  if delta_dirty d
  then match delta_op d with Some op => [op] | None => [] end
  else [].
Proof.
  destruct (delta_dirty d) eqn:Hd.
  - by apply dirty_entry_ops.
  - destruct d as [k e|k e|k e|k e|k e]; simpl in *;
      unfold coins_ops, anchor_ops, nullifier_ops; simpl; by rewrite Hd.
Qed.

(** Every operation batched by the loops comes from an entry passed in. *)
Lemma loops_ops_delta op :
  op ∈ loops_ops mapCoins mapSproutAnchors mapSaplingAnchors
                 mapSproutNullifiers mapSaplingNullifiers →
  ∃ d, passed_in mapCoins mapSproutAnchors mapSaplingAnchors
                 mapSproutNullifiers mapSaplingNullifiers d ∧
       op ∈ entry_ops d.
Proof.
  intros H. apply loops_ops_entry in H.
  destruct H as [(k & e & Hk & H)|[(k & e & Hk & H)|[(k & e & Hk & H)|
                [(k & e & Hk & H)|(k & e & Hk & H)]]]].
  - by exists (CoinEntry k e).
  - by exists (SproutAnchorEntry k e).
  - by exists (SaplingAnchorEntry k e).
  - by exists (SproutNullifierEntry k e).
  - by exists (SaplingNullifierEntry k e).
Qed.

Lemma delta_key_inj (d d' : DeltaEntry SproutMerkleTree SaplingMerkleTree) :
  passed_in mapCoins mapSproutAnchors mapSaplingAnchors
            mapSproutNullifiers mapSaplingNullifiers d →
  passed_in mapCoins mapSproutAnchors mapSaplingAnchors
            mapSproutNullifiers mapSaplingNullifiers d' →
  delta_key d = delta_key d' → d = d'.
Proof.
  destruct d as [k e|k e|k e|k e|k e], d' as [k' e'|k' e'|k' e'|k' e'|k' e'];
    simpl; intros Hd Hd' Hkey; try discriminate Hkey;
    injection Hkey as Hk%blob256_inj; subst k'; congruence.
Qed.

Lemma delta_key_not_slot (d : DeltaEntry SproutMerkleTree SaplingMerkleTree)
    h1 h2 h3 :
  Forall (λ op, op_key op ≠ delta_key d) (BatchWrite_best [] h1 h2 h3).
Proof.
  apply Forall_forall. intros op Hop.
  apply best_ops_key in Hop as [->|[->| ->]]; by destruct d.
Qed.

Lemma BatchWrite_lookup (engine_ok : bool) (key : bytes) :
  fl_db (BatchWrite engine_ok db mapCoins hashBlock hashSproutAnchor
           hashSaplingAnchor mapSproutAnchors mapSaplingAnchors
           mapSproutNullifiers mapSaplingNullifiers) !! key =
  op_result
    (op_result (db !! key)
       (if engine_ok
        then last_op key (loops_ops mapCoins mapSproutAnchors mapSaplingAnchors
                                    mapSproutNullifiers mapSaplingNullifiers)
        else None))
    (if engine_ok
     then last_op key (BatchWrite_best [] hashBlock hashSproutAnchor
                                       hashSaplingAnchor)
     else None).
Proof.
  rewrite BatchWrite_db, BatchWrite_batch, WriteBatch_lookup.
  destruct engine_ok; [|done]. apply op_result_app.
Qed.

(** What the committed flush leaves under the key of an entry passed in:
    the result of the operation [delta_op] gives for a dirty entry, and
    what the store held for an entry that is not dirty. *)
Lemma flushed_entry (d : DeltaEntry SproutMerkleTree SaplingMerkleTree) :
  passed_in mapCoins mapSproutAnchors mapSaplingAnchors
            mapSproutNullifiers mapSaplingNullifiers d →
  fl_db (BatchWrite true db mapCoins hashBlock hashSproutAnchor
           hashSaplingAnchor mapSproutAnchors mapSaplingAnchors
           mapSproutNullifiers mapSaplingNullifiers) !! delta_key d =
  op_result (db !! delta_key d) (if delta_dirty d then delta_op d else None).
Proof.
  intros Hin. rewrite BatchWrite_lookup.
  rewrite (last_op_None _ (BatchWrite_best _ _ _ _))
    by apply delta_key_not_slot.
  cbn [op_result]. f_equal.
  assert (∀ op', op' ∈ loops_ops mapCoins mapSproutAnchors mapSaplingAnchors
                          mapSproutNullifiers mapSaplingNullifiers →
                 op_key op' = delta_key d → op' ∈ entry_ops d) as Hnamed.
  { intros op' Hop' Hkey.
    apply loops_ops_delta in Hop' as (d' & Hin' & Hop').
    pose proof (entry_ops_key _ _ Hop') as Hkey'.
    rewrite Hkey in Hkey'. by rewrite (delta_key_inj d d' Hin Hin' Hkey'). }
  pose proof (entry_ops_dirty d) as Hops.
  destruct (delta_dirty d) eqn:Hdirty;
    [destruct (delta_op d) as [op|] eqn:Hop|].
  - apply last_op_unique.
    + unfold loops_ops.
      rewrite !elem_of_app, !elem_of_flat_map_to_list.
      destruct d as [k e|k e|k e|k e|k e]; simpl in Hin, Hops;
        [left|right; left|do 2 right; left|do 3 right; left|do 4 right];
        exists k, e; (split; [done|]); rewrite Hops; apply list_elem_of_here.
    + apply entry_ops_key. rewrite Hops. apply list_elem_of_here.
    + intros op' Hop' Hkey. specialize (Hnamed op' Hop' Hkey).
      rewrite Hops in Hnamed. by elem_cases Hnamed.
  - apply last_op_None, Forall_forall. intros op' Hop' Hkey.
    specialize (Hnamed op' Hop' Hkey). rewrite Hops in Hnamed.
    by elem_cases Hnamed.
  - apply last_op_None, Forall_forall. intros op' Hop' Hkey.
    specialize (Hnamed op' Hop' Hkey). rewrite Hops in Hnamed.
    by elem_cases Hnamed.
Qed.

(** A key of one of the five map-backed key types that no entry passed in
    carries keeps what the store held. *)
Lemma flushed_absent (engine_ok : bool) (k : KeyType) (h : uint256) :
  k ∈ [K_COINS; K_SPROUT_ANCHOR; K_SAPLING_ANCHOR; K_NULLIFIER;
       K_SAPLING_NULLIFIER] →
  (∀ d, passed_in mapCoins mapSproutAnchors mapSaplingAnchors
                  mapSproutNullifiers mapSaplingNullifiers d →
        delta_key d ≠ encode k (blob256 h)) →
  fl_db (BatchWrite engine_ok db mapCoins hashBlock hashSproutAnchor
           hashSaplingAnchor mapSproutAnchors mapSaplingAnchors
           mapSproutNullifiers mapSaplingNullifiers) !! encode k (blob256 h) =
  db !! encode k (blob256 h).
Proof.
  intros Hk Habsent. rewrite BatchWrite_lookup.
  destruct engine_ok; [|done].
  rewrite (last_op_None _ (BatchWrite_best _ _ _ _)).
  - rewrite last_op_None; [done|].
    apply Forall_forall. intros op Hop Hkey.
    apply loops_ops_delta in Hop as (d & Hin & Hop).
    apply entry_ops_key in Hop. rewrite Hkey in Hop.
    by apply (Habsent d Hin).
  - apply Forall_forall. intros op Hop.
    apply best_ops_key in Hop as [->|[->| ->]]; by elem_cases Hk.
Qed.

(** X12: after a committed flush, [HaveCoins] and [GetCoins] of a
    transaction id answer from the entry the coin map carried for it: a
    dirty entry with pruned coins leaves no record, a dirty entry with
    other coins leaves these coins (read back from their serialization);
    for an entry that is not dirty, and for an id without entry, they
    answer as before the flush. *)
Theorem flushed_coins_read_back (txid : uint256) :
  let db' :=
    fl_db (BatchWrite true db mapCoins hashBlock hashSproutAnchor
             hashSaplingAnchor mapSproutAnchors mapSaplingAnchors
             mapSproutNullifiers mapSaplingNullifiers) in
  let flushed :=
    match mapCoins !! txid with
    | Some e =>
        if flag_set (CCoinsCacheEntry.flags e) CCoinsCacheEntry.DIRTY
        then Some (CCoinsCacheEntry.coins e) else None
    | None => None
    end in
  match flushed with
  | Some coins =>
      if CCoins_IsPruned coins
      then HaveCoins db' txid = false ∧ GetCoins db' txid = None
      else HaveCoins db' txid = true ∧ GetCoins db' txid = reread coins
  | None =>
      HaveCoins db' txid = HaveCoins db txid ∧
      GetCoins db' txid = GetCoins db txid
  end.
Proof.
  cbv zeta. unfold HaveCoins, GetCoins, db_Exists, db_Read.
  change (Serialize (DB_COINS, txid)) with (encode K_COINS (blob256 txid)).
  destruct (mapCoins !! txid) as [e|] eqn:He.
  - pose proof (flushed_entry (CoinEntry txid e) He) as Hf.
      cbn [delta_key delta_dirty] in Hf. rewrite Hf. clear Hf.
    destruct (flag_set _ _); [|done].
    unfold delta_op; simpl.
    destruct (CCoins_IsPruned _); cbn [op_result keyed_by_empty_root].
    + split; [|done]. apply bool_decide_eq_false_2. by intros [? ?].
    + split; [|done]. by apply bool_decide_eq_true_2.
  - rewrite flushed_absent; [done|repeat constructor|].
    intros [k e|k e|k e|k e|k e]; simpl; intros Hin; try done.
    intros [= Hk%blob256_inj]. congruence.
Qed.

(** X13: after a committed flush, [GetNullifier] of a nullifier
    of either pool answers the [entered] flag of the dirty entry the
    pool's map carried for it; for an entry that is not dirty, and for a
    nullifier without entry, it answers as before the flush. *)
Theorem flushed_nullifier_read_back (nf : uint256) (type : ShieldedType) :
  let db' :=
    fl_db (BatchWrite true db mapCoins hashBlock hashSproutAnchor
             hashSaplingAnchor mapSproutAnchors mapSaplingAnchors
             mapSproutNullifiers mapSaplingNullifiers) in
  let mapToUse :=
    match type with
    | SPROUT => mapSproutNullifiers
    | SAPLING => mapSaplingNullifiers
    end in
  GetNullifier db' nf type =
    match mapToUse !! nf with
    | Some e =>
        if flag_set (CNullifiersCacheEntry.flags e) CNullifiersCacheEntry.DIRTY
        then CNullifiersCacheEntry.entered e
        else GetNullifier db nf type
    | None => GetNullifier db nf type
    end.
Proof.
  cbv zeta. unfold GetNullifier, db_Read. destruct type.
  - change (Serialize (DB_NULLIFIER, nf))
      with (encode K_NULLIFIER (blob256 nf)).
    destruct (mapSproutNullifiers !! nf) as [e|] eqn:He.
    + pose proof (flushed_entry (SproutNullifierEntry nf e) He) as Hf.
      cbn [delta_key delta_dirty] in Hf. rewrite Hf. clear Hf.
      destruct (flag_set _ _); [|done].
      unfold delta_op; simpl.
      by destruct (CNullifiersCacheEntry.entered e).
    + rewrite flushed_absent; [done|repeat constructor|].
      intros [k e|k e|k e|k e|k e]; simpl; intros Hin; try done.
      intros [= Hk%blob256_inj]. congruence.
  - change (Serialize (DB_SAPLING_NULLIFIER, nf))
      with (encode K_SAPLING_NULLIFIER (blob256 nf)).
    destruct (mapSaplingNullifiers !! nf) as [e|] eqn:He.
    + pose proof (flushed_entry (SaplingNullifierEntry nf e) He) as Hf.
      cbn [delta_key delta_dirty] in Hf. rewrite Hf. clear Hf.
      destruct (flag_set _ _); [|done].
      unfold delta_op; simpl.
      by destruct (CNullifiersCacheEntry.entered e).
    + rewrite flushed_absent; [done|repeat constructor|].
      intros [k e|k e|k e|k e|k e]; simpl; intros Hin; try done.
      intros [= Hk%blob256_inj]. congruence.
Qed.

(** X14: after a committed flush, looking up a root other than the
    empty root answers from the dirty entry the anchor map of the pool
    carried for it: with [entered] unset the lookup fails and leaves the
    caller's tree, with [entered] set it yields the tree of the entry
    (read back from its serialization); for an entry that is not dirty,
    and for a root without entry, it answers as before the flush. *)
Theorem flushed_anchor_read_back :
  let db' :=
    fl_db (BatchWrite true db mapCoins hashBlock hashSproutAnchor
             hashSaplingAnchor mapSproutAnchors mapSaplingAnchors
             mapSproutNullifiers mapSaplingNullifiers) in
  (∀ rt tree,
     rt ≠ empty_root SproutMerkleTree →
     (GetSproutAnchorAt db' rt tree).1 =
       match mapSproutAnchors !! rt with
       | Some e =>
           if flag_set (CAnchorsCacheEntry.flags e) CAnchorsCacheEntry.DIRTY
           then
             if CAnchorsCacheEntry.entered e
             then match reread (CAnchorsCacheEntry.tree e) with
                  | Some t => (true, t)
                  | None => (false, tree)
                  end
             else (false, tree)
           else (GetSproutAnchorAt db rt tree).1
       | None => (GetSproutAnchorAt db rt tree).1
       end) ∧
  (∀ rt tree,
     rt ≠ empty_root SaplingMerkleTree →
     (GetSaplingAnchorAt db' rt tree).1 =
       match mapSaplingAnchors !! rt with
       | Some e =>
           if flag_set (CAnchorsCacheEntry.flags e) CAnchorsCacheEntry.DIRTY
           then
             if CAnchorsCacheEntry.entered e
             then match reread (CAnchorsCacheEntry.tree e) with
                  | Some t => (true, t)
                  | None => (false, tree)
                  end
             else (false, tree)
           else (GetSaplingAnchorAt db rt tree).1
       | None => (GetSaplingAnchorAt db rt tree).1
       end).
Proof.
  cbv zeta. split.
  - intros rt tree Hrt. unfold GetSproutAnchorAt, db_Read.
    rewrite !(bool_decide_eq_false_2 _ Hrt).
    change (Serialize (DB_SPROUT_ANCHOR, rt))
      with (encode K_SPROUT_ANCHOR (blob256 rt)).
    destruct (mapSproutAnchors !! rt) as [e|] eqn:He.
    + pose proof (flushed_entry (SproutAnchorEntry rt e) He) as Hf.
      cbn [delta_key delta_dirty] in Hf. rewrite Hf. clear Hf.
      destruct (flag_set _ _); [|done].
      unfold delta_op; simpl. rewrite (bool_decide_eq_false_2 _ Hrt).
      destruct (CAnchorsCacheEntry.entered e); simpl; [|done].
      unfold reread. by destruct (Unserialize _ _) as [[t s]|].
    + rewrite flushed_absent; [done|repeat constructor|].
      intros [k e|k e|k e|k e|k e]; simpl; intros Hin; try done.
      intros [= Hk%blob256_inj]. congruence.
  - intros rt tree Hrt. unfold GetSaplingAnchorAt, db_Read.
    rewrite !(bool_decide_eq_false_2 _ Hrt).
    change (Serialize (DB_SAPLING_ANCHOR, rt))
      with (encode K_SAPLING_ANCHOR (blob256 rt)).
    destruct (mapSaplingAnchors !! rt) as [e|] eqn:He.
    + pose proof (flushed_entry (SaplingAnchorEntry rt e) He) as Hf.
      cbn [delta_key delta_dirty] in Hf. rewrite Hf. clear Hf.
      destruct (flag_set _ _); [|done].
      unfold delta_op; simpl. rewrite (bool_decide_eq_false_2 _ Hrt).
      destruct (CAnchorsCacheEntry.entered e); simpl; [|done].
      unfold reread. by destruct (Unserialize _ _) as [[t s]|].
    + rewrite flushed_absent; [done|repeat constructor|].
      intros [k e|k e|k e|k e|k e]; simpl; intros Hin; try done.
      intros [= Hk%blob256_inj]. congruence.
Qed.

(** X15: after a committed flush called with hashes of full width,
    [GetBestBlock] and [GetBestAnchor] answer the hash the flush was
    given for the slot when that hash is not null, and what they answered
    before the flush when it is null. *)
Theorem flushed_best_read_back :
  full_width hashBlock → full_width hashSproutAnchor →
  full_width hashSaplingAnchor →
  let db' :=
    fl_db (BatchWrite true db mapCoins hashBlock hashSproutAnchor
             hashSaplingAnchor mapSproutAnchors mapSaplingAnchors
             mapSproutNullifiers mapSaplingNullifiers) in
  GetBestBlock db' =
    (if IsNull hashBlock then GetBestBlock db else hashBlock) ∧
  GetBestAnchor db' SPROUT =
    (if IsNull hashSproutAnchor then GetBestAnchor db SPROUT
     else hashSproutAnchor) ∧
  GetBestAnchor db' SAPLING =
    (if IsNull hashSaplingAnchor then GetBestAnchor db SAPLING
     else hashSaplingAnchor).
Proof.
  intros Hw1 Hw2 Hw3. cbv zeta.
  assert (∀ k, k ∈ [K_BEST_BLOCK; K_BEST_SPROUT_ANCHOR; K_BEST_SAPLING_ANCHOR] →
               last_op (encode k [])
                 (loops_ops mapCoins mapSproutAnchors mapSaplingAnchors
                            mapSproutNullifiers mapSaplingNullifiers) = None)
    as Hloops.
  { intros k Hk. apply last_op_None, loops_ops_avoid; elem_cases Hk; try done;
      intros Hin; by elem_cases Hin. }
  unfold GetBestBlock, GetBestAnchor, db_Read.
  change (Serialize DB_BEST_BLOCK) with (encode K_BEST_BLOCK []).
  change (Serialize DB_BEST_SPROUT_ANCHOR)
    with (encode K_BEST_SPROUT_ANCHOR []).
  change (Serialize DB_BEST_SAPLING_ANCHOR)
    with (encode K_BEST_SAPLING_ANCHOR []).
  rewrite !BatchWrite_lookup, !Hloops by repeat constructor.
  cbn [op_result].
  apply reread_uint256 in Hw1, Hw2, Hw3. unfold reread in Hw1, Hw2, Hw3.
  unfold BatchWrite_best, batch_Write.
  destruct (IsNull hashBlock), (IsNull hashSproutAnchor),
    (IsNull hashSaplingAnchor); cbn [negb app];
    rewrite ?last_op_cons; cbn [last_op foldl op_key];
    repeat (first [rewrite decide_True by done
                  |rewrite decide_False by done]);
    cbn [op_result]; by rewrite ?Hw1, ?Hw2, ?Hw3.
Qed.

End FlushReads.

(** ** The statistics scan: counters and failure *)

Section StatsMore.
Context {coins_methods : CoinsMethods} {stats_env : StatsEnv}.

Lemma GetStats_outputs_counters (vout : list CTxOut) (i : Z) (st : StatsLoop) :
  let s := sl_stats st in
  let s' := sl_stats (GetStats_outputs vout i st) in
  CCoinsStats.nTransactions s' = CCoinsStats.nTransactions s ∧
  CCoinsStats.nSerializedSize s' = CCoinsStats.nSerializedSize s ∧
  CCoinsStats.hashBlock s' = CCoinsStats.hashBlock s ∧
  CCoinsStats.nHeight s' = CCoinsStats.nHeight s ∧
  CCoinsStats.hashSerialized s' = CCoinsStats.hashSerialized s ∧
  CCoinsStats.nTotalAmount s' = CCoinsStats.nTotalAmount s.
Proof.
  revert i st. induction vout as [|out rest IH]; intros i st; [done|].
  simpl. destruct (IH (uint32_incr i)
    (if negb (CTxOut_IsNull out)
     then {| sl_ss := sl_ss st ++ WriteVarInt (uint32_incr i) ++ Serialize out;
             sl_stats := count_output (sl_stats st);
             sl_nTotalAmount :=
               int64_add (sl_nTotalAmount st) (nValue out) |}
     else st)) as (H1 & H2 & H3 & H4 & H5 & H6).
  rewrite H1, H2, H3, H4, H5, H6. by destruct (CTxOut_IsNull out).
Qed.

Lemma GetStats_record_counters (coins : CCoins) (size : Z) (st : StatsLoop) :
  let s := sl_stats st in
  let s' := sl_stats (GetStats_record coins size st) in
  CCoinsStats.nTransactions s' = uint64_add (CCoinsStats.nTransactions s) 1 ∧
  CCoinsStats.nSerializedSize s' =
    uint64_add (CCoinsStats.nSerializedSize s) (32 + size) ∧
  CCoinsStats.hashBlock s' = CCoinsStats.hashBlock s ∧
  CCoinsStats.nHeight s' = CCoinsStats.nHeight s ∧
  CCoinsStats.hashSerialized s' = CCoinsStats.hashSerialized s ∧
  CCoinsStats.nTotalAmount s' = CCoinsStats.nTotalAmount s.
Proof.
  cbv zeta. unfold GetStats_record. cbn [sl_stats add_size
    CCoinsStats.nTransactions CCoinsStats.nSerializedSize
    CCoinsStats.hashBlock CCoinsStats.nHeight CCoinsStats.hashSerialized
    CCoinsStats.nTotalAmount].
  destruct (GetStats_outputs_counters (vout coins) 0
    {| sl_ss := sl_ss st; sl_stats := count_transaction (sl_stats st);
       sl_nTotalAmount := sl_nTotalAmount st |})
    as (H1 & H2 & H3 & H4 & H5 & H6).
  cbv zeta in *. by rewrite H1, H2, H3, H4, H5, H6.
Qed.

(** The counters and the fields the loop does not touch, whichever way
    the loop ends. *)
Lemma GetStats_loop_counters (pcursor : CDBIterator) (st st' : StatsLoop) r :
  GetStats_loop pcursor st = (r, st') →
  let s := sl_stats st in
  let s' := sl_stats st' in
  CCoinsStats.nTransactions s' mod 2 ^ 64 =
    (CCoinsStats.nTransactions s +
     Z.of_nat (length (scanned_coins pcursor))) mod 2 ^ 64 ∧
  CCoinsStats.nSerializedSize s' mod 2 ^ 64 =
    (CCoinsStats.nSerializedSize s + scanned_size pcursor) mod 2 ^ 64 ∧
  CCoinsStats.hashBlock s' = CCoinsStats.hashBlock s ∧
  CCoinsStats.nHeight s' = CCoinsStats.nHeight s ∧
  CCoinsStats.hashSerialized s' = CCoinsStats.hashSerialized s ∧
  CCoinsStats.nTotalAmount s' = CCoinsStats.nTotalAmount s.
Proof.
  unfold scanned_size.
  revert st. induction pcursor as [|e rest IH]; intros st; simpl.
  - intros [= _ <-]. by rewrite !Z.add_0_r.
  - destruct (GetKey (ascii * uint256) e) as [key|]; simpl;
      [|intros [= _ <-]; by rewrite !Z.add_0_r].
    destruct (bool_decide (key.1 = DB_COINS)).
    + destruct (GetValue CCoins e) as [coins|];
        [|intros [= _ <-]; by rewrite !Z.add_0_r].
      intros Hloop. destruct (IH _ Hloop) as (H1 & H2 & H3 & H4 & H5 & H6).
      destruct (GetStats_record_counters coins (Z.of_nat (length e.2)) st)
        as (G1 & G2 & G3 & G4 & G5 & G6).
      cbv zeta in *. simpl.
      rewrite H1, H2, H3, H4, H5, H6, G1, G2, G3, G4, G5, G6.
      unfold uint64_add. rewrite !Zplus_mod_idemp_l.
      repeat split; f_equal; lia.
    + destruct (GetValue CCoins e);
        intros [= _ <-]; by rewrite !Z.add_0_r.
Qed.

Lemma scanned_coins_run (pre post : CDBIterator) :
  Forall coin_entry pre →
  length (scanned_coins (pre ++ post)) =
    (length pre + length (scanned_coins post))%nat ∧
  scanned_size (pre ++ post) =
    foldr (λ e acc, 32 + Z.of_nat (length e.2) + acc) 0 pre +
    scanned_size post.
Proof.
  unfold scanned_size.
  induction 1 as [|e pre (key & coins & Hk & Hv) Hpre [IH1 IH2]]; [done|].
  simpl. rewrite Hk, Hv. simpl. rewrite ?bool_decide_eq_true_2 by done.
  simpl. rewrite IH2, IH1. split; [done|]. lia.
Qed.

Lemma GetStats_loop_fails (pre post : CDBIterator) (e : bytes * bytes)
    (key : uint256) (st : StatsLoop) :
  Forall coin_entry pre →
  GetKey (ascii * uint256) e = Some (DB_COINS, key) →
  GetValue CCoins e = None →
  (GetStats_loop (pre ++ e :: post) st).1 = Some false.
Proof.
  intros Hpre Hk Hv. revert st.
  induction Hpre as [|x pre (key' & coins & Hk' & Hv') Hpre IH]; intros st.
  - simpl. rewrite Hk, Hv. simpl. by rewrite ?bool_decide_eq_true_2.
  - simpl. rewrite Hk', Hv'. simpl. rewrite ?bool_decide_eq_true_2 by done.
    apply IH.
Qed.

(** X16: when the scan of [GetStats] meets a coin key whose value
    does not decode, all entries before it being coin records, [GetStats]
    returns false, whatever [mapBlockIndex] holds.  The caller's [stats]
    then has the best-block hash
    stored in it and the transaction counter advanced by the number of
    records read, while its height, summary hash and total amount are as
    the caller passed them. *)
Theorem GetStats_unreadable_value (db : CDBWrapper) (stats : CCoinsStats.t)
    (pre post : CDBIterator) (e : bytes * bytes) (key : uint256) :
  Seek (Serialize DB_COINS) (NewIterator db) = pre ++ e :: post →
  Forall coin_entry pre →
  GetKey (ascii * uint256) e = Some (DB_COINS, key) →
  GetValue CCoins e = None →
  ∃ stats' : CCoinsStats.t,
    GetStats db stats = Some (false, stats') ∧
    CCoinsStats.hashBlock stats' = GetBestBlock db ∧
    CCoinsStats.nTransactions stats' mod 2 ^ 64 =
      (CCoinsStats.nTransactions stats + Z.of_nat (length pre)) mod 2 ^ 64 ∧
    CCoinsStats.nHeight stats' = CCoinsStats.nHeight stats ∧
    CCoinsStats.hashSerialized stats' = CCoinsStats.hashSerialized stats ∧
    CCoinsStats.nTotalAmount stats' = CCoinsStats.nTotalAmount stats.
Proof.
  intros Hcur Hpre Hk Hv. unfold GetStats. rewrite Hcur. cbv zeta.
  destruct (GetStats_loop (pre ++ e :: post) _) as [res st'] eqn:Hloop.
  match type of Hloop with
  | GetStats_loop _ ?st = _ =>
      pose proof (GetStats_loop_fails pre post e key st Hpre Hk Hv) as Hres
  end.
  rewrite Hloop in Hres. simpl in Hres. subst res.
  exists (sl_stats st'). split; [done|].
  apply GetStats_loop_counters in Hloop as (H1 & _ & H3 & H4 & H5 & H6).
  cbn [sl_stats CCoinsStats.nTransactions CCoinsStats.hashBlock
       CCoinsStats.nHeight CCoinsStats.hashSerialized
       CCoinsStats.nTotalAmount fst snd] in *.
  rewrite H1, H3, H4, H5, H6.
  destruct (scanned_coins_run pre (e :: post) Hpre) as [-> _].
  simpl. rewrite Hk, Hv. simpl. repeat split; try done.
  f_equal. lia.
Qed.

(** X17: when [GetStats] succeeds, the caller's [stats] holds the
    best-block hash and the height recorded for it, and the transaction
    counter and the serialized size have grown, from the values the
    caller passed in, by the number of records visited and by 32 plus the
    value size for each of them (counters of 64 bits). *)
Theorem GetStats_counters (db : CDBWrapper) (stats stats' : CCoinsStats.t) :
  GetStats db stats = Some (true, stats') →
  let cursor := Seek (Serialize DB_COINS) (NewIterator db) in
  CCoinsStats.hashBlock stats' = GetBestBlock db ∧
  mapBlockIndex_nHeight (GetBestBlock db) =
    Some (CCoinsStats.nHeight stats') ∧
  CCoinsStats.nTransactions stats' mod 2 ^ 64 =
    (CCoinsStats.nTransactions stats +
     Z.of_nat (length (scanned_coins cursor))) mod 2 ^ 64 ∧
  CCoinsStats.nSerializedSize stats' mod 2 ^ 64 =
    (CCoinsStats.nSerializedSize stats + scanned_size cursor) mod 2 ^ 64.
Proof.
  unfold GetStats. cbv zeta.
  destruct (GetStats_loop _ _) as [[b|] st] eqn:Hloop.
  - pose proof (GetStats_loop_returns _ _ _ _ Hloop) as ->. done.
  - apply GetStats_loop_counters in Hloop as (H1 & H2 & H3 & _).
    cbn [sl_stats CCoinsStats.hashBlock] in H3.
    destruct (mapBlockIndex_nHeight _) as [nHeight|] eqn:Hheight; [|done].
    intros [= <-].
    cbn [sl_stats CCoinsStats.nTransactions CCoinsStats.hashBlock
         CCoinsStats.nHeight CCoinsStats.nSerializedSize] in *.
    by rewrite H1, H2, <- H3, Hheight.
Qed.

End StatsMore.

(** ** The block-index loader: runs, order and links *)

Section LoadMore.
Context {block_env : BlockIndexEnv}.

(** X18: when the entries from the cursor position on load one after
    the other up to the end of the store, or up to an entry whose key
    does not decode or carries another tag, [LoadBlockIndexGuts] returns
    true with the map these entries lead to; what follows that entry is
    not read. *)
Theorem LoadBlockIndexGuts_loads_run (db : CDBWrapper)
    (mapBlockIndex m : BlockMap) (pre rest : CDBIterator) :
  Seek (Serialize (DB_BLOCK_INDEX, uint256_zero)) (NewIterator db) =
    pre ++ rest →
  loads pre mapBlockIndex m →
  match rest with
  | [] => True
  | e :: _ =>
      match GetKey (ascii * uint256) e with
      | Some key => key.1 ≠ DB_BLOCK_INDEX
      | None => True
      end
  end →
  LoadBlockIndexGuts db mapBlockIndex = Some (true, m).
Proof.
  intros Hcur Hpre Hrest. unfold LoadBlockIndexGuts. rewrite Hcur.
  rewrite (LoadBlockIndexGuts_loop_loads _ _ _ _ Hpre).
  destruct rest as [|e rest]; [done|].
  cbn [LoadBlockIndexGuts_loop]. unfold LoadBlockIndexGuts_body.
  destruct (GetKey (ascii * uint256) e) as [key|]; [|done].
  by rewrite bool_decide_eq_false_2.
Qed.

Lemma InsertBlockIndex_lookup (hash k : uint256) (m : BlockMap) :
  (InsertBlockIndex hash m).2 !! k =
  if decide (k = hash ∧ IsNull hash = false)
  then Some (default CBlockIndex.new (m !! k))
  else m !! k.
Proof.
  unfold InsertBlockIndex. destruct (IsNull hash) eqn:Hn; simpl.
  - rewrite decide_False; [done|]. by intros [_ ?].
  - destruct (decide (k = hash)) as [->|Hne].
    + rewrite decide_True by done.
      destruct (m !! hash) eqn:Hm; simpl; [done|].
      by rewrite lookup_insert_eq.
    + rewrite decide_False by (by intros [? _]).
      destruct (m !! hash); simpl; [done|]. by rewrite lookup_insert_ne.
Qed.

(** The map after one record. *)
Lemma load_one_lookup (diskindex : CDiskBlockIndex.t) (m m' : BlockMap)
    (k : uint256) :
  load_one diskindex m = Some m' →
  let hash := CDiskBlockIndex_GetBlockHash diskindex in
  let hashPrev := CDiskBlockIndex.hashPrev diskindex in
  IsNull hash = false ∧
  m' !! k =
    if decide (k = hash) then
      Some (copy_from_disk (if IsNull hashPrev then None else Some hashPrev)
                           diskindex CBlockIndex.new)
    else if decide (k = hashPrev ∧ IsNull hashPrev = false) then
      Some (default CBlockIndex.new (m !! k))
    else m !! k.
Proof.
  unfold load_one, load_entry. rewrite !InsertBlockIndex_node.
  cbv zeta. destruct (IsNull (CDiskBlockIndex_GetBlockHash diskindex)) eqn:Hn;
    [done|].
  cbn [fmap option_fmap option_map fst]. intros [= <-]. split; [done|].
  case_decide as Hk; [subst k; by rewrite lookup_insert_eq|].
  rewrite lookup_insert_ne by done.
  rewrite !InsertBlockIndex_lookup.
  rewrite (decide_False
             (P := k = CDiskBlockIndex_GetBlockHash diskindex ∧ _))
    by (by intros [? _]).
  done.
Qed.

Lemma load_one_Some (diskindex : CDiskBlockIndex.t) (m : BlockMap) :
  IsNull (CDiskBlockIndex_GetBlockHash diskindex) = false →
  is_Some (load_one diskindex m).
Proof.
  intros Hn. unfold load_one, load_entry. rewrite InsertBlockIndex_node, Hn.
  by eexists.
Qed.

Lemma load_one_None (diskindex : CDiskBlockIndex.t) (m : BlockMap) :
  IsNull (CDiskBlockIndex_GetBlockHash diskindex) = true →
  load_one diskindex m = None.
Proof.
  intros Hn. unfold load_one, load_entry.
  by rewrite InsertBlockIndex_node, Hn.
Qed.

(** X19: loading one record into the map does not depend on what
    was loaded before it beyond the nodes it finds: loading a record a
    second time changes nothing, and two records with different hashes
    give the same map in either order. *)
Theorem load_one_order (d1 d2 : CDiskBlockIndex.t) (m : BlockMap) :
  (load_one d1 m ≫= load_one d1) = load_one d1 m ∧
  (CDiskBlockIndex_GetBlockHash d1 ≠ CDiskBlockIndex_GetBlockHash d2 →
   (load_one d1 m ≫= load_one d2) = (load_one d2 m ≫= load_one d1)).
Proof.
  split.
  - destruct (load_one d1 m) as [m1|] eqn:H1; [|done]. simpl.
    pose proof (load_one_lookup d1 m m1) as Hm1.
    destruct (Hm1 uint256_zero H1) as [Hn _].
    destruct (load_one_Some d1 m1 Hn) as [m2 H2]. rewrite H2. f_equal.
    apply map_eq. intros k.
    destruct (load_one_lookup d1 m1 m2 k H2) as [_ ->].
    destruct (Hm1 k H1) as [_ ->].
    repeat case_decide; try done; by destruct (m !! k).
  - intros Hne.
    destruct (IsNull (CDiskBlockIndex_GetBlockHash d1)) eqn:Hn1.
    { rewrite (load_one_None d1 m Hn1). simpl.
      destruct (load_one d2 m) as [m2|]; [|done]. simpl.
      by rewrite load_one_None. }
    destruct (IsNull (CDiskBlockIndex_GetBlockHash d2)) eqn:Hn2.
    { rewrite (load_one_None d2 m Hn2). simpl.
      destruct (load_one d1 m) as [m1|]; [|done]. simpl.
      by rewrite load_one_None. }
    destruct (load_one_Some d1 m Hn1) as [m1 H1].
    destruct (load_one_Some d2 m Hn2) as [m2 H2].
    rewrite H1, H2. simpl.
    destruct (load_one_Some d2 m1 Hn2) as [m12 H12].
    destruct (load_one_Some d1 m2 Hn1) as [m21 H21].
    rewrite H12, H21. f_equal. apply map_eq. intros k.
    destruct (load_one_lookup d2 m1 m12 k H12) as [_ ->].
    destruct (load_one_lookup d1 m2 m21 k H21) as [_ ->].
    destruct (load_one_lookup d1 m m1 k H1) as [_ ->].
    destruct (load_one_lookup d2 m m2 k H2) as [_ ->].
    repeat case_decide; simplify_eq; try done; by destruct (m !! k).
Qed.

(** One record keeps the links resolved. *)
Lemma load_one_links (diskindex : CDiskBlockIndex.t) (m m' : BlockMap) :
  links_resolve m → load_one diskindex m = Some m' → links_resolve m'.
Proof.
  intros Hm Hload hash node prev Hnode Hprev.
  pose proof (load_one_lookup diskindex m m') as Hlook.
  destruct (Hlook hash Hload) as [Hn Hh]. rewrite Hh in Hnode.
  assert (∀ k, is_Some (m !! k) → is_Some (m' !! k)) as Hmono.
  { intros k Hk. destruct (Hlook k Hload) as [_ ->].
    repeat case_decide; try done; by destruct (m !! k). }
  case_decide as E1.
  - injection Hnode as <-. simpl in Hprev.
    destruct (IsNull (CDiskBlockIndex.hashPrev diskindex)) eqn:Hp; [done|].
    injection Hprev as <-.
    destruct (Hlook (CDiskBlockIndex.hashPrev diskindex) Hload) as [_ ->].
    case_decide; [done|]. by rewrite decide_True.
  - case_decide as E2.
    + injection Hnode as <-. destruct (m !! hash) as [n|] eqn:Hmh.
      * simpl in Hprev. apply Hmono. by apply (Hm hash n prev).
      * done.
    + apply Hmono. by apply (Hm hash node prev).
Qed.

Lemma LoadBlockIndexGuts_body_links (e : bytes * bytes) (m : BlockMap) :
  links_resolve m →
  match LoadBlockIndexGuts_body e m with
  | LoadNext m' | LoadError m' => links_resolve m'
  | _ => True
  end.
Proof.
  intros Hm. unfold LoadBlockIndexGuts_body.
  destruct (GetKey (ascii * uint256) e) as [key|]; [|done].
  destruct (bool_decide (key.1 = DB_BLOCK_INDEX)); [|done].
  destruct (GetValue CDiskBlockIndex.t e) as [diskindex|]; [|done].
  destruct (load_entry diskindex m) as [[m' b]|] eqn:Hload; [|done].
  assert (links_resolve m') as Hm'.
  { apply (load_one_links diskindex m m' Hm). unfold load_one.
    by rewrite Hload. }
  by destruct b.
Qed.

(** X20: the loader keeps the predecessor links resolved: when
    every predecessor link of [mapBlockIndex] leads to a node of the map
    before the call, the same holds of the map the loader leaves, whether
    it returns true or false. *)
Theorem LoadBlockIndexGuts_links (db : CDBWrapper)
    (mapBlockIndex m : BlockMap) (b : bool) :
  links_resolve mapBlockIndex →
  LoadBlockIndexGuts db mapBlockIndex = Some (b, m) →
  links_resolve m.
Proof.
  unfold LoadBlockIndexGuts.
  generalize (Seek (Serialize (DB_BLOCK_INDEX, uint256_zero))
                   (NewIterator db)).
  intros pcursor. revert mapBlockIndex.
  induction pcursor as [|e rest IH]; intros m0 Hm0; simpl.
  - by intros [= _ <-].
  - pose proof (LoadBlockIndexGuts_body_links e m0 Hm0) as Hbody.
    destruct (LoadBlockIndexGuts_body e m0) as [m1| |m1|].
    + by apply IH.
    + by intros [= _ <-].
    + by intros [= _ <-].
    + done.
Qed.

End LoadMore.

(** ** The balance snapshot *)

Lemma bytes_compare_antisym (a b : bytes) :
  bytes_compare b a = CompOpp (bytes_compare a b).
Proof.
  revert b. induction a as [|x a IH]; intros [|y b]; simpl; try done.
  rewrite (N.compare_antisym (N_of_ascii x) (N_of_ascii y)).
  destruct (N_of_ascii x ?= N_of_ascii y)%N; simpl; auto.
Qed.

#[local] Instance amount_addr_le_total : Total amount_addr_le.
Proof.
  intros [a1 a2] [b1 b2]. unfold amount_addr_le; simpl.
  destruct (Z.lt_trichotomy a1 b1) as [?|[->|?]];
    [by left; left| |by right; left].
  destruct (bytes_compare (list_ascii_of_string a2) (list_ascii_of_string b2))
    eqn:Hc.
  - left. right. done.
  - left. right. done.
  - right. right. split; [done|]. by rewrite bytes_compare_antisym, Hc.
Qed.

Lemma Sorted_take {A : Type} (R : relation A) (l : list A) (n : nat) :
  Sorted R l → Sorted R (take n l).
Proof.
  intros Hl. revert n.
  induction Hl as [|x l Hl IH Hhd]; intros [|n]; simpl.
  - constructor.
  - constructor.
  - constructor.
  - constructor; [apply IH|].
    destruct Hhd as [|y l' Hxy]; destruct n; simpl; by constructor.
Qed.

Section SnapshotFacts.
Context {index_codec : IndexCodec} {snapshot_env : SnapshotEnv}.

Lemma Snapshot_body_ok (e : bytes * bytes) (st st' : SnapshotScan) :
  tally_ok st → Snapshot_body e st = Some st' → tally_ok st'.
Proof.
  intros [Hcount Hleft]. unfold Snapshot_body.
  destruct (Unserialize ascii e.1) as [[chType ssKey]|]; [|done].
  destruct (Unserialize CAddressIndexIteratorKey.t ssKey) as [[indexKey ?]|];
    [|done].
  destruct (bool_decide (chType = DB_ADDRESSUNSPENTINDEX));
    [|by intros [= <-]].
  destruct (@Unserialize CAmount CAmount_Serializable e.2) as [[nValue ?]|];
    [|done].
  cbv zeta.
  set (address := (getAddressFromIndex _ _ _).2).
  destruct (bool_decide (address ∈ ignoredMap)) eqn:Hign.
  - by intros [= <-].
  - apply bool_decide_eq_false in Hign.
    destruct (ss_addressAmounts st !! address) as [amount|] eqn:Hold;
      intros [= <-]; split; simpl.
    + rewrite Hcount. f_equal.
      rewrite <- (insert_id (ss_addressAmounts st) address amount) at 1 by done.
      rewrite <- (insert_delete_eq (ss_addressAmounts st)).
      rewrite <- (insert_delete_eq (ss_addressAmounts st) address
                    (int64_add amount nValue)).
      by rewrite !map_size_insert_None by apply lookup_delete_eq.
    + intros a. destruct (decide (a = address)) as [->|Hne]; [done|].
      rewrite lookup_insert_ne by done. apply Hleft.
    + rewrite map_size_insert_None by done. lia.
    + intros a. destruct (decide (a = address)) as [->|Hne]; [done|].
      rewrite lookup_insert_ne by done. apply Hleft.
Qed.

Lemma Snapshot_loop_ok (iter : CDBIterator) (st : SnapshotScan) :
  tally_ok st → tally_ok (Snapshot_loop iter st).
Proof.
  revert st. induction iter as [|e rest IH]; intros st Hst; simpl; [done|].
  destruct (Snapshot_body e st) as [st'|] eqn:Hbody; [|done].
  by apply IH, (Snapshot_body_ok e st).
Qed.

Lemma Snapshot_scan_ok (db : CDBWrapper) (ignoredAddresses : Z) :
  tally_ok (Snapshot_scan db ignoredAddresses).
Proof.
  apply Snapshot_loop_ok. split; simpl.
  - by rewrite map_size_empty.
  - intros a [? Ha]. by rewrite lookup_empty in Ha.
Qed.

(** When the amounts read from the store are 64-bit values, so are the
    tallied amounts. *)
Lemma Snapshot_body_range (e : bytes * bytes) (st st' : SnapshotScan) :
  amounts_decode_in_range →
  map_Forall (λ _ amount, int64_range amount) (ss_addressAmounts st) →
  Snapshot_body e st = Some st' →
  map_Forall (λ _ amount, int64_range amount) (ss_addressAmounts st').
Proof.
  intros Hdec Hst. unfold Snapshot_body.
  destruct (Unserialize ascii e.1) as [[chType ssKey]|]; [|done].
  destruct (Unserialize CAddressIndexIteratorKey.t ssKey) as [[indexKey ?]|];
    [|done].
  destruct (bool_decide (chType = DB_ADDRESSUNSPENTINDEX));
    [|by intros [= <-]].
  destruct (@Unserialize CAmount CAmount_Serializable e.2) as [[nValue ?]|]
    eqn:Hvalue; [|done].
  apply Hdec in Hvalue. cbv zeta.
  set (address := (getAddressFromIndex _ _ _).2).
  destruct (bool_decide (address ∈ ignoredMap)); [by intros [= <-]|].
  destruct (ss_addressAmounts st !! address) as [amount|];
    intros [= <-]; simpl; apply map_Forall_insert_2; try done.
  apply int64_wrap_range.
Qed.

Lemma Snapshot_scan_range (db : CDBWrapper) (ignoredAddresses : Z) :
  amounts_decode_in_range →
  map_Forall (λ _ amount, int64_range amount)
             (ss_addressAmounts (Snapshot_scan db ignoredAddresses)).
Proof.
  intros Hdec. unfold Snapshot_scan.
  generalize (SeekToLast (NewIterator db)). intros iter.
  assert (map_Forall (λ (_ : string) amount, int64_range amount)
            (ss_addressAmounts
               {| ss_address := ""; ss_addressAmounts := ∅;
                  ss_totalAddresses := 0; ss_utxos := 0;
                  ss_ignoredAddresses := ignoredAddresses |})) as Hst
    by apply map_Forall_empty.
  revert Hst. generalize (mk_SnapshotScan "" ∅ 0 0 ignoredAddresses).
  induction iter as [|e rest IH]; intros st Hst; simpl; [done|].
  destruct (Snapshot_body e st) as [st'|] eqn:Hbody; [|done].
  by apply IH, (Snapshot_body_range e st).
Qed.

(** The entries the selection loop reports: the first [top - topN] when
    [topN] is below [top], all of them otherwise. *)
Lemma Snapshot_select_spec (top : Z) (vaddr : list (CAmount * string))
    (addressesSorted : list (list (string * string))) (total topN : Z) :
  let chosen :=
    if decide (topN < top) then take (Z.to_nat (top - topN)) vaddr
    else vaddr in
  Snapshot_select top vaddr addressesSorted (int64_wrap total) topN =
  (addressesSorted ++ (reported <$> chosen),
   int64_wrap (total + sum_amounts chosen),
   topN + Z.of_nat (length chosen)).
Proof.
  assert (∀ (a a' : list (list (string * string))) (b b' c c' : Z),
            a = a' → b = b' → c = c' → (a, b, c) = (a', b', c')) as Heq
    by (by intros; subst).
  revert addressesSorted total topN.
  induction vaddr as [|it rest IH]; intros acc total topN; simpl.
  - case_decide; rewrite ?take_nil; simpl;
      by rewrite app_nil_r, !Z.add_0_r.
  - rewrite int64_add_wrap. case_bool_decide as Htop.
    + subst top. rewrite decide_True by lia.
      replace (topN + 1 - topN) with 1 by lia. simpl.
      rewrite Z.add_0_r. done.
    + rewrite IH. clear IH.
      destruct (decide (topN < top)) as [Hlt|Hge].
      * rewrite decide_True by lia.
        replace (Z.to_nat (top - topN)) with (S (Z.to_nat (top - (topN + 1))))
          by lia.
        simpl. rewrite <- app_assoc. simpl.
        apply Heq; [done|by rewrite Z.add_assoc|lia].
      * rewrite decide_False by lia.
        simpl. rewrite <- app_assoc. simpl.
        apply Heq; [done|by rewrite Z.add_assoc|lia].
Qed.

(** The sorted vector holds the tallied addresses with their amounts. *)
Lemma sorted_vaddr_spec (m : gmap string CAmount) :
  let vaddr :=
    reverse (merge_sort amount_addr_le
               ((λ element, (element.2, element.1)) <$> map_to_list m)) in
  Sorted (flip amount_addr_le) vaddr ∧
  length vaddr = size m ∧
  ∀ it, it ∈ vaddr → m !! it.2 = Some it.1.
Proof.
  cbv zeta. split; [|split].
  - apply Sorted_reverse, Sorted_merge_sort. apply _.
  - rewrite length_reverse, merge_sort_Permutation, length_fmap.
    by rewrite length_map_to_list.
  - intros it. rewrite elem_of_reverse, merge_sort_Permutation.
    intros ([a v] & -> & Hin)%list_elem_of_fmap. simpl.
    by apply elem_of_map_to_list.
Qed.

(** X21: the [total_addresses] member of the snapshot is [top]
    whenever [top] is not zero, whatever the number of addresses found,
    and that number when [top] is zero.  The [addresses] array is pushed
    exactly when that member is positive (so never for a negative [top]);
    it then holds the smaller of [top] and the number of addresses found
    for a positive [top], and every address found for [top] zero. *)
Theorem Snapshot_top (db : CDBWrapper)
    (top ignoredAddresses startingHeight endingHeight : Z) :
  let result :=
    Snapshot db top ignoredAddresses startingHeight endingHeight in
  let found := size (ss_addressAmounts (Snapshot_scan db ignoredAddresses)) in
  let totalAddresses :=
    if bool_decide (top ≠ 0) then top else Z.of_nat found in
  member "total_addresses" result = Some (PInt totalAddresses) ∧
  match member "addresses" result with
  | Some (PArr items) =>
      0 < totalAddresses ∧
      length items = if decide (0 < top) then Nat.min (Z.to_nat top) found
                     else found
  | Some _ => False
  | None => totalAddresses ≤ 0
  end.
Proof.
  cbv zeta. unfold Snapshot. fold (Snapshot_scan db ignoredAddresses).
  destruct (Snapshot_scan_ok db ignoredAddresses) as [Hcount _].
  set (st := Snapshot_scan db ignoredAddresses) in *.
  destruct (sorted_vaddr_spec (ss_addressAmounts st)) as (_ & Hlen & _).
  rewrite (Snapshot_select_spec top _ [] 0 0 : Snapshot_select _ _ _ 0 _ = _).
  cbv zeta. rewrite Hcount.
  set (vaddr := reverse _) in *.
  set (totalAddresses :=
         if bool_decide (top ≠ 0) then top
         else Z.of_nat (size (ss_addressAmounts st))).
  destruct (0 <? totalAddresses) eqn:Hpos.
  - apply Z.ltb_lt in Hpos. split; [done|]. simpl. split; [done|].
    rewrite length_fmap. rewrite Z.sub_0_r.
    destruct (decide (0 < top)) as [Htop|Htop].
    + by rewrite length_take, Hlen.
    + done.
  - apply Z.ltb_ge in Hpos. by split.
Qed.

(** X22: when the snapshot reports addresses, the array holds,
    in decreasing order of (amount, address), the objects of tallied
    addresses with the amounts tallied for them; none of the addresses
    the source leaves out is among them; the [total] member is the sum
    of the reported amounts, kept in 64 bits, over [COIN]; and the
    reported amounts are 64-bit values when the amounts read from the
    store are. *)
Theorem Snapshot_addresses (db : CDBWrapper)
    (top ignoredAddresses startingHeight endingHeight : Z)
    (items : list (list (string * string))) :
  let result :=
    Snapshot db top ignoredAddresses startingHeight endingHeight in
  let tallied := ss_addressAmounts (Snapshot_scan db ignoredAddresses) in
  member "addresses" result = Some (PArr items) →
  ∃ chosen : list (CAmount * string),
    items = reported <$> chosen ∧
    Sorted (flip amount_addr_le) chosen ∧
    Forall (λ it, (it.2 ∉ ignoredMap) ∧ tallied !! it.2 = Some it.1) chosen ∧
    member "total" result =
      Some (PReal (int64_wrap (sum_amounts chosen)) COIN) ∧
    (amounts_decode_in_range → Forall (λ it, int64_range it.1) chosen).
Proof.
  cbv zeta. unfold Snapshot. fold (Snapshot_scan db ignoredAddresses).
  destruct (Snapshot_scan_ok db ignoredAddresses) as [_ Hleft].
  pose proof (Snapshot_scan_range db ignoredAddresses) as Hrange.
  set (st := Snapshot_scan db ignoredAddresses) in *.
  destruct (sorted_vaddr_spec (ss_addressAmounts st)) as (Hsorted & _ & Hin).
  rewrite (Snapshot_select_spec top _ [] 0 0 : Snapshot_select _ _ _ 0 _ = _).
  cbv zeta.
  set (vaddr := reverse _) in *.
  set (chosen := if decide (0 < top) then take (Z.to_nat (top - 0)) vaddr
                 else vaddr).
  assert (Sorted (flip amount_addr_le) chosen ∧
          ∀ it, it ∈ chosen → it ∈ vaddr) as [Hchosen Hsub].
  { subst chosen. case_decide; [|done]. split.
    - by apply Sorted_take.
    - intros it. apply (subseteq_take _ _ it). }
  destruct (0 <? _); [|done].
  simpl. intros [= <-]. exists chosen.
  split; [done|]. split; [done|]. split; [|split; [done|]].
  - apply Forall_forall. intros it Hit. apply Hsub, Hin in Hit.
    split; [|done]. apply Hleft. by eexists.
  - intros Hdec. apply Forall_forall. intros it Hit. apply Hsub, Hin in Hit.
    by apply (Hrange Hdec it.2 it.1).
Qed.

End SnapshotFacts.

(** ** The properties on the sample inputs *)

(** A logical timestamp written for a block hash is read back. *)
Lemma WriteTimestampBlockIndex_read_back_witness :
  @ReadTimestampBlockIndex SamplePoint.point_codec
    (@WriteTimestampBlockIndex SamplePoint.point_codec true ∅
       (Sample.txid "x") (CTimestampBlockIndexValue.mk 42)).2
    (Sample.txid "x") 0 = (true, 42).
Proof.
  exact (proj2 (@WriteTimestampBlockIndex_read_back SamplePoint.point_codec
                  true ∅ (Sample.txid "x") (CTimestampBlockIndexValue.mk 42)
                  (Sample.txid "x") 0 eq_refl)).
Defined.

(** A block stored and then erased, the node having changed in between,
    leaves no entry. *)
Lemma EraseBatchSync_after_write_witness :
  (@EraseBatchSync true
     (@WriteBatchSync SamplePoint.point_codec Sample.block_env true ∅ [] 3
        [SamplePoint.block_x]).2
     [SamplePoint.block_x']).2
    !! encode K_BLOCK_INDEX (blob256 (Sample.txid "x")) = None.
Proof.
  exact (proj1 (@EraseBatchSync_after_write SamplePoint.point_codec
                  Sample.block_env ∅ [] 3 [SamplePoint.block_x]
                  [SamplePoint.block_x'] 0 (Sample.txid "x") eq_refl)).
Defined.

(** Writing an address-index entry into the empty store and erasing its
    key, with another amount, gives the empty store back. *)
Lemma EraseAddressIndex_after_write_witness :
  (@EraseAddressIndex Sample.index_codec true
     (@WriteAddressIndex Sample.index_codec true ∅ [(Sample.key_A5, 100)]).2
     [(Sample.key_A5, 0)]).2 = ∅.
Proof.
  refine (proj2 (@EraseAddressIndex_after_write Sample.index_codec ∅
                   [(Sample.key_A5, 100)] [(Sample.key_A5, 0)] eq_refl) _).
  repeat constructor.
Defined.

(** A start height of 100 without an end height scans the whole history
    of the address. *)
Lemma ReadAddressIndex_start_needs_end_witness :
  @ReadAddressIndex Sample.index_codec Sample.address_index
     Sample.addrA 1 [] 100 0 =
  @ReadAddressIndex Sample.index_codec Sample.address_index
     Sample.addrA 1 [] 0 0.
Proof.
  exact (@ReadAddressIndex_start_needs_end Sample.index_codec
           Sample.address_index Sample.addrA 1 [] 100 0
           (or_intror (Z.le_refl 0))).
Defined.

(** On the sample address-unspent index, the scan for [addrA] stops at the
    entry of [addrB]. *)
Lemma ReadAddressUnspentIndex_matching_witness :
  @ReadAddressUnspentIndex Sample.index_codec SamplePoint.unspent_index
     Sample.addrA 1 [] =
  scan_loop (@ReadAddressUnspentIndex_body Sample.index_codec Sample.addrA)
            [SamplePoint.unspent_entry Sample.addrA 100] [].
Proof.
  refine (proj1 (proj2 (@ReadAddressUnspentIndex_matching Sample.index_codec
                          SamplePoint.unspent_index Sample.addrA 1 []))
            [SamplePoint.unspent_entry Sample.addrA 100]
            (SamplePoint.unspent_entry Sample.addrB 7) []
            DB_ADDRESSUNSPENTINDEX
            (CAddressUnspentKey.mk 1 Sample.addrB (Sample.txid "t") 0) _ _ _).
  - vm_compute. reflexivity.
  - vm_compute. reflexivity.
  - right. discriminate.
Defined.

(** A flag written under one name leaves the flag of another name as it
    was. *)
Lemma WriteFlag_read_back_witness :
  @ReadFlag SamplePoint.point_codec
    (@WriteFlag SamplePoint.point_codec true ∅ "txindex" true).2
    "addressindex" false =
  @ReadFlag SamplePoint.point_codec ∅ "addressindex" false.
Proof.
  refine (proj1 (proj2 (proj2 (@WriteFlag_read_back SamplePoint.point_codec
                                 true ∅ "txindex" "addressindex" true false)))
            _).
  discriminate.
Defined.

(** A best-block hash handed to the flush is what [GetBestBlock] answers
    afterwards. *)
Lemma flushed_best_read_back_witness :
  @GetBestBlock
    (fl_db (@BatchWrite bytes bytes Sample.sprout Sample.sapling Sample.coins
              true ∅ ∅ (Sample.txid "h") uint256_zero uint256_zero
              ∅ ∅ ∅ ∅)) = Sample.txid "h".
Proof.
  exact (proj1 (@flushed_best_read_back bytes bytes Sample.sprout
                  Sample.sapling Sample.coins ∅ ∅ (Sample.txid "h")
                  uint256_zero uint256_zero ∅ ∅ ∅ ∅
                  eq_refl eq_refl eq_refl)).
Defined.

(** A dirty Sprout anchor with [entered] set is found after the flush. *)
Lemma flushed_anchor_read_back_witness :
  (@GetSproutAnchorAt bytes Sample.sprout
     (fl_db (@BatchWrite bytes bytes Sample.sprout Sample.sapling Sample.coins
               true ∅ ∅ uint256_zero uint256_zero uint256_zero
               {[Sample.txid "r" :=
                   CAnchorsCacheEntry.mk true ["t"%char]
                                         CAnchorsCacheEntry.DIRTY]}
               ∅ ∅ ∅))
     (Sample.txid "r") []).1 = (true, ["t"%char]).
Proof.
  refine (proj1 (@flushed_anchor_read_back bytes bytes Sample.sprout
                   Sample.sapling Sample.coins ∅ ∅ uint256_zero uint256_zero
                   uint256_zero
                   {[Sample.txid "r" :=
                       CAnchorsCacheEntry.mk true ["t"%char]
                                             CAnchorsCacheEntry.DIRTY]}
                   ∅ ∅ ∅) (Sample.txid "r") [] _).
  discriminate.
Defined.

(** On the broken coin set [GetStats] returns false. *)
Lemma GetStats_unreadable_value_witness :
  fst <$> @GetStats Sample.coins Sample.stats_env SamplePoint.broken_coin_set
            Sample.stats0 = Some false.
Proof.
  destruct (@GetStats_unreadable_value Sample.coins Sample.stats_env
              SamplePoint.broken_coin_set Sample.stats0
              [Sample.coins_entry (Sample.txid "a") [Sample.out1]] []
              (Serialize (DB_COINS, Sample.txid "b"), ["002"%char])
              (Sample.txid "b")) as (stats' & Hret & _);
    [| | | |by rewrite Hret].
  - vm_compute. reflexivity.
  - constructor; [|constructor].
    exists (Sample.txid "a"), (mk_CCoins false [Sample.out1] 0 1).
    split; vm_compute; reflexivity.
  - vm_compute. reflexivity.
  - vm_compute. reflexivity.
Defined.

(** On the first sample coin set [GetStats] counts one transaction and
    reports the height of the best block. *)
Lemma GetStats_counters_witness :
  ∃ stats' : CCoinsStats.t,
    @GetStats Sample.coins Sample.stats_env Sample.coin_set_a Sample.stats0 =
      Some (true, stats') ∧
    @mapBlockIndex_nHeight Sample.stats_env (Sample.txid "h") =
      Some (CCoinsStats.nHeight stats') ∧
    CCoinsStats.nTransactions stats' mod 2 ^ 64 = 1.
Proof.
  eexists. split; [vm_compute; reflexivity|].
  refine (let H := @GetStats_counters Sample.coins Sample.stats_env
                     Sample.coin_set_a Sample.stats0 _ _ in
          conj (proj1 (proj2 H)) (proj1 (proj2 (proj2 H)))).
  vm_compute. reflexivity.
Defined.

(** A block index with one consistent record loads. *)
Lemma LoadBlockIndexGuts_loads_run_witness :
  @LoadBlockIndexGuts Sample.block_env SamplePoint.one_block_index ∅ =
  Some (true, Sample.loaded_first).
Proof.
  refine (@LoadBlockIndexGuts_loads_run Sample.block_env
            SamplePoint.one_block_index ∅ Sample.loaded_first
            [Sample.block_entry Sample.consistent] [] _ _ I).
  - vm_compute. reflexivity.
  - eapply loads_cons; [|apply loads_nil]. vm_compute. reflexivity.
Defined.

(** The sample records [consistent] and [unread] load in either order. *)
Lemma load_one_order_witness :
  (@load_one Sample.block_env Sample.consistent ∅
     ≫= @load_one Sample.block_env Sample.unread) =
  (@load_one Sample.block_env Sample.unread ∅
     ≫= @load_one Sample.block_env Sample.consistent).
Proof.
  refine (proj2 (@load_one_order Sample.block_env Sample.consistent
                   Sample.unread ∅) _).
  discriminate.
Defined.

(** A call that returns [a] returns it with the second component of its
    result. *)
Lemma returned_pair {A B : Type} (x : option (A * B)) (a : A) (d : B) :
  fst <$> x = Some a → x = Some (a, default d (snd <$> x)).
Proof. destruct x as [[? ?]|]; simpl; [by intros [= ->]|done]. Qed.

(** Loading the record of "w", whose predecessor "x" is loaded after it,
    into a map in which "v" points to "u" succeeds; "w" then points to
    "x", "v" still points to "u", and every link leads to a node. *)
Lemma LoadBlockIndexGuts_links_witness :
  fst <$> @LoadBlockIndexGuts Sample.block_env SamplePoint.linked_block_index
            SamplePoint.known_blocks = Some true ∧
  CBlockIndex.pprev <$> SamplePoint.loaded_linked !! Sample.txid "w" =
    Some (Some (Sample.txid "x")) ∧
  CBlockIndex.pprev <$> SamplePoint.loaded_linked !! Sample.txid "v" =
    Some (Some (Sample.txid "u")) ∧
  links_resolve SamplePoint.loaded_linked.
Proof.
  split; [vm_compute; reflexivity|]. split; [vm_compute; reflexivity|].
  split; [vm_compute; reflexivity|].
  refine (@LoadBlockIndexGuts_links Sample.block_env
            SamplePoint.linked_block_index SamplePoint.known_blocks
            SamplePoint.loaded_linked true _ _).
  - intros hash node prev Hnode Hprev. unfold SamplePoint.known_blocks in *.
    apply lookup_insert_Some in Hnode as [[<- <-]|[_ Hnode]].
    + injection Hprev as <-. vm_compute. by eexists.
    + apply lookup_singleton_Some in Hnode as [<- <-]. discriminate Hprev.
  - refine (returned_pair _ true ∅ _). vm_compute. reflexivity.
Defined.

(** The decoder of the sample codec reads an amount as a signed 64-bit
    number. *)
Lemma sample_le_value_bound (s : bytes) :
  0 ≤ Sample.le_value s < 256 ^ Z.of_nat (length s).
Proof.
  induction s as [|c s IH]; [done|].
  cbn [Sample.le_value length]. rewrite Nat2Z.inj_succ, Z.pow_succ_r by lia.
  pose proof (N_ascii_bounded c). lia.
Qed.

Lemma sample_amounts_in_range : @amounts_decode_in_range Sample.index_codec.
Proof.
  intros s nValue rest. simpl. unfold Sample.read.
  case_decide as Hlen; [|done]. intros [= <- _].
  pose proof (sample_le_value_bound (take 8 s)) as Hb.
  rewrite length_take, Nat.min_l in Hb by done.
  unfold int64_range, Sample.signed.
  change (256 ^ Z.of_nat 8) with (2 ^ 64) in Hb.
  change (64 - 1) with 63. destruct (2 ^ 63 <=? _) eqn:Hs.
  - apply Z.leb_le in Hs. lia.
  - apply Z.leb_gt in Hs. lia.
Qed.

(** On the sample index in which the two outputs of [addrA] add up to
    more than 64 bits hold, the snapshot tallies -2 for [addrA], lists
    [addrB] with its 7 first, and totals 5. *)
Lemma Snapshot_addresses_witness :
  ∃ chosen : list (CAmount * string),
    [@reported SamplePoint.snapshot_env (7, "BBBBBBBBBBBBBBBBBBBB"%string);
     @reported SamplePoint.snapshot_env (-2, "AAAAAAAAAAAAAAAAAAAA"%string)] =
      @reported SamplePoint.snapshot_env <$> chosen ∧
    Sorted (flip amount_addr_le) chosen ∧
    Forall (λ it,
      (it.2 ∉ ignoredMap) ∧
      ss_addressAmounts
        (@Snapshot_scan Sample.index_codec SamplePoint.snapshot_env
           SamplePoint.wide_unspent_index 0) !! it.2 = Some it.1) chosen ∧
    member "total"
      (@Snapshot Sample.index_codec SamplePoint.snapshot_env
         SamplePoint.wide_unspent_index 0 0 0 0) =
      Some (PReal (int64_wrap (sum_amounts chosen))
                  (@COIN SamplePoint.snapshot_env)) ∧
    member "total"
      (@Snapshot Sample.index_codec SamplePoint.snapshot_env
         SamplePoint.wide_unspent_index 0 0 0 0) =
      Some (PReal 5 (@COIN SamplePoint.snapshot_env)) ∧
    Forall (λ it, int64_range it.1) chosen.
Proof.
  destruct (@Snapshot_addresses Sample.index_codec SamplePoint.snapshot_env
              SamplePoint.wide_unspent_index 0 0 0 0
              [@reported SamplePoint.snapshot_env
                 (7, "BBBBBBBBBBBBBBBBBBBB"%string);
               @reported SamplePoint.snapshot_env
                 (-2, "AAAAAAAAAAAAAAAAAAAA"%string)])
    as (chosen & Hitems & Hsorted & Htallied & Htotal & Hrange).
  - vm_compute. reflexivity.
  - exists chosen. split; [exact Hitems|]. split; [exact Hsorted|].
    split; [exact Htallied|]. split; [exact Htotal|].
    split; [vm_compute; reflexivity|].
    exact (Hrange sample_amounts_in_range).
Defined.
